(** * Interview-preparation scripts: a shallow embedding and its properties

    The repository is a flat collection of Python scripts.  Each script that
    the properties below talk about gets a module of its own in Part I, with
    the Python functions translated one by one (same names, same order of
    statements).  The predicates and concrete inputs the properties are
    stated with come next, and Part II states and proves the properties.

    Conventions of the embedding:
    - a Python [int] is a [Z] (unbounded, two's complement for the bitwise
      operators, floor division and floor modulus);
    - a Python [list] is a [list]; a [dict] is a [gmap];
    - a function that may raise returns an [option], [None] standing for the
      exception (or for a loop that has used up its fuel);
    - [print] calls are dropped. *)

From Stdlib Require Import ZArith List Lia QArith Qcanon Ascii PrimFloat.
From Stdlib Require String FloatOps SpecFloat.
From stdpp Require Import gmap strings list fin_maps numbers sorting.

Local Open Scope Z_scope.

(* Decimal float literals are read as Python reads them. *)
Set Warnings "-inexact-float".

(* ===================================================================== *)
(** * Part I: the embedding                                               *)
(* ===================================================================== *)

(** ** Python primitives shared by the scripts *)

Module Py.

(** [a << b]: raises ValueError on a negative shift count. *)
Definition shiftl (a b : Z) : option Z :=
  if b <? 0 then None else Some (Z.shiftl a b).

(** [a >> b]: raises ValueError on a negative shift count. *)
Definition shiftr (a b : Z) : option Z :=
  if b <? 0 then None else Some (Z.shiftr a b).

(** [a % b]: floor modulus, raises ZeroDivisionError when [b] is zero. *)
Definition mod_ (a b : Z) : option Z :=
  if b =? 0 then None else Some (a mod b).

(** [l[i]]: a negative index counts from the end, anything outside
    [-len(l) .. len(l)-1] raises IndexError. *)
Definition getitem {A} (l : list A) (i : Z) : option A :=
  let len := Z.of_nat (length l) in
  if (0 <=? i) && (i <? len) then l !! Z.to_nat i
  else if (- len <=? i) && (i <? 0) then l !! Z.to_nat (len + i)
  else None.

(** [l[i:j]] for [0 <= i], [0 <= j] (the only slices the scripts take):
    never raises, clips at the end of the list. *)
Definition slice {A} (l : list A) (i j : Z) : list A :=
  take (Z.to_nat (j - i)) (drop (Z.to_nat i) l).

End Py.

(** ** appl-reverse-bits.py *)

Module ReverseBits.

(** The body of [for i in range(32)], with the loop counter counting the
    iterations that remain. *)
Fixpoint reverse_bits_loop (iters : nat) (n result : Z) : Z :=
  match iters with
  | O => result
  | S iters' =>
      let bit := Z.land n 1 in
      let result := Z.lor (Z.shiftl result 1) bit in
      let n := Z.shiftr n 1 in
      reverse_bits_loop iters' n result
  end.

Definition reverse_bits (n : Z) : Z :=
  let result := 0 in
  reverse_bits_loop 32 n result.


Definition reverse_bits_optimized (n : Z) : Z :=
  (* Swap pairs of bits *)
  let n := Z.lor (Z.shiftr (Z.land n 0xAAAAAAAA) 1)
                 (Z.shiftl (Z.land n 0x55555555) 1) in
  (* Swap nibbles *)
  let n := Z.lor (Z.shiftr (Z.land n 0xCCCCCCCC) 2)
                 (Z.shiftl (Z.land n 0x33333333) 2) in
  (* Swap bytes in pairs *)
  let n := Z.lor (Z.shiftr (Z.land n 0xF0F0F0F0) 4)
                 (Z.shiftl (Z.land n 0x0F0F0F0F) 4) in
  (* Swap 2-byte pairs *)
  let n := Z.lor (Z.shiftr (Z.land n 0xFF00FF00) 8)
                 (Z.shiftl (Z.land n 0x00FF00FF) 8) in
  (* Swap 4-byte pairs *)
  let n := Z.lor (Z.shiftr n 16) (Z.shiftl n 16) in
  Z.land n 0xFFFFFFFF.

End ReverseBits.

(** ** 1-power_of_2.py *)

Module PowerOfTwo.

(** [while n % 2 == 0: n //= 2] followed by [return n == 1].  The loop is
    given [fuel] iterations; [None] means the fuel ran out. *)
Fixpoint is_power_of_two_basic_loop (fuel : nat) (n : Z) : option bool :=
  match fuel with
  | O => None
  | S fuel' =>
      if n mod 2 =? 0
      then is_power_of_two_basic_loop fuel' (n / 2)
      else Some (n =? 1)
  end.

Definition is_power_of_two_basic (n : Z) : option bool :=
  if n <=? 0 then Some false
  else is_power_of_two_basic_loop (Z.to_nat n) n.

Definition is_power_of_two_bit_manipulation (n : Z) : bool :=
  (0 <? n) && (Z.land n (n - 1) =? 0).

End PowerOfTwo.

(** ** two_sum_deep_dive.py *)

Module TwoSum.

(** [for i, num in enumerate(nums)] of [two_sum_hash_table]: [i] is the
    index of the head of [nums], [num_map] the dict built so far. *)
Fixpoint two_sum_hash_table_loop
    (nums : list Z) (i : nat) (target : Z) (num_map : gmap Z nat) : list nat :=
  match nums with
  | [] => []
  | num :: nums' =>
      let complement := target - num in
      match num_map !! complement with
      | Some j => [j; i]
      | None =>
          two_sum_hash_table_loop nums' (S i) target (<[num := i]> num_map)
      end
  end.

Definition two_sum_hash_table (nums : list Z) (target : Z) : list nat :=
  two_sum_hash_table_loop nums 0%nat target ∅.

(** [optimized_two_sum] of [performance_optimization]: the same loop
    without the trace output. *)
Fixpoint optimized_two_sum_loop
    (nums : list Z) (i : nat) (target : Z) (hash_map : gmap Z nat) : list nat :=
  match nums with
  | [] => []
  | num :: nums' =>
      let complement := target - num in
      if decide (is_Some (hash_map !! complement))
      then [default 0%nat (hash_map !! complement); i]
      else optimized_two_sum_loop nums' (S i) target (<[num := i]> hash_map)
  end.

Definition optimized_two_sum (nums : list Z) (target : Z) : list nat :=
  optimized_two_sum_loop nums 0%nat target ∅.


(** [for j in range(i + 1, len(nums))] of [two_sum_brute_force]: [num_i]
    is [nums[i]], [rest] is [nums[j:]].  [Some] is the [return] inside
    the loop, [None] a loop that ran to its end. *)
Fixpoint two_sum_brute_force_inner
    (num_i : Z) (i j : nat) (rest : list Z) (target : Z) : option (list nat) :=
  match rest with
  | [] => None
  | num_j :: rest' =>
      let sum_val := num_i + num_j in
      if sum_val =? target then Some [i; j]
      else two_sum_brute_force_inner num_i i (S j) rest' target
  end.

(** [for i in range(len(nums))]; [rest] is [nums[i:]]. *)
Fixpoint two_sum_brute_force_outer
    (i : nat) (rest : list Z) (target : Z) : list nat :=
  match rest with
  | [] => []
  | num_i :: rest' =>
      match two_sum_brute_force_inner num_i i (S i) rest' target with
      | Some found => found
      | None => two_sum_brute_force_outer (S i) rest' target
      end
  end.

Definition two_sum_brute_force (nums : list Z) (target : Z) : list nat :=
  two_sum_brute_force_outer 0%nat nums target.

(** The order of [(value, index)] tuples: by value, then by index. *)
Definition tuple_le (a b : Z * nat) : Prop :=
  a.1 < b.1 ∨ (a.1 = b.1 ∧ (a.2 ≤ b.2)%nat).

#[global] Instance tuple_le_dec : RelDecision tuple_le.
Proof. intros a b. unfold tuple_le. apply _. Defined.

(** [indexed_nums.sort()]: the tuples in increasing order.  The tuples
    differ in their index, so there is one such arrangement of them. *)
Definition py_sort (indexed_nums : list (Z * nat)) : list (Z * nat) :=
  merge_sort tuple_le indexed_nums.

(** [sorted([left_idx, right_idx])] *)
Definition py_sorted2 (left_idx right_idx : nat) : list nat :=
  if (right_idx <? left_idx)%nat then [right_idx; left_idx]
  else [left_idx; right_idx].

(** [while left < right: ...] of [two_sum_two_pointers]; [None] is an
    IndexError or the fuel running out. *)
Fixpoint two_sum_two_pointers_loop
    (fuel : nat) (indexed_nums : list (Z * nat)) (target left right : Z)
    : option (list nat) :=
  match fuel with
  | O => None
  | S fuel' =>
      if left <? right then
        '(left_val, left_idx) ← Py.getitem indexed_nums left;
        '(right_val, right_idx) ← Py.getitem indexed_nums right;
        let current_sum := left_val + right_val in
        if current_sum =? target then Some (py_sorted2 left_idx right_idx)
        else if current_sum <? target
             then two_sum_two_pointers_loop fuel' indexed_nums target
                    (left + 1) right
             else two_sum_two_pointers_loop fuel' indexed_nums target
                    left (right - 1)
      else Some []
  end.

Definition two_sum_two_pointers (nums : list Z) (target : Z)
    : option (list nat) :=
  let indexed_nums := imap (λ i num, (num, i)) nums in
  let indexed_nums := py_sort indexed_nums in
  let left := 0 in
  let right := Z.of_nat (length indexed_nums) - 1 in
  two_sum_two_pointers_loop (S (length indexed_nums)) indexed_nums target
    left right.

(** [min(nums)] and [max(nums)] on integers: ValueError on an empty
    list. *)
Definition py_min (nums : list Z) : option Z :=
  match nums with
  | [] => None
  | x :: nums' => Some (fold_left (λ m y, if y <? m then y else m) nums' x)
  end.

Definition py_max (nums : list Z) : option Z :=
  match nums with
  | [] => None
  | x :: nums' => Some (fold_left (λ m y, if m <? y then y else m) nums' x)
  end.

Definition robust_two_sum (nums : list Z) (target : Z) : option (list nat) :=
  (* Edge case handling *)
  if bool_decide (nums = []) || (length nums <? 2)%nat then Some []
  else
    (* Quick check for impossible cases *)
    a ← py_min nums; b ← py_min nums;
    let min_sum := a + b in
    a ← py_max nums; b ← py_max nums;
    let max_sum := a + b in
    if (target <? min_sum) || (max_sum <? target) then Some []
    else
      (* Standard algorithm *)
      Some (optimized_two_sum nums target).

(** The loop of [two_sum_all_pairs]; [seen] is a set, [pairs] a list of
    tuples. *)
Fixpoint two_sum_all_pairs_loop (nums : list Z) (target : Z)
    (pairs : list (Z * Z)) (seen : gset Z) : list (Z * Z) :=
  match nums with
  | [] => pairs
  | num :: nums' =>
      let complement := target - num in
      let pairs :=
        if bool_decide (complement ∈ seen) then
          (* tuple(sorted([num, complement])) *)
          let pair := (Z.min num complement, Z.max num complement) in
          if bool_decide (pair ∈ pairs) then pairs else pairs ++ [pair]
        else pairs in
      two_sum_all_pairs_loop nums' target pairs ({[num]} ∪ seen)
  end.

Definition two_sum_all_pairs (nums : list Z) (target : Z) : list (Z * Z) :=
  two_sum_all_pairs_loop nums target [] ∅.

(** The first loop of [two_sum_with_duplicates]: map each value to the
    list of its indices. *)
Fixpoint build_index_map (nums : list Z) (i : nat)
    (index_map : gmap Z (list nat)) : gmap Z (list nat) :=
  match nums with
  | [] => index_map
  | num :: nums' =>
      let index_map :=
        match index_map !! num with
        | None => <[num := []]> index_map
        | Some _ => index_map
        end in
      let index_map :=
        <[num := default [] (index_map !! num) ++ [i]]> index_map in
      build_index_map nums' (S i) index_map
  end.

(** The second loop; [None] is an IndexError. *)
Fixpoint two_sum_with_duplicates_loop (nums : list Z) (i : nat) (target : Z)
    (index_map : gmap Z (list nat)) : option (list nat) :=
  match nums with
  | [] => Some []
  | num :: nums' =>
      let complement := target - num in
      match index_map !! complement with
      | Some complement_indices =>
          if complement =? num then
            indices ← index_map !! num;
            if (1 <? length indices)%nat then
              first ← indices !! 0%nat;
              second ← indices !! 1%nat;
              Some [first; second]
            else two_sum_with_duplicates_loop nums' (S i) target index_map
          else
            first ← complement_indices !! 0%nat;
            Some [i; first]
      | None => two_sum_with_duplicates_loop nums' (S i) target index_map
      end
  end.

Definition two_sum_with_duplicates (nums : list Z) (target : Z)
    : option (list nat) :=
  let index_map := build_index_map nums 0%nat ∅ in
  two_sum_with_duplicates_loop nums 0%nat target index_map.

End TwoSum.

(** ** binary_search_deep_dive.py *)

Module BinarySearch.

(** [while left <= right: ...] of [safe_binary_search]; [None] is an
    IndexError from [arr[mid]] or the fuel running out. *)
Fixpoint safe_binary_search_loop
    (fuel : nat) (arr : list Z) (target left right : Z) : option Z :=
  match fuel with
  | O => None
  | S fuel' =>
      if left <=? right then
        let mid := left + (right - left) / 2 in
        arr_mid ← Py.getitem arr mid;
        if arr_mid =? target then Some mid
        else if arr_mid <? target
             then safe_binary_search_loop fuel' arr target (mid + 1) right
             else safe_binary_search_loop fuel' arr target left (mid - 1)
      else Some (-1)
  end.

Definition safe_binary_search (arr : list Z) (target : Z) : option Z :=
  match arr with
  | [] => Some (-1)
  | _ =>
      let left := 0 in
      let right := Z.of_nat (length arr) - 1 in
      safe_binary_search_loop (S (length arr)) arr target left right
  end.


(** [while left <= right: ...] of [binary_search_verbose]. *)
Fixpoint binary_search_verbose_loop
    (fuel : nat) (arr : list Z) (target left right : Z) : option Z :=
  match fuel with
  | O => None
  | S fuel' =>
      if left <=? right then
        let mid := (left + right) / 2 in
        mid_val ← Py.getitem arr mid;
        if mid_val =? target then Some mid
        else if mid_val <? target
             then binary_search_verbose_loop fuel' arr target (mid + 1) right
             else binary_search_verbose_loop fuel' arr target left (mid - 1)
      else Some (-1)
  end.

Definition binary_search_verbose (arr : list Z) (target : Z) : option Z :=
  let left := 0 in
  let right := Z.of_nat (length arr) - 1 in
  binary_search_verbose_loop (S (length arr)) arr target left right.

(** [while left <= right: ...] of [find_first_occurrence]. *)
Fixpoint find_first_occurrence_loop
    (fuel : nat) (arr : list Z) (target left right result : Z) : option Z :=
  match fuel with
  | O => None
  | S fuel' =>
      if left <=? right then
        let mid := (left + right) / 2 in
        arr_mid ← Py.getitem arr mid;
        if arr_mid =? target
        then find_first_occurrence_loop fuel' arr target left (mid - 1) mid
        else if arr_mid <? target
             then find_first_occurrence_loop fuel' arr target (mid + 1) right result
             else find_first_occurrence_loop fuel' arr target left (mid - 1) result
      else Some result
  end.

Definition find_first_occurrence (arr : list Z) (target : Z) : option Z :=
  let left := 0 in
  let right := Z.of_nat (length arr) - 1 in
  let result := -1 in
  find_first_occurrence_loop (S (length arr)) arr target left right result.

(** [while left < right: ...] of [find_peak_element]. *)
Fixpoint find_peak_element_loop
    (fuel : nat) (arr : list Z) (left right : Z) : option Z :=
  match fuel with
  | O => None
  | S fuel' =>
      if left <? right then
        let mid := (left + right) / 2 in
        arr_mid ← Py.getitem arr mid;
        arr_next ← Py.getitem arr (mid + 1);
        if arr_next <? arr_mid
        then find_peak_element_loop fuel' arr left mid
        else find_peak_element_loop fuel' arr (mid + 1) right
      else Some left
  end.

Definition find_peak_element (arr : list Z) : option Z :=
  let left := 0 in
  let right := Z.of_nat (length arr) - 1 in
  find_peak_element_loop (S (length arr)) arr left right.

(** [while left <= right: ...] of [search_rotated_array]; the chained
    comparison [arr[mid] < target <= arr[right]] reads [arr[right]] only
    when its first half holds. *)
Fixpoint search_rotated_array_loop
    (fuel : nat) (arr : list Z) (target left right : Z) : option Z :=
  match fuel with
  | O => None
  | S fuel' =>
      if left <=? right then
        let mid := (left + right) / 2 in
        arr_mid ← Py.getitem arr mid;
        if arr_mid =? target then Some mid
        else
          arr_left ← Py.getitem arr left;
          if arr_left <=? arr_mid then
            if (arr_left <=? target) && (target <? arr_mid)
            then search_rotated_array_loop fuel' arr target left (mid - 1)
            else search_rotated_array_loop fuel' arr target (mid + 1) right
          else
            in_right_half ←
              (if arr_mid <? target
               then arr_right ← Py.getitem arr right;
                    Some (target <=? arr_right)
               else Some false);
            if in_right_half : bool
            then search_rotated_array_loop fuel' arr target (mid + 1) right
            else search_rotated_array_loop fuel' arr target left (mid - 1)
      else Some (-1)
  end.

Definition search_rotated_array (arr : list Z) (target : Z) : option Z :=
  let left := 0 in
  let right := Z.of_nat (length arr) - 1 in
  search_rotated_array_loop (S (length arr)) arr target left right.

(** [while high - low > 1: ...] of [find_max_frequency]. *)
Fixpoint find_max_frequency_loop
    (fuel : nat) (stability_test : Z → bool) (low high : Z) : option Z :=
  match fuel with
  | O => None
  | S fuel' =>
      if 1 <? high - low then
        let mid := (low + high) / 2 in
        let stable := stability_test mid in
        if stable
        then find_max_frequency_loop fuel' stability_test mid high
        else find_max_frequency_loop fuel' stability_test low (mid - 1)
      else Some low
  end.

Definition find_max_frequency (freq_range : Z * Z) (stability_test : Z → bool)
    : option Z :=
  let '(low, high) := freq_range in
  let max_freq :=
    find_max_frequency_loop (S (Z.to_nat (high - low))) stability_test low high in
  max_freq.

(** [while low < high and iterations < max_iterations: ...] of
    [find_memory_error]. *)
Fixpoint find_memory_error_loop
    (fuel : nat) (error_test : Z → Z → bool) (max_iterations : Z)
    (low high iterations : Z) : option Z :=
  match fuel with
  | O => None
  | S fuel' =>
      if (low <? high) && (iterations <? max_iterations) then
        let mid := (low + high) / 2 in
        let iterations := iterations + 1 in
        let error_in_lower_half := error_test low mid in
        if error_in_lower_half
        then find_memory_error_loop fuel' error_test max_iterations
               low mid iterations
        else find_memory_error_loop fuel' error_test max_iterations
               (mid + 1) high iterations
      else Some low
  end.

Definition find_memory_error (memory_size : Z) (error_test : Z → Z → bool)
    : option Z :=
  let low := 0 in
  let high := memory_size - 1 in
  let iterations := 0 in
  let max_iterations := 20 in
  find_memory_error_loop 21 error_test max_iterations low high iterations.

End BinarySearch.

(** ** nvda-latency-min-max-avg-window-size-k.py

    The script is written for any type of numbers that has the operations
    it applies to a latency; [Number] lists them.  Python's [float] is one
    such type ([float_number], IEEE 754 binary64 with its rounding), the
    exact rationals are another ([Qc_number]). *)

Module SlidingWindow.

(** What the script does with numbers. *)
Class Number (num : Type) : Type := {
  num_zero : num;                         (* [0.0], and the [0] of [sum] *)
  num_add : num → num → num;              (* [a + b] *)
  num_sub : num → num → num;              (* [a - b] *)
  num_truediv : num → Z → option num;     (* [a / k] for an [int] [k] *)
  num_le : num → num → bool;              (* [a <= b], and [b >= a] *)
  num_lt : num → num → bool               (* [a < b], and [b > a] *)
}.

(** [float(k)]: the double nearest to [k] (ties to even); OverflowError
    when [k] lies beyond the largest double. *)
Definition float_of_int (k : Z) : option float :=
  let x := FloatOps.SF2Prim
             (SpecFloat.binary_normalize FloatOps.prec FloatOps.emax k 0 false) in
  if PrimFloat.is_infinity x then None else Some x.

(** Python's [float]: every operation rounds. *)
#[global] Instance float_number : Number float := {|
  num_zero := 0%float;
  num_add := PrimFloat.add;
  num_sub := PrimFloat.sub;
  num_truediv a k :=
    if k =? 0 then None                   (* ZeroDivisionError *)
    else k ← float_of_int k; Some (PrimFloat.div a k);
  num_le := PrimFloat.leb;
  num_lt := PrimFloat.ltb
|}.

(** Exact rationals in lowest terms. *)
#[global] Instance Qc_number : Number Qc := {|
  num_zero := 0%Qc;
  num_add := Qcplus;
  num_sub := Qcminus;
  num_truediv a k :=
    if k =? 0 then None                   (* ZeroDivisionError *)
    else Some (a / Q2Qc (inject_Z k))%Qc;
  num_le a b := bool_decide (a ≤ b)%Qc;
  num_lt a b := bool_decide (a < b)%Qc
|}.

Section Functions.
Context {num : Type} `{Number num}.

Definition stats : Type := num * num * num.

(** [while dq and test(latencies[dq[-1]]): dq.pop()] *)
Fixpoint pop_while (fuel : nat) (test : num → bool)
    (latencies : list num) (dq : list Z) : option (list Z) :=
  match fuel with
  | O => None
  | S fuel' =>
      match list.last dq with
      | None => Some dq
      | Some back =>
          x ← Py.getitem latencies back;
          if test x then pop_while fuel' test latencies (removelast dq)
          else Some dq
      end
  end.

(** [if dq[0] <= i - k: dq.popleft()] *)
Definition expire (dq : list Z) (i k : Z) : option (list Z) :=
  front ← head dq;
  Some (if front <=? i - k then tail dq else dq).

Record loop_state : Type := LoopState {
  min_deque : list Z;
  max_deque : list Z;
  window_sum : num;
  results : list stats
}.

(** One iteration of [for i in range(len(latencies))]. *)
Definition stats_body (latencies : list num) (k : Z) (st : loop_state)
    (i : Z) : option loop_state :=
  current ← Py.getitem latencies i;
  let window_sum := num_add (window_sum st) current in
  min_deque ← pop_while (S (length (min_deque st)))
                (λ back, num_le current back) latencies (min_deque st);
  let min_deque := min_deque ++ [i] in
  max_deque ← pop_while (S (length (max_deque st)))
                (λ back, num_le back current) latencies (max_deque st);
  let max_deque := max_deque ++ [i] in
  min_deque ← expire min_deque i k;
  max_deque ← expire max_deque i k;
  if k - 1 <=? i then
    window_sum ← (if k <=? i
                  then leaving ← Py.getitem latencies (i - k);
                       Some (num_sub window_sum leaving)
                  else Some window_sum);
    min_front ← head min_deque;
    window_min ← Py.getitem latencies min_front;
    max_front ← head max_deque;
    window_max ← Py.getitem latencies max_front;
    window_avg ← num_truediv window_sum k;
    Some (LoopState min_deque max_deque window_sum
            (results st ++ [(window_min, window_avg, window_max)]))
  else
    Some (LoopState min_deque max_deque window_sum (results st)).

Fixpoint stats_loop (latencies : list num) (k : Z) (range : list Z)
    (st : loop_state) : option loop_state :=
  match range with
  | [] => Some st
  | i :: range' =>
      st' ← stats_body latencies k st i;
      stats_loop latencies k range' st'
  end.

Definition sliding_window_stats (latencies : list num) (k : Z)
    : option (list stats) :=
  let len := Z.of_nat (length latencies) in
  if bool_decide (latencies = []) || (k <=? 0) || (len <? k) then Some []
  else
    st ← stats_loop latencies k (seqZ 0 len) (LoopState [] [] num_zero []);
    Some (results st).

(** [min(window)]: ValueError on an empty window, otherwise the first
    smallest item. *)
Definition py_min (window : list num) : option num :=
  match window with
  | [] => None
  | x :: window' =>
      Some (fold_left (λ m y, if num_lt y m then y else m) window' x)
  end.

(** [max(window)]: ValueError on an empty window, otherwise the first
    largest item. *)
Definition py_max (window : list num) : option num :=
  match window with
  | [] => None
  | x :: window' =>
      Some (fold_left (λ m y, if num_lt m y then y else m) window' x)
  end.

(** [sum(window)]: the items added one by one to [0], from the left
    (CPython up to 3.11; later versions carry a correction term when
    the items are floats). *)
Definition py_sum (window : list num) : num :=
  fold_left num_add window num_zero.

(** One iteration of [for i in range(len(latencies) - k + 1)]. *)
Definition simple_body (latencies : list num) (k : Z)
    (results : list stats) (i : Z) : option (list stats) :=
  let window := Py.slice latencies i (i + k) in
  window_min ← py_min window;
  window_max ← py_max window;
  window_avg ← num_truediv (py_sum window) k;
  Some (results ++ [(window_min, window_avg, window_max)]).

Fixpoint simple_loop (latencies : list num) (k : Z) (range : list Z)
    (results : list stats) : option (list stats) :=
  match range with
  | [] => Some results
  | i :: range' =>
      results' ← simple_body latencies k results i;
      simple_loop latencies k range' results'
  end.

Definition sliding_window_stats_simple (latencies : list num) (k : Z)
    : option (list stats) :=
  let len := Z.of_nat (length latencies) in
  if bool_decide (latencies = []) || (k <=? 0) || (len <? k) then Some []
  else simple_loop latencies k (seqZ 0 (len - k + 1)) [].

End Functions.

Arguments stats num : clear implicits.
Arguments loop_state num : clear implicits.

End SlidingWindow.

(** ** nvda-parse-log-print-line-before-after-target.py

    A file is the list of its raw lines, in order; [None] is a file that
    cannot be opened. *)

Module LogGrep.

Definition triple : Type := option string * string * option string.

Definition is_newline (c : ascii) : bool :=
  (Ascii.eqb c "010" || Ascii.eqb c "013")%char.

(** [line.rstrip('\n\r')] *)
Fixpoint rstrip (line : string) : string :=
  match line with
  | EmptyString => EmptyString
  | String c line' =>
      match rstrip line' with
      | EmptyString => if is_newline c then EmptyString else String c EmptyString
      | stripped => String c stripped
      end
  end.

(** [pattern in line] *)
Fixpoint contains (pattern line : string) : bool :=
  String.prefix pattern line ||
  match line with
  | EmptyString => false
  | String _ line' => contains pattern line'
  end.

(** One iteration of [for i, line in enumerate(lines)] of
    [grep_with_context]. *)
Definition grep_body (lines : list string) (pattern : string)
    (results : list triple) (i : Z) (line : string) : option (list triple) :=
  if contains pattern line then
    prev_line ← (if 0 <? i then Some <$> Py.getitem lines (i - 1)
                 else Some None);
    let match_line := line in
    next_line ← (if i <? Z.of_nat (length lines) - 1
                 then Some <$> Py.getitem lines (i + 1)
                 else Some None);
    Some (results ++ [(prev_line, match_line, next_line)])
  else Some results.

(** The loop itself; [rest] is what is left of [lines] from index [i]
    on. *)
Fixpoint grep_loop (lines : list string) (pattern : string)
    (i : Z) (rest : list string) (results : list triple) : option (list triple) :=
  match rest with
  | [] => Some results
  | line :: rest' =>
      results ← grep_body lines pattern results i line;
      grep_loop lines pattern (i + 1) rest' results
  end.

Definition grep_with_context (file : option (list string)) (pattern : string)
    : list triple :=
  let results := [] in
  match file with
  | None => []                                  (* FileNotFoundError *)
  | Some raw_lines =>
      let lines := rstrip <$> raw_lines in
      match grep_loop lines pattern 0 lines results with
      | Some results => results
      | None => []                              (* except Exception *)
      end
  end.

(** [window.append(line)] on a [deque(maxlen=3)]: a full deque drops its
    leftmost item. *)
Definition window_append (window : list string) (line : string) : list string :=
  let window := window ++ [line] in
  if (3 <? length window)%nat then tail window else window.

(** [for _ in range(2)]: take up to [n] lines off the file iterator [f];
    StopIteration breaks out of the loop. *)
Fixpoint init_window (n : nat) (f : list string) (window : list string)
    : list string * list string :=
  match n with
  | O => (f, window)
  | S n' =>
      match f with
      | [] => (f, window)
      | raw :: f' => init_window n' f' (window_append window (rstrip raw))
      end
  end.

(** One iteration of [for line in f] of [grep_with_context_streaming]. *)
Definition streaming_body (pattern : string) (window : list string)
    (results : list triple) (raw : string)
    : option (list string * list triple) :=
  let line := rstrip raw in
  let window := window_append window line in
  if (2 <=? length window)%nat then
    middle ← Py.getitem window (-2);
    if contains pattern middle then
      prev_line ← (if (length window =? 3)%nat
                   then Some <$> Py.getitem window 0
                   else Some None);
      match_line ← Py.getitem window (-2);
      next_line ← Py.getitem window (-1);
      Some (window, results ++ [(prev_line, match_line, Some next_line)])
    else Some (window, results)
  else Some (window, results).

Fixpoint streaming_loop (pattern : string) (f : list string)
    (window : list string) (results : list triple)
    : option (list string * list triple) :=
  match f with
  | [] => Some (window, results)
  | raw :: f' =>
      '(window, results) ← streaming_body pattern window results raw;
      streaming_loop pattern f' window results
  end.

(** The final [# Check last line] block. *)
Definition check_last_line (pattern : string) (window : list string)
    (results : list triple) : option (list triple) :=
  if (1 <=? length window)%nat then
    last_line ← Py.getitem window (-1);
    if contains pattern last_line then
      prev_line ← (if (2 <=? length window)%nat
                   then Some <$> Py.getitem window (-2)
                   else Some None);
      match_line ← Py.getitem window (-1);
      let next_line : option string := None in
      Some (results ++ [(prev_line, match_line, next_line)])
    else Some results
  else Some results.

Definition grep_with_context_streaming (file : option (list string))
    (pattern : string) : list triple :=
  let results := [] in
  let window := [] in
  match file with
  | None => []                                  (* FileNotFoundError *)
  | Some f =>
      let '(f, window) := init_window 2 f window in
      match '(window, results) ← streaming_loop pattern f window results;
            check_last_line pattern window results with
      | Some results => results
      | None => []                              (* except Exception *)
      end
  end.

End LogGrep.

(** ** parse-ltssm-logfile.py

    The CSV reader is outside the embedding: a trace is the list of its
    rows after [float(...)] and [.strip()], in file order; [None] is a file
    on which reading or conversion raised.  Timestamps are exact
    rationals. *)

Module LTSSM.

Record LTSSMEvent : Type := Event {
  timestamp : Qc;
  state : string;
  data : string
}.

Record LTSSMAnalysis : Type := Analysis {
  first_l0_time : option Qc;
  retrain_count : Z;
  longest_recovery_dwell : Qc;
  total_time : Qc;
  state_dwells : gmap string Qc;
  speed_changes : list (Qc * string * string)
}.

(** [max(a, b)] of two numbers: the first of the largest. *)
Definition py_max2 (a b : Qc) : Qc :=
  if bool_decide (a < b)%Qc then b else a.

(** The local variables the main loop updates. *)
Record locals : Type := Locals {
  l_first_l0_time : option Qc;
  l_retrain_count : Z;
  l_longest_recovery_dwell : Qc;
  l_current_recovery_start : option Qc;
  l_state_dwells : gmap string Qc;
  l_speed_changes : list (Qc * string * string);
  l_prev_event : LTSSMEvent;
  l_current_speed : string
}.

(** One iteration of [for i, event in enumerate(events[1:], 1)]. *)
Definition trace_body (l : locals) (event : LTSSMEvent) : locals :=
  let prev_event := l_prev_event l in
  let dwell_time := (timestamp event - timestamp prev_event)%Qc in
  let state_dwells :=
    match l_state_dwells l !! state prev_event with
    | None => <[state prev_event := 0%Qc]> (l_state_dwells l)
    | Some _ => l_state_dwells l
    end in
  let state_dwells :=
    <[state prev_event :=
        (default 0%Qc (state_dwells !! state prev_event) + dwell_time)%Qc]>
      state_dwells in
  let first_l0_time :=
    if String.eqb (state event) "L0" && bool_decide (l_first_l0_time l = None)
    then Some (timestamp event) else l_first_l0_time l in
  let retrain_count :=
    if String.eqb (state prev_event) "Recovery" &&
       (String.eqb (state event) "Config" || String.eqb (state event) "Polling")
    then l_retrain_count l + 1 else l_retrain_count l in
  let '(longest_recovery_dwell, current_recovery_start) :=
    if String.eqb (state prev_event) "Recovery" then
      match l_current_recovery_start l with
      | None => (l_longest_recovery_dwell l, Some (timestamp prev_event))
      | Some _ => (l_longest_recovery_dwell l, l_current_recovery_start l)
      end
    else
      match l_current_recovery_start l with
      | Some start =>
          let recovery_dwell := (timestamp prev_event - start)%Qc in
          (py_max2 (l_longest_recovery_dwell l) recovery_dwell, None)
      | None => (l_longest_recovery_dwell l, None)
      end in
  let '(speed_changes, current_speed) :=
    if negb (String.eqb (data event) "") && LogGrep.contains "Gen" (data event)
    then
      let new_speed := data event in
      if negb (String.eqb new_speed (l_current_speed l))
      then (l_speed_changes l ++ [(timestamp event, l_current_speed l, new_speed)],
            new_speed)
      else (l_speed_changes l, l_current_speed l)
    else (l_speed_changes l, l_current_speed l) in
  Locals first_l0_time retrain_count longest_recovery_dwell
         current_recovery_start state_dwells speed_changes event current_speed.

Definition parse_ltssm_trace (csv_file : option (list LTSSMEvent))
    : LTSSMAnalysis :=
  match csv_file with
  | None => Analysis None 0 0%Qc 0%Qc ∅ []      (* except Exception *)
  | Some events =>
      match events with
      | [] => Analysis None 0 0%Qc 0%Qc ∅ []
      | first :: rest =>
          let l := fold_left trace_body rest
                     (Locals None 0 0%Qc None ∅ [] first "Gen1") in
          let last_event := default first (list.last events) in
          let longest_recovery_dwell :=
            match l_current_recovery_start l with
            | Some start =>
                let recovery_dwell := (timestamp last_event - start)%Qc in
                py_max2 (l_longest_recovery_dwell l) recovery_dwell
            | None => l_longest_recovery_dwell l
            end in
          let total_time := (timestamp last_event - timestamp first)%Qc in
          Analysis (l_first_l0_time l) (l_retrain_count l)
                   longest_recovery_dwell total_time
                   (l_state_dwells l) (l_speed_changes l)
      end
  end.

End LTSSM.

(** ** register_simulator_deep_dive.py *)

Module RegisterSimulator.

(** The [position] argument of a history entry: a bit position, or the
    text [start:end] of a field. *)
Inductive log_position : Type :=
| Bit (position : Z)
| Field (start_bit end_bit : Z).

Record log_entry : Type := LogEntry {
  operation : string;
  position : log_position;
  old_value : Z;
  new_value : Z
}.

Record AdvancedRegisterSimulator : Type := Register {
  width : Z;
  name : string;
  value : Z;
  max_value : Z;
  history : list log_entry;
  breakpoints : gset Z
}.

Definition set_value (self : AdvancedRegisterSimulator) (v : Z)
    : AdvancedRegisterSimulator :=
  Register (width self) (name self) v (max_value self)
           (history self) (breakpoints self).

(** [__init__(self, width=32, name="REG")] *)
Definition init (width : Z) (name : string) : option AdvancedRegisterSimulator :=
  one ← Py.shiftl 1 width;
  Some (Register width name 0 (one - 1) [] ∅).

Definition _validate_position (self : AdvancedRegisterSimulator) (position : Z)
    : bool :=
  if negb ((0 <=? position) && (position <? width self)) then false else true.

Definition _log_operation (self : AdvancedRegisterSimulator)
    (operation : string) (position : log_position) (old_value new_value : Z)
    : AdvancedRegisterSimulator :=
  Register (width self) (name self) (value self) (max_value self)
           (history self ++ [LogEntry operation position old_value new_value])
           (breakpoints self).

Definition set_bit (self : AdvancedRegisterSimulator) (position : Z)
    : option (AdvancedRegisterSimulator * bool) :=
  if negb (_validate_position self position) then Some (self, false)
  else
    let old_value := value self in
    bit ← Py.shiftl 1 position;
    let self := set_value self (Z.lor (value self) bit) in
    let self := _log_operation self "SET" (Bit position) old_value (value self) in
    Some (self, true).

Definition clear_bit (self : AdvancedRegisterSimulator) (position : Z)
    : option (AdvancedRegisterSimulator * bool) :=
  if negb (_validate_position self position) then Some (self, false)
  else
    let old_value := value self in
    bit ← Py.shiftl 1 position;
    let self := set_value self (Z.land (value self) (Z.lnot bit)) in
    let self := _log_operation self "CLEAR" (Bit position) old_value (value self) in
    Some (self, true).

Definition toggle_bit (self : AdvancedRegisterSimulator) (position : Z)
    : option (AdvancedRegisterSimulator * bool) :=
  if negb (_validate_position self position) then Some (self, false)
  else
    let old_value := value self in
    bit ← Py.shiftl 1 position;
    let self := set_value self (Z.lxor (value self) bit) in
    let self := _log_operation self "TOGGLE" (Bit position) old_value (value self) in
    Some (self, true).

(** Returns Python's [None] (the inner [None]) when the field does not
    fit. *)
Definition extract_field (self : AdvancedRegisterSimulator)
    (start_bit width_ : Z) : option (option Z) :=
  if width self <? start_bit + width_ then Some None
  else
    one ← Py.shiftl 1 width_;
    let mask := one - 1 in
    shifted ← Py.shiftr (value self) start_bit;
    Some (Some (Z.land shifted mask)).

Definition insert_field (self : AdvancedRegisterSimulator)
    (start_bit width_ value_ : Z) : option (AdvancedRegisterSimulator * bool) :=
  if width self <? start_bit + width_ then Some (self, false)
  else
    limit ← Py.shiftl 1 width_;
    if limit <=? value_ then Some (self, false)
    else
      let old_value := value self in
      one ← Py.shiftl 1 width_;
      mask ← Py.shiftl (one - 1) start_bit;
      shifted ← Py.shiftl value_ start_bit;
      let self := set_value self (Z.lor (Z.land (value self) (Z.lnot mask)) shifted) in
      let self := _log_operation self "INSERT_FIELD"
                    (Field start_bit (start_bit + width_ - 1))
                    old_value (value self) in
      Some (self, true).

Definition rotate_left (self : AdvancedRegisterSimulator) (count : Z)
    : option AdvancedRegisterSimulator :=
  count ← Py.mod_ count (width self);
  let old_value := value self in
  hi ← Py.shiftl (value self) count;
  lo ← Py.shiftr (value self) (width self - count);
  let self := set_value self (Z.land (Z.lor hi lo) (max_value self)) in
  Some (_log_operation self "ROTATE_LEFT" (Bit count) old_value (value self)).

Definition rotate_right (self : AdvancedRegisterSimulator) (count : Z)
    : option AdvancedRegisterSimulator :=
  count ← Py.mod_ count (width self);
  let old_value := value self in
  lo ← Py.shiftr (value self) count;
  hi ← Py.shiftl (value self) (width self - count);
  let self := set_value self (Z.land (Z.lor lo hi) (max_value self)) in
  Some (_log_operation self "ROTATE_RIGHT" (Bit count) old_value (value self)).


Definition test_bit (self : AdvancedRegisterSimulator) (position : Z)
    : option bool :=
  if negb (_validate_position self position) then Some false
  else
    bit ← Py.shiftl 1 position;
    Some (negb (Z.land (value self) bit =? 0)).

(** [while temp: count += 1; temp &= (temp - 1)] *)
Fixpoint count_set_bits_loop (fuel : nat) (count temp : Z) : option Z :=
  match fuel with
  | O => None
  | S fuel' =>
      if negb (temp =? 0)
      then count_set_bits_loop fuel' (count + 1) (Z.land temp (temp - 1))
      else Some count
  end.

Definition count_set_bits (self : AdvancedRegisterSimulator) : option Z :=
  let count := 0 in
  let temp := value self in
  count_set_bits_loop (S (Z.to_nat (Z.log2 temp + 1))) count temp.

(** [while (temp & 1) == 0: temp >>= 1; position += 1] *)
Fixpoint find_first_set_loop (fuel : nat) (position temp : Z) : option Z :=
  match fuel with
  | O => None
  | S fuel' =>
      if Z.land temp 1 =? 0
      then find_first_set_loop fuel' (position + 1) (Z.shiftr temp 1)
      else Some position
  end.

Definition find_first_set (self : AdvancedRegisterSimulator) : option Z :=
  if value self =? 0 then Some (-1)
  else
    let position := 0 in
    let temp := value self in
    find_first_set_loop (S (Z.to_nat (Z.log2 (Z.abs temp) + 1))) position temp.

(** [int.bit_length()]: the number of bits of the absolute value. *)
Definition bit_length (x : Z) : Z :=
  if x =? 0 then 0 else Z.log2 (Z.abs x) + 1.

Definition find_last_set (self : AdvancedRegisterSimulator) : Z :=
  if value self =? 0 then -1
  else bit_length (value self) - 1.

End RegisterSimulator.

(** *** The register classes of [advanced_register_concepts] *)

Module MemoryMappedRegister.

Record MemoryMappedRegister : Type := Register {
  base_address : Z;
  size : Z;
  value : Z
}.

(** [__init__(self, base_address, size=32)] *)
Definition init (base_address size : Z) : MemoryMappedRegister :=
  Register base_address size 0.

Definition write (self : MemoryMappedRegister) (address value_ : Z)
    : option MemoryMappedRegister :=
  if address =? base_address self then
    one ← Py.shiftl 1 (size self);
    Some (Register (base_address self) (size self) (Z.land value_ (one - 1)))
  else Some self.

Definition read (self : MemoryMappedRegister) (address : Z) : Z :=
  if address =? base_address self then value self else 0.

End MemoryMappedRegister.

Module RegisterBank.

Record RegisterBank : Type := Bank {
  num_banks : Z;
  reg_per_bank : Z;
  banks : list (list Z);
  active_bank : Z
}.

(** [__init__(self, num_banks=4, reg_per_bank=32)]; [[0] * n] and
    [range(n)] are empty for a negative [n]. *)
Definition init (num_banks reg_per_bank : Z) : RegisterBank :=
  Bank num_banks reg_per_bank
       (replicate (Z.to_nat num_banks) (replicate (Z.to_nat reg_per_bank) 0))
       0.

Definition switch_bank (self : RegisterBank) (bank_id : Z) : RegisterBank :=
  if (0 <=? bank_id) && (bank_id <? num_banks self)
  then Bank (num_banks self) (reg_per_bank self) (banks self) bank_id
  else self.

(** [self.banks[self.active_bank][reg_id] = value]; [None] is an
    IndexError. *)
Definition write_register (self : RegisterBank) (reg_id value : Z)
    : option RegisterBank :=
  if (0 <=? reg_id) && (reg_id <? reg_per_bank self) then
    bank ← Py.getitem (banks self) (active_bank self);
    _ ← Py.getitem bank reg_id;
    let bank := <[Z.to_nat reg_id := value]> bank in
    let index := if 0 <=? active_bank self then Z.to_nat (active_bank self)
                 else Z.to_nat (Z.of_nat (length (banks self)) + active_bank self) in
    Some (Bank (num_banks self) (reg_per_bank self)
               (<[index := bank]> (banks self)) (active_bank self))
  else Some self.

Definition read_register (self : RegisterBank) (reg_id : Z) : option Z :=
  if (0 <=? reg_id) && (reg_id <? reg_per_bank self) then
    bank ← Py.getitem (banks self) (active_bank self);
    Py.getitem bank reg_id
  else Some 0.

End RegisterBank.

Module ShadowRegister.

Record ShadowRegister : Type := Register {
  width : Z;
  main_value : Z;
  shadow_value : Z;
  update_pending : bool
}.

(** [__init__(self, width=32)] *)
Definition init (width : Z) : ShadowRegister := Register width 0 0 false.

Definition write_shadow (self : ShadowRegister) (value : Z)
    : option ShadowRegister :=
  one ← Py.shiftl 1 (width self);
  Some (Register (width self) (main_value self) (Z.land value (one - 1)) true).

Definition commit_shadow (self : ShadowRegister) : ShadowRegister :=
  if update_pending self
  then Register (width self) (shadow_value self) (shadow_value self) false
  else self.

Definition read_main (self : ShadowRegister) : Z := main_value self.

End ShadowRegister.

(** ** reverse-list.py

    The script is a docstring followed by a module-level loop.  Module-level
    names live in the global namespace, a dict from names to values; reading
    a name that is not bound (and is no builtin) raises NameError. *)

Module ReverseListScript.

Inductive outcome (A : Type) : Type :=
| Done (a : A)
| NameError (name : string).
Arguments Done {A} a.
Arguments NameError {A} name.

Definition load_name (globals : gmap string Z) (name : string) : outcome Z :=
  match globals !! name with
  | Some v => Done v
  | None => NameError name
  end.

Definition bind {A B} (m : outcome A) (f : A → outcome B) : outcome B :=
  match m with
  | Done a => f a
  | NameError name => NameError name
  end.

(** One iteration of the module-level [for i in range(32)]. *)
Definition loop_body (globals : gmap string Z) (i : Z) : outcome (gmap string Z) :=
  let globals := <["i" := i]> globals in
  (* bit = n & 1 *)
  bind (load_name globals "n") (λ n,
  let globals := <["bit" := Z.land n 1]> globals in
  (* result = (result << 1) | bit *)
  bind (load_name globals "result") (λ result,
  bind (load_name globals "bit") (λ bit,
  let globals := <["result" := Z.lor (Z.shiftl result 1) bit]> globals in
  (* n >>= 1 *)
  bind (load_name globals "n") (λ n,
  let globals := <["n" := Z.shiftr n 1]> globals in
  Done globals)))).

Fixpoint module_loop (range : list Z) (globals : gmap string Z)
    : outcome (gmap string Z) :=
  match range with
  | [] => Done globals
  | i :: range' => bind (loop_body globals i) (module_loop range')
  end.

(** Running the file as a program: the namespace starts without any of
    the script's variables. *)
Definition run_script : outcome (gmap string Z) :=
  module_loop (seqZ 0 32) ∅.

End ReverseListScript.

(* ===================================================================== *)
(** * Specification vocabulary                                            *)
(* ===================================================================== *)

(** The predicates and the concrete inputs the properties of Part II are
    stated with. *)

(** ** Powers of two *)

(** [n] is [2^k] for some [k >= 0]. *)
Definition power_of_two (n : Z) : Prop := ∃ k, 0 ≤ k ∧ n = 2 ^ k.

(** ** Two-sum *)

(** Indices [a < b] of [nums] whose items sum to [target]. *)
Definition sums_to (nums : list Z) (target : Z) (a b : nat) : Prop :=
  (a < b)%nat ∧
  ∃ x y, nums !! a = Some x ∧ nums !! b = Some y ∧ x + y = target.

(** What the dict holds after the items of [seen] have been stored: every
    entry points back at an item with that value, and every value seen has
    an entry. *)
Definition map_of_seen (seen : list Z) (num_map : gmap Z nat) : Prop :=
  (∀ v j, num_map !! v = Some j → seen !! j = Some v) ∧
  (∀ j v, seen !! j = Some v → is_Some (num_map !! v)).

(** What the loop of [two_sum_all_pairs] has built after the items of
    [done_]: the set of the values met, and the list of the value pairs
    found among them. *)
Record all_pairs_inv (target : Z) (done_ : list Z) (pairs : list (Z * Z))
    (seen : gset Z) : Prop := AllPairsInv {
  inv_seen : ∀ v, v ∈ seen ↔ v ∈ done_;
  inv_nodup : NoDup pairs;
  inv_found : ∀ a b, (a, b) ∈ pairs →
                a ≤ b ∧ a + b = target ∧
                ∃ i j, i ≠ j ∧ done_ !! i = Some a ∧ done_ !! j = Some b;
  inv_all : ∀ i j x y, (i < j)%nat → done_ !! i = Some x →
              done_ !! j = Some y → x + y = target →
              (Z.min x y, Z.max x y) ∈ pairs
}.

(** The indices of [nums], counted from [i], that hold the value [v], in
    increasing order. *)
Fixpoint occurrences_from (v : Z) (i : nat) (nums : list Z) : list nat :=
  match nums with
  | [] => []
  | x :: nums' =>
      (if bool_decide (x = v) then [i] else []) ++ occurrences_from v (S i) nums'
  end.

(** The dict that the first loop of [two_sum_with_duplicates] builds from
    the items [done_]: each value that occurs is mapped to the list of its
    indices, the others have no entry. *)
Definition index_map_of (done_ : list Z) (index_map : gmap Z (list nat)) : Prop :=
  ∀ v, index_map !! v = match occurrences_from v 0 done_ with
                        | [] => None
                        | indices => Some indices
                        end.

(** ** Binary search *)

(** A list in strictly increasing order that has been rotated: its first
    [r] items moved to the end. *)
Definition rotated_sorted (arr : list Z) : Prop :=
  ∃ (sorted : list Z) (r : nat),
    StronglySorted Z.lt sorted ∧ arr = drop r sorted ++ take r sorted.

(** ** Sliding-window statistics *)

(** Exact arithmetic: adding is associative and commutative with [0] as
    its unit, subtracting undoes adding, and the comparisons are those of
    a total order (two numbers that compare equal are the same number).
    Division by an integer other than 0 is defined, and needs no other
    law.  The rationals have these properties.
    Python's floats round, so that their sums are not associative and a
    subtraction need not undo an addition, and their comparisons are not a
    total order ([nan], and [0.0 == -0.0]). *)
Class Exact (num : Type) `{SlidingWindow.Number num} : Prop := {
  num_add_assoc : ∀ a b c : num,
    SlidingWindow.num_add a (SlidingWindow.num_add b c)
    = SlidingWindow.num_add (SlidingWindow.num_add a b) c;
  num_add_comm : ∀ a b : num,
    SlidingWindow.num_add a b = SlidingWindow.num_add b a;
  num_add_zero : ∀ a : num,
    SlidingWindow.num_add SlidingWindow.num_zero a = a;
  num_sub_add : ∀ a b : num,
    SlidingWindow.num_sub (SlidingWindow.num_add a b) b = a;
  num_le_total : ∀ a b : num,
    SlidingWindow.num_le a b = true ∨ SlidingWindow.num_le b a = true;
  num_le_trans : ∀ a b c : num,
    SlidingWindow.num_le a b = true → SlidingWindow.num_le b c = true →
    SlidingWindow.num_le a c = true;
  num_le_antisym : ∀ a b : num,
    SlidingWindow.num_le a b = true → SlidingWindow.num_le b a = true → a = b;
  num_lt_not_le : ∀ a b : num,
    SlidingWindow.num_lt a b = negb (SlidingWindow.num_le b a);
  num_truediv_defined : ∀ (a : num) (k : Z),
    k ≠ 0 → is_Some (SlidingWindow.num_truediv a k)
}.

(** The latencies [[0.1, 0.2, 0.3]]: as in Python, each literal stands for
    the double nearest to it. *)
Definition float_latencies : list float := [0.1; 0.2; 0.3]%float.

(** The latencies [[3, 1, 2]] as rationals. *)
Definition rational_latencies : list Qc :=
  [Q2Qc (inject_Z 3); 1%Qc; Q2Qc (inject_Z 2)].

(** [latencies[d]] for an index known to be in range. *)
Definition val {num : Type} `{SlidingWindow.Number num}
    (latencies : list num) (d : Z) : num :=
  default SlidingWindow.num_zero (latencies !! Z.to_nat d).

Definition in_range {num : Type} (latencies : list num) (d : Z) : Prop :=
  0 ≤ d < Z.of_nat (length latencies).

(** Both deques are instances of one scheme: [R] is the order in which the
    front of the deque is extremal ([<=] for the minimum, [>=] for the
    maximum).  Index [a] comes strictly before index [b]. *)
Definition before {num : Type} `{SlidingWindow.Number num}
    (latencies : list num) (R : num → num → Prop) (a b : Z) : Prop :=
  a < b ∧ ¬ R (val latencies b) (val latencies a).

(** The deque after the iteration for index [i], for the window [[s, i]]:
    its indices lie in the window, they increase strictly in position and
    in value, and every index of the window is dominated by a later or
    equal index of the deque. *)
Record deque_inv {num : Type} `{SlidingWindow.Number num}
    (latencies : list num) (R : num → num → Prop)
    (s i : Z) (dq : list Z) : Prop := DequeInv {
  inv_window : Forall (λ d, s ≤ d ≤ i) dq;
  inv_sorted : StronglySorted (before latencies R) dq;
  inv_cover : ∀ j, s ≤ j ≤ i →
                ∃ d, d ∈ dq ∧ j ≤ d ∧ R (val latencies d) (val latencies j)
}.

(** [x <= y] and [x >= y] as propositions. *)
Definition le_num {num : Type} `{SlidingWindow.Number num} (x y : num) : Prop :=
  SlidingWindow.num_le x y = true.

Definition ge_num {num : Type} `{SlidingWindow.Number num} (x y : num) : Prop :=
  SlidingWindow.num_le y x = true.

(** The state after [m] iterations of the main loop: both deques describe
    the window that ends at [m - 1], the running sum is the sum of that
    window, and the results are those of the naive loop for the windows
    completed so far. *)
Record loop_inv {num : Type} `{SlidingWindow.Number num}
    (latencies : list num) (k : Z)
    (m : Z) (st : SlidingWindow.loop_state num) : Prop := LoopInv {
  inv_min : deque_inv latencies le_num (Z.max 0 (m - k)) (m - 1)
              (SlidingWindow.min_deque st);
  inv_max : deque_inv latencies ge_num (Z.max 0 (m - k)) (m - 1)
              (SlidingWindow.max_deque st);
  inv_sum : SlidingWindow.window_sum st
            = SlidingWindow.py_sum (Py.slice latencies (Z.max 0 (m - k)) m);
  inv_results :
    SlidingWindow.simple_loop latencies k (seqZ 0 (Z.max 0 (m - k + 1))) []
    = Some (SlidingWindow.results st)
}.

(** ** LTSSM traces *)

(** The timestamp of the earliest event of a trace in state [L0]. *)
Definition earliest_l0 (events : list LTSSM.LTSSMEvent) : option Qc :=
  LTSSM.timestamp <$>
    find (λ event, String.eqb (LTSSM.state event) "L0") events.

(** The trace [0.0,L0,] / [1.0,Recovery,]. *)
Definition trace_l0_first : list LTSSM.LTSSMEvent :=
  [LTSSM.Event 0%Qc "L0" ""; LTSSM.Event 1%Qc "Recovery" ""].

(** The pairs of consecutive rows of a trace. *)
Definition transitions (events : list LTSSM.LTSSMEvent)
    : list (LTSSM.LTSSMEvent * LTSSM.LTSSMEvent) :=
  zip events (tail events).

(** A transition that counts as a retrain: out of [Recovery] into [Config]
    or [Polling]. *)
Definition is_retrain (pair : LTSSM.LTSSMEvent * LTSSM.LTSSMEvent) : bool :=
  String.eqb (LTSSM.state pair.1) "Recovery" &&
  (String.eqb (LTSSM.state pair.2) "Config" ||
   String.eqb (LTSSM.state pair.2) "Polling").

(** A log of speed changes that starts at the speed [current]: the old
    speed of every entry is the speed in force before it, and its new speed
    is a different one. *)
Fixpoint speed_chain (current : string) (changes : list (Qc * string * string))
    : Prop :=
  match changes with
  | [] => True
  | (_, old_speed, new_speed) :: changes' =>
      old_speed = current ∧ new_speed ≠ old_speed ∧
      speed_chain new_speed changes'
  end.

(** The speed in force after a log of changes. *)
Definition final_speed (current : string) (changes : list (Qc * string * string))
    : string :=
  match list.last changes with
  | Some (_, _, new_speed) => new_speed
  | None => current
  end.

(** ** Log files *)

Definition newline : string := String "010"%char "".

(** The file with the two lines [ERROR boot] and [ok]. *)
Definition log_error_first : list string :=
  ["ERROR boot" +:+ newline; "ok" +:+ newline].

(** The matches among [rest], a run of consecutive lines that comes after
    the line [prev] (if any), each with the line before and after it. *)
Fixpoint matches (pattern : string) (prev : option string) (rest : list string)
    : list LogGrep.triple :=
  match rest with
  | [] => []
  | line :: rest' =>
      (if LogGrep.contains pattern line then [(prev, line, head rest')] else [])
      ++ matches pattern (Some line) rest'
  end.

(** ** Registers *)

(** The state of a register that [__init__] built and whose value fits its
    width. *)
Record in_width (self : RegisterSimulator.AdvancedRegisterSimulator) : Prop :=
  InWidth {
  width_nonneg : 0 ≤ RegisterSimulator.width self;
  max_value_ones :
    RegisterSimulator.max_value self = 2 ^ RegisterSimulator.width self - 1;
  value_range :
    0 ≤ RegisterSimulator.value self ≤ RegisterSimulator.max_value self
}.

(** A call of one of the methods that change the register value. *)
Inductive method_call : Type :=
| SetBit (position : Z)
| ClearBit (position : Z)
| ToggleBit (position : Z)
| InsertField (start_bit width_ value_ : Z)
| RotateLeft (count : Z)
| RotateRight (count : Z).

(** The register after a call; [None] when the call raises. *)
Definition call (self : RegisterSimulator.AdvancedRegisterSimulator)
    (c : method_call) : option RegisterSimulator.AdvancedRegisterSimulator :=
  match c with
  | SetBit position => fst <$> RegisterSimulator.set_bit self position
  | ClearBit position => fst <$> RegisterSimulator.clear_bit self position
  | ToggleBit position => fst <$> RegisterSimulator.toggle_bit self position
  | InsertField start_bit width_ value_ =>
      fst <$> RegisterSimulator.insert_field self start_bit width_ value_
  | RotateLeft count => RegisterSimulator.rotate_left self count
  | RotateRight count => RegisterSimulator.rotate_right self count
  end.

(** A sequence of calls, up to the first one that raises. *)
Fixpoint calls (self : RegisterSimulator.AdvancedRegisterSimulator)
    (cs : list method_call) : option RegisterSimulator.AdvancedRegisterSimulator :=
  match cs with
  | [] => Some self
  | c :: cs' => self' ← call self c; calls self' cs'
  end.

(** No call inserts a negative value. *)
Definition inserts_nonneg (c : method_call) : Prop :=
  match c with
  | InsertField _ _ value_ => 0 ≤ value_
  | _ => True
  end.

(** A history that is a chain of values from [start] on: the old value of
    every entry is the new value of the entry before it ([start] for the
    first). *)
Fixpoint history_chain (start : Z) (history : list RegisterSimulator.log_entry)
    : Prop :=
  match history with
  | [] => True
  | entry :: history' =>
      RegisterSimulator.old_value entry = start ∧
      history_chain (RegisterSimulator.new_value entry) history'
  end.

(** The value a history that starts from [start] ends at. *)
Definition history_end (start : Z) (history : list RegisterSimulator.log_entry)
    : Z :=
  match list.last history with
  | Some entry => RegisterSimulator.new_value entry
  | None => start
  end.

(** Insert followed by extract of the same field: the flag [insert_field]
    returned and what [extract_field] read back. *)
Definition insert_then_extract (self : RegisterSimulator.AdvancedRegisterSimulator)
    (start_bit width_ value_ : Z) : option (bool * option Z) :=
  '(self, ok) ← RegisterSimulator.insert_field self start_bit width_ value_;
  extracted ← RegisterSimulator.extract_field self start_bit width_;
  Some (ok, extracted).

(** A sequence of writes to a memory-mapped register, each an address and
    a value, up to the first one that raises. *)
Fixpoint mmio_writes (self : MemoryMappedRegister.MemoryMappedRegister)
    (ws : list (Z * Z)) : option MemoryMappedRegister.MemoryMappedRegister :=
  match ws with
  | [] => Some self
  | (address, value_) :: ws' =>
      self' ← MemoryMappedRegister.write self address value_;
      mmio_writes self' ws'
  end.

(** The value of the last write of [ws] that went to [address]. *)
Definition last_write_to (address : Z) (ws : list (Z * Z)) : option Z :=
  snd <$> list.last (List.filter (λ w, w.1 =? address) ws).

(** A sequence of writes to the shadow of a shadow register, up to the
    first one that raises. *)
Fixpoint shadow_writes (self : ShadowRegister.ShadowRegister)
    (values : list Z) : option ShadowRegister.ShadowRegister :=
  match values with
  | [] => Some self
  | value_ :: values' =>
      self' ← ShadowRegister.write_shadow self value_;
      shadow_writes self' values'
  end.

(** ** Bit reversal *)

(** One line of [reverse_bits_optimized]: the bits under [hi] move down by
    [s], the bits under [lo] move up by [s]. *)
Definition swap_step (n hi lo s : Z) : Z :=
  Z.lor (Z.shiftr (Z.land n hi) s) (Z.shiftl (Z.land n lo) s).

(** The number of 1 digits of a binary numeral. *)
Fixpoint pos_popcount (p : positive) : Z :=
  match p with
  | xH => 1
  | xO q => pos_popcount q
  | xI q => 1 + pos_popcount q
  end.

(** The number of set bits of a non-negative integer. *)
Definition popcount (x : Z) : Z :=
  match x with
  | Zpos p => pos_popcount p
  | _ => 0
  end.

(** A bank file as [__init__] builds it and the methods keep it: one list
    of [reg_per_bank] registers per bank, and an active bank that
    exists. *)
Record bank_wf (self : RegisterBank.RegisterBank) : Prop := BankWf {
  wf_num_banks :
    Z.of_nat (length (RegisterBank.banks self)) = RegisterBank.num_banks self;
  wf_reg_per_bank :
    Forall (λ bank, Z.of_nat (length bank) = RegisterBank.reg_per_bank self)
           (RegisterBank.banks self);
  wf_active :
    0 ≤ RegisterBank.active_bank self < RegisterBank.num_banks self
}.

(* ===================================================================== *)
(** * Part II: properties                                                 *)
(* ===================================================================== *)

(** ** Python primitives *)

Section PyProofs.

Lemma getitem_in_range {A} (l : list A) (i : Z) :
  0 ≤ i < Z.of_nat (length l) → Py.getitem l i = l !! Z.to_nat i.
Proof.
  intros [Hlo Hhi]. unfold Py.getitem.
  destruct (Z.leb_spec 0 i); [|lia].
  destruct (Z.ltb_spec i (Z.of_nat (length l))); [done | lia].
Qed.

Lemma getitem_of_nat {A} (l : list A) (i : nat) (x : A) :
  l !! i = Some x → Py.getitem l (Z.of_nat i) = Some x.
Proof.
  intros Hx. pose proof (lookup_lt_Some _ _ _ Hx).
  rewrite getitem_in_range by lia. by rewrite Nat2Z.id.
Qed.

End PyProofs.

(** ** Sliding-window statistics *)

(** *** The monotonic deques

    [R] is the order of the deque and [test current back] the condition
    under which the back of the deque is popped. *)

Section MonotonicDeque.
Import SlidingWindow.

Context {num : Type} `{Number num}.
Variable latencies : list num.
Variable R : num → num → Prop.
Variable test : num → num → bool.
Hypothesis test_spec : ∀ current back, test current back = true ↔ R current back.
Hypothesis R_total : ∀ x y, R x y ∨ R y x.
Hypothesis R_trans : ∀ x y z, R x y → R y z → R x z.

Lemma getitem_val d : in_range latencies d → Py.getitem latencies d = Some (val latencies d).
Proof using Type.
  intros Hd. rewrite getitem_in_range by done. unfold val.
  destruct (lookup_lt_is_Some_2 latencies (Z.to_nat d)) as [x ->]; [|done].
  unfold in_range in Hd. lia.
Qed.

Lemma R_refl x : R x x.
Proof using R_total. by destruct (R_total x x). Qed.

(** The pop loop returns; it splits the deque into what stays and what is
    popped: every popped index passes the test, the new back does not. *)
Lemma pop_while_spec current (fuel : nat) :
  ∀ dq, (length dq < fuel)%nat → Forall (in_range latencies) dq →
    ∃ kept popped,
      pop_while fuel (test current) latencies dq = Some kept ∧
      dq = kept ++ popped ∧
      Forall (λ d, R current (val latencies d)) popped ∧
      (∀ back, list.last kept = Some back → ¬ R current (val latencies back)).
Proof using test_spec.
  induction fuel as [|fuel IH]; intros dq Hfuel Hrange; [lia|].
  cbn [pop_while]. destruct (list.last dq) as [back|] eqn:Hlast.
  - apply last_Some in Hlast as [dq' ->].
    apply Forall_app in Hrange as [Hrange Hback].
    rewrite Forall_singleton in Hback. rewrite getitem_val by done. cbn.
    destruct (test current (val latencies back)) eqn:Htest.
    + rewrite removelast_last. rewrite length_app in Hfuel. cbn in Hfuel.
      destruct (IH dq') as (kept & popped & Hpop & -> & Hpopped & Hkept);
        [lia | done |].
      exists kept, (popped ++ [back]). split; [done|].
      split; [by rewrite app_assoc|]. split; [|done].
      apply Forall_app. split; [done|]. apply Forall_singleton.
      by apply test_spec.
    + exists (dq' ++ [back]), []. split; [done|].
      split; [by rewrite app_nil_r|]. split; [done|].
      intros back'. rewrite last_snoc. intros [= <-].
      rewrite <- test_spec. by rewrite Htest.
  - apply last_None in Hlast as ->. exists [], [].
    split; [done|]. split; [done|]. split; [done|]. by intros ?.
Qed.

Lemma deque_inv_nil : deque_inv latencies R 0 (-1) [].
Proof using Type.
  split; [done | constructor | intros j ?; lia].
Qed.

Lemma before_R a b : before latencies R a b → R (val latencies a) (val latencies b).
Proof using R_total. intros [_ Hnot]. by destruct (R_total (val latencies a) (val latencies b)). Qed.

Lemma deque_front_exists s i dq :
  deque_inv latencies R s i dq → s ≤ i → is_Some (head dq).
Proof using Type.
  intros [_ _ Hcover] Hsi. destruct dq; [|done].
  destruct (Hcover i) as (d & Hd & _); [lia|]. by apply elem_of_nil in Hd.
Qed.

(** The front of the deque is in the window and extremal there. *)
Lemma deque_front s i dq :
  deque_inv latencies R s i dq → s ≤ i →
  ∃ front, head dq = Some front ∧ s ≤ front ≤ i ∧
           ∀ j, s ≤ j ≤ i → R (val latencies front) (val latencies j).
Proof using R_total R_trans.
  intros [Hwin Hsorted Hcover] Hsi.
  destruct dq as [|front dq].
  { destruct (Hcover i) as (d & Hd & _); [lia|]. by apply elem_of_nil in Hd. }
  exists front. split; [done|].
  split; [by apply Forall_cons in Hwin as [? _]|].
  intros j Hj. destruct (Hcover j Hj) as (d & Hd & _ & HR).
  apply StronglySorted_inv in Hsorted as [_ Hfront].
  apply elem_of_cons in Hd as [->|Hd]; [done|].
  rewrite Forall_forall in Hfront.
  eapply R_trans; [|exact HR]. apply before_R. by apply Hfront.
Qed.

(** Popping the dominated backs and appending [i] gives the deque of the
    window extended by [i]. *)
Lemma deque_push s i dq :
  in_range latencies i → 0 ≤ s ≤ i →
  deque_inv latencies R s (i - 1) dq →
  ∃ kept,
    pop_while (S (length dq)) (test (val latencies i)) latencies dq = Some kept ∧
    deque_inv latencies R s i (kept ++ [i]).
Proof using test_spec R_total R_trans.
  intros Hi Hs [Hwin Hsorted Hcover].
  destruct (pop_while_spec (val latencies i) (S (length dq)) dq)
    as (kept & popped & Hpop & -> & Hpopped & Hback); [lia | |].
  { eapply Forall_impl; [exact Hwin|]. unfold in_range in *. cbn. lia. }
  exists kept. split; [done|].
  apply Forall_app in Hwin as [Hwin _].
  pose proof (StronglySorted_app_1_l _ _ _ Hsorted) as Hkept.
  split.
  - apply Forall_app. split.
    + eapply Forall_impl; [exact Hwin|]. cbn. lia.
    + apply Forall_singleton. lia.
  - apply StronglySorted_app_2; [|done|by repeat constructor].
    intros d i' Hd ->%list_elem_of_singleton.
    rewrite Forall_forall in Hwin. pose proof (Hwin d Hd).
    split; [lia|]. intros HR.
    assert (is_Some (list.last kept)) as [back Hlast].
    { apply last_is_Some. intros ->. by apply elem_of_nil in Hd. }
    apply (Hback back Hlast).
    apply last_Some in Hlast as [kept' ->].
    apply elem_of_app in Hd as [Hd| ->%list_elem_of_singleton]; [|done].
    eapply R_trans; [exact HR|]. apply before_R.
    eapply (StronglySorted_app_1_elem_of (before latencies R)); [exact Hkept|done|].
    by apply list_elem_of_singleton.
  - intros j Hj. destruct (decide (j = i)) as [->|Hne].
    { exists i. split; [|split; [lia|apply R_refl]].
      apply elem_of_app. right. by apply list_elem_of_singleton. }
    destruct (Hcover j) as (d & Hd & Hjd & HR); [lia|].
    apply elem_of_app in Hd as [Hd|Hd].
    + exists d. split; [|done]. apply elem_of_app. by left.
    + exists i. split; [|split; [lia|]].
      * apply elem_of_app. right. by apply list_elem_of_singleton.
      * rewrite Forall_forall in Hpopped. by eapply R_trans; [apply Hpopped|].
Qed.

(** Dropping the front when it has left the window of size [k]. *)
Lemma deque_expire k i dq :
  1 ≤ k → 0 ≤ i →
  deque_inv latencies R (Z.max 0 (i - k)) i dq →
  ∃ dq', expire dq i k = Some dq' ∧ deque_inv latencies R (Z.max 0 (i - k + 1)) i dq'.
Proof using R_total.
  intros Hk Hi Hinv.
  destruct (deque_front_exists _ _ _ Hinv) as [front Hfront]; [lia|].
  destruct Hinv as [Hwin Hsorted Hcover].
  destruct dq as [|front' rest]; [done|]. injection Hfront as ->.
  unfold expire. cbn.
  apply Forall_cons in Hwin as [Hfront Hwin].
  apply StronglySorted_inv in Hsorted as [Hrest Hbefore].
  assert (Forall (λ d, front < d ≤ i) rest) as Hafter.
  { rewrite Forall_forall in Hwin, Hbefore. apply Forall_forall.
    intros d Hd. destruct (Hbefore d Hd). pose proof (Hwin d Hd). cbn in *. lia. }
  eexists. split; [done|].
  destruct (Z.leb_spec front (i - k)) as [Hout|Hin].
  - split; [|done|].
    + eapply Forall_impl; [exact Hafter|]. cbn. lia.
    + intros j Hj. destruct (Hcover j) as (d & Hd & Hjd & HR); [lia|].
      apply elem_of_cons in Hd as [->|Hd]; [lia|]. by exists d.
  - split.
    + apply Forall_cons. split; [lia|].
      eapply Forall_impl; [exact Hafter|]. cbn. lia.
    + by apply SSorted_cons.
    + intros j Hj. apply Hcover. lia.
Qed.

End MonotonicDeque.

(** *** Windows, sums and extrema *)

Section Windows.
Import SlidingWindow.

Context {num : Type} `{Number num}.
Hypothesis exact : Exact num.
Variable latencies : list num.

Lemma lookup_val (d : Z) : in_range latencies d → latencies !! Z.to_nat d = Some (val latencies d).
Proof.
  intros Hd. unfold val.
  destruct (lookup_lt_is_Some_2 latencies (Z.to_nat d)) as [x ->]; [|done].
  unfold in_range in Hd. lia.
Qed.

(** [latencies[s:e+1]] is [latencies[s:e]] followed by [latencies[e]]. *)
Lemma slice_snoc (s e : Z) :
  0 ≤ s ≤ e → in_range latencies e →
  Py.slice latencies s (e + 1) = Py.slice latencies s e ++ [val latencies e].
Proof.
  intros Hs He. unfold Py.slice.
  replace (Z.to_nat (e + 1 - s)) with (S (Z.to_nat (e - s))) by lia.
  apply take_S_r. rewrite lookup_drop.
  replace (Z.to_nat s + Z.to_nat (e - s))%nat with (Z.to_nat e) by lia.
  by apply lookup_val.
Qed.

(** [latencies[s:e]] is [latencies[s]] followed by [latencies[s+1:e]]. *)
Lemma slice_cons (s e : Z) :
  0 ≤ s < e → in_range latencies s →
  Py.slice latencies s e = val latencies s :: Py.slice latencies (s + 1) e.
Proof.
  intros Hs Hr. unfold Py.slice.
  rewrite (drop_S latencies (val latencies s) (Z.to_nat s)) by by apply lookup_val.
  replace (Z.to_nat (e - s)) with (S (Z.to_nat (e - (s + 1)))) by lia.
  cbn. do 2 f_equal. f_equal. lia.
Qed.

Lemma slice_empty (s : Z) : Py.slice latencies s s = [].
Proof. unfold Py.slice. by rewrite Z.sub_diag. Qed.

(** The items of [latencies[s:e]] are the [latencies[d]] with
    [s <= d < e]. *)
Lemma elem_of_slice (s e : Z) (x : num) :
  0 ≤ s → e ≤ Z.of_nat (length latencies) →
  x ∈ Py.slice latencies s e ↔ ∃ d, s ≤ d < e ∧ x = val latencies d.
Proof.
  intros Hs He. unfold Py.slice. rewrite list_elem_of_lookup. split.
  - intros [j Hj]. apply lookup_take_Some in Hj as [Hj Hlt].
    rewrite lookup_drop in Hj. exists (s + Z.of_nat j). split; [lia|].
    unfold val.
    replace (Z.to_nat (s + Z.of_nat j)) with (Z.to_nat s + j)%nat by lia.
    by rewrite Hj.
  - intros (d & Hd & ->). exists (Z.to_nat (d - s)).
    apply lookup_take_Some. split; [|lia]. rewrite lookup_drop.
    replace (Z.to_nat s + Z.to_nat (d - s))%nat with (Z.to_nat d) by lia.
    apply lookup_val. unfold in_range. lia.
Qed.

Lemma num_add_zero_r (a : num) : num_add a num_zero = a.
Proof using exact. by rewrite num_add_comm, num_add_zero. Qed.

Lemma fold_left_add (window : list num) (a : num) :
  fold_left num_add window a = num_add a (fold_left num_add window num_zero).
Proof using exact.
  revert a. induction window as [|x window IH]; intros a; cbn.
  - by rewrite num_add_zero_r.
  - by rewrite (IH (num_add a x)), (IH (num_add num_zero x)), num_add_zero,
      num_add_assoc.
Qed.

Lemma py_sum_snoc (window : list num) (x : num) :
  py_sum (window ++ [x]) = num_add (py_sum window) x.
Proof using Type. unfold py_sum. by rewrite fold_left_app. Qed.

Lemma py_sum_cons (window : list num) (x : num) :
  py_sum (x :: window) = num_add x (py_sum window).
Proof using exact.
  unfold py_sum. cbn. by rewrite fold_left_add, num_add_zero.
Qed.

(** What [<] says in a total order. *)
Lemma num_lt_true (a b : num) : num_lt a b = true → num_le a b = true.
Proof using exact.
  rewrite num_lt_not_le. intros Hlt%negb_true_iff.
  destruct (num_le_total a b) as [?|Hba]; [done | congruence].
Qed.

Lemma num_lt_false (a b : num) : num_lt a b = false → num_le b a = true.
Proof using exact. rewrite num_lt_not_le. by intros ?%negb_false_iff. Qed.

Lemma num_le_refl (a : num) : num_le a a = true.
Proof using exact. by destruct (num_le_total a a). Qed.

(** The running minimum of a fold is an item and a lower bound. *)
Lemma fold_min_spec (window : list num) :
  ∀ x, let m := fold_left (λ m y, if num_lt y m then y else m) window x in
       m ∈ x :: window ∧ ∀ y, y ∈ x :: window → num_le m y = true.
Proof using exact.
  induction window as [|z window IH]; intros x; cbn.
  - split; [apply list_elem_of_here|].
    intros y ->%list_elem_of_singleton. apply num_le_refl.
  - destruct (IH (if num_lt z x then z else x)) as [Hin Hle].
    split.
    + apply elem_of_cons in Hin as [->|Hin].
      * destruct (num_lt z x); [apply list_elem_of_further|];
          apply list_elem_of_here.
      * by do 2 apply list_elem_of_further.
    + intros y Hy. apply elem_of_cons in Hy as [->|Hy].
      * eapply num_le_trans; [apply Hle, list_elem_of_here|].
        destruct (num_lt z x) eqn:Hlt; [by apply num_lt_true | apply num_le_refl].
      * apply elem_of_cons in Hy as [->|Hy].
        -- eapply num_le_trans; [apply Hle, list_elem_of_here|].
           destruct (num_lt z x) eqn:Hlt; [apply num_le_refl | by apply num_lt_false].
        -- by apply Hle, list_elem_of_further.
Qed.

Lemma fold_max_spec (window : list num) :
  ∀ x, let m := fold_left (λ m y, if num_lt m y then y else m) window x in
       m ∈ x :: window ∧ ∀ y, y ∈ x :: window → num_le y m = true.
Proof using exact.
  induction window as [|z window IH]; intros x; cbn.
  - split; [apply list_elem_of_here|].
    intros y ->%list_elem_of_singleton. apply num_le_refl.
  - destruct (IH (if num_lt x z then z else x)) as [Hin Hle].
    split.
    + apply elem_of_cons in Hin as [->|Hin].
      * destruct (num_lt x z); [apply list_elem_of_further|];
          apply list_elem_of_here.
      * by do 2 apply list_elem_of_further.
    + intros y Hy. apply elem_of_cons in Hy as [->|Hy].
      * eapply num_le_trans; [|apply Hle, list_elem_of_here].
        destruct (num_lt x z) eqn:Hlt; [by apply num_lt_true | apply num_le_refl].
      * apply elem_of_cons in Hy as [->|Hy].
        -- eapply num_le_trans; [|apply Hle, list_elem_of_here].
           destruct (num_lt x z) eqn:Hlt; [apply num_le_refl | by apply num_lt_false].
        -- by apply Hle, list_elem_of_further.
Qed.

(** An item below all the others is what [min] returns. *)
Lemma py_min_extremal (window : list num) (v : num) :
  v ∈ window → (∀ y, y ∈ window → num_le v y = true) →
  py_min window = Some v.
Proof using exact.
  intros Hv Hle. destruct window as [|x window]; [by apply elem_of_nil in Hv|].
  cbn. f_equal. destruct (fold_min_spec window x) as [Hin Hmin].
  apply num_le_antisym; [by apply Hmin | by apply Hle].
Qed.

Lemma py_max_extremal (window : list num) (v : num) :
  v ∈ window → (∀ y, y ∈ window → num_le y v = true) →
  py_max window = Some v.
Proof using exact.
  intros Hv Hle. destruct window as [|x window]; [by apply elem_of_nil in Hv|].
  cbn. f_equal. destruct (fold_max_spec window x) as [Hin Hmax].
  apply num_le_antisym; [by apply Hle | by apply Hmax].
Qed.

Lemma simple_loop_app k (range1 range2 : list Z) :
  ∀ results,
    simple_loop latencies k (range1 ++ range2) results =
    simple_loop latencies k range1 results ≫= simple_loop latencies k range2.
Proof.
  induction range1 as [|i range1 IH]; intros results; cbn; [done|].
  destruct (simple_body latencies k results i); cbn; [apply IH | done].
Qed.

Lemma stats_loop_app k (range1 range2 : list Z) :
  ∀ st,
    stats_loop latencies k (range1 ++ range2) st =
    stats_loop latencies k range1 st ≫= stats_loop latencies k range2.
Proof.
  induction range1 as [|i range1 IH]; intros st; cbn; [done|].
  destruct (stats_body latencies k st i); cbn; [apply IH | done].
Qed.

End Windows.

(** *** The main loop against the naive one *)

Section SlidingWindowProofs.
Import SlidingWindow.

(** Reduce the [bind] of a computation that has returned. *)
Local Ltac step := cbn [mbind option_bind].

Context {num : Type} `{Number num}.
Hypothesis exact : Exact num.
Variable latencies : list num.
Variable k : Z.
Hypothesis k_pos : 1 ≤ k.

Lemma test_min_spec (current back : num) :
  num_le current back = true ↔ le_num current back.
Proof using Type. done. Qed.

Lemma test_max_spec (current back : num) :
  num_le back current = true ↔ ge_num current back.
Proof using Type. done. Qed.

Lemma le_num_total (x y : num) : le_num x y ∨ le_num y x.
Proof using exact. apply num_le_total. Qed.

Lemma le_num_trans (x y z : num) : le_num x y → le_num y z → le_num x z.
Proof using exact. apply num_le_trans. Qed.

Lemma ge_num_total (x y : num) : ge_num x y ∨ ge_num y x.
Proof using exact. apply num_le_total. Qed.

Lemma ge_num_trans (x y z : num) : ge_num x y → ge_num y z → ge_num x z.
Proof using exact. unfold ge_num. intros ??. by eapply num_le_trans. Qed.

Lemma loop_inv_init : loop_inv latencies k 0 (LoopState [] [] num_zero []).
Proof using k_pos.
  split; cbn.
  - replace (Z.max 0 (0 - k)) with 0 by lia. apply deque_inv_nil.
  - replace (Z.max 0 (0 - k)) with 0 by lia. apply deque_inv_nil.
  - replace (Z.max 0 (0 - k)) with 0 by lia. by rewrite slice_empty.
  - replace (Z.max 0 (0 - k + 1)) with 0 by lia. done.
Qed.

Lemma loop_inv_succ (i : Z) (st : loop_state num) :
  deque_inv latencies le_num (Z.max 0 (i - k + 1)) i (min_deque st) →
  deque_inv latencies ge_num (Z.max 0 (i - k + 1)) i (max_deque st) →
  window_sum st = py_sum (Py.slice latencies (Z.max 0 (i - k + 1)) (i + 1)) →
  simple_loop latencies k (seqZ 0 (Z.max 0 (i - k + 2))) [] = Some (results st) →
  loop_inv latencies k (i + 1) st.
Proof using Type.
  intros Hmin Hmax Hsum Hres.
  split; replace (i + 1 - k) with (i - k + 1) by lia;
    replace (i + 1 - 1) with i by lia; try done.
  by replace (i - k + 1 + 1) with (i - k + 2) by lia.
Qed.

(** The window [[s, i]] seen through the two fronts. *)
Lemma window_min_front s i front :
  0 ≤ s → i < Z.of_nat (length latencies) → s ≤ front ≤ i →
  (∀ j, s ≤ j ≤ i → le_num (val latencies front) (val latencies j)) →
  py_min (Py.slice latencies s (i + 1)) = Some (val latencies front).
Proof using exact.
  intros Hs Hi Hfront Hmin. apply py_min_extremal; [done| |].
  - apply elem_of_slice; [lia..|]. exists front. split; [lia|done].
  - intros y (d & Hd & ->)%elem_of_slice; [|lia..]. apply Hmin. lia.
Qed.

Lemma window_max_front s i front :
  0 ≤ s → i < Z.of_nat (length latencies) → s ≤ front ≤ i →
  (∀ j, s ≤ j ≤ i → ge_num (val latencies front) (val latencies j)) →
  py_max (Py.slice latencies s (i + 1)) = Some (val latencies front).
Proof using exact.
  intros Hs Hi Hfront Hmax. apply py_max_extremal; [done| |].
  - apply elem_of_slice; [lia..|]. exists front. split; [lia|done].
  - intros y (d & Hd & ->)%elem_of_slice; [|lia..]. apply Hmax. lia.
Qed.

(** One iteration keeps the invariant and does not raise. *)
Lemma stats_body_inv (i : Z) (st : loop_state num) :
  in_range latencies i → loop_inv latencies k i st →
  ∃ st', stats_body latencies k st i = Some st' ∧ loop_inv latencies k (i + 1) st'.
Proof using k_pos exact.
  intros Hi [Hmin Hmax Hsum Hres].
  assert (0 ≤ i < Z.of_nat (length latencies)) as Hi' by exact Hi.
  destruct (deque_push latencies le_num (λ c b, num_le c b)
              test_min_spec le_num_total le_num_trans (Z.max 0 (i - k)) i _ Hi
              ltac:(lia) Hmin)
    as (kept_min & Hpop_min & Hmin1).
  destruct (deque_push latencies ge_num (λ c b, num_le b c)
              test_max_spec ge_num_total ge_num_trans (Z.max 0 (i - k)) i _ Hi
              ltac:(lia) Hmax)
    as (kept_max & Hpop_max & Hmax1).
  destruct (deque_expire latencies le_num le_num_total k i _ k_pos ltac:(lia) Hmin1)
    as (min_dq & Hexp_min & Hmin2).
  destruct (deque_expire latencies ge_num ge_num_total k i _ k_pos ltac:(lia) Hmax1)
    as (max_dq & Hexp_max & Hmax2).
  unfold stats_body. rewrite (getitem_val latencies i Hi). step.
  rewrite Hpop_min. step. rewrite Hpop_max. step.
  rewrite Hexp_min. step. rewrite Hexp_max. step.
  assert (num_add (window_sum st) (val latencies i) =
          py_sum (Py.slice latencies (Z.max 0 (i - k)) (i + 1))) as Hsum1.
  { rewrite slice_snoc, py_sum_snoc by (done || lia). by rewrite Hsum. }
  destruct (Z.leb_spec (k - 1) i) as [Hfull|Hpart].
  - (* a complete window ends at [i] *)
    assert (Z.max 0 (i - k + 1) = i - k + 1) as Hs by lia.
    destruct (deque_front latencies le_num le_num_total le_num_trans _ _ _ Hmin2)
      as (fmin & Hhead_min & Hfmin & Hleast); [lia|].
    destruct (deque_front latencies ge_num ge_num_total ge_num_trans _ _ _ Hmax2)
      as (fmax & Hhead_max & Hfmax & Hgreatest); [lia|].
    rewrite Hs in *.
    assert (∃ sum', (if k <=? i
                     then leaving ← Py.getitem latencies (i - k);
                          Some (num_sub (num_add (window_sum st)
                                                  (val latencies i)) leaving)
                     else Some (num_add (window_sum st) (val latencies i)))
                    = Some sum' ∧
                    sum' = py_sum (Py.slice latencies (i - k + 1) (i + 1)))
      as (sum' & -> & Hsum').
    { destruct (Z.leb_spec k i) as [Hleave|Hfirst].
      - assert (in_range latencies (i - k)) as Hik
          by (unfold in_range; lia).
        rewrite (getitem_val latencies (i - k) Hik). step.
        eexists. split; [done|]. rewrite Hsum1.
        replace (Z.max 0 (i - k)) with (i - k) by lia.
        rewrite (slice_cons latencies (i - k)), py_sum_cons by (done || lia).
        by rewrite num_add_comm, num_sub_add.
      - eexists. split; [done|]. rewrite Hsum1.
        f_equal. f_equal. lia. }
    step. rewrite Hhead_min. step.
    rewrite (getitem_val latencies fmin) by (unfold in_range; lia). step.
    rewrite Hhead_max. step.
    rewrite (getitem_val latencies fmax) by (unfold in_range; lia). step.
    destruct (num_truediv_defined sum' k) as [avg Havg]; [lia|].
    rewrite Havg. step.
    eexists. split; [done|].
    apply loop_inv_succ; cbn; rewrite ?Hs; [done..|].
    replace (Z.max 0 (i - k + 2)) with ((i - k + 1) + 1) by lia.
    rewrite seqZ_app, simple_loop_app by lia.
    replace (Z.max 0 (i - k + 1)) with (i - k + 1) in Hres by lia.
    rewrite Hres. step.
    change (seqZ (0 + (i - k + 1)) 1) with [0 + (i - k + 1)].
    rewrite Z.add_0_l. cbn [simple_loop]. unfold simple_body.
    replace (i - k + 1 + k) with (i + 1) by lia.
    rewrite (window_min_front (i - k + 1) i fmin) by (done || lia). step.
    rewrite (window_max_front (i - k + 1) i fmax) by (done || lia). step.
    by rewrite <- Hsum', Havg.
  - (* the first window is still filling up *)
    eexists. split; [done|]. apply loop_inv_succ; cbn; [done..| |].
    + rewrite Hsum1. f_equal. f_equal. lia.
    + replace (Z.max 0 (i - k + 2)) with (Z.max 0 (i - k + 1)) by lia.
      done.
Qed.

(** The loop over [range(m)] returns a state that satisfies the
    invariant, for every [m <= len(latencies)]. *)
Lemma stats_loop_inv (m : nat) :
  (m ≤ length latencies)%nat →
  ∃ st, stats_loop latencies k (seqZ 0 (Z.of_nat m)) (LoopState [] [] num_zero [])
        = Some st ∧ loop_inv latencies k (Z.of_nat m) st.
Proof using k_pos exact.
  induction m as [|m IH]; intros Hm.
  - exists (LoopState [] [] num_zero []). split; [done | apply loop_inv_init].
  - destruct IH as (st & Hloop & Hinv); [lia|].
    destruct (stats_body_inv (Z.of_nat m) st) as (st' & Hbody & Hinv');
      [unfold in_range; lia | done |].
    exists st'. split.
    + rewrite seqZ_S, stats_loop_app, Hloop, Z.add_0_l. step.
      cbn [stats_loop]. by rewrite Hbody.
    + by replace (Z.of_nat (S m)) with (Z.of_nat m + 1) by lia.
Qed.

End SlidingWindowProofs.

(** The rationals are an instance of exact arithmetic. *)
Lemma Qc_exact : Exact Qc.
Proof.
  split; cbn.
  - intros a b c. ring.
  - intros a b. ring.
  - intros a. ring.
  - intros a b. ring.
  - intros a b. rewrite !bool_decide_eq_true.
    destruct (Qclt_le_dec a b); [left; by apply Qclt_le_weak | by right].
  - intros a b c. rewrite !bool_decide_eq_true. apply Qcle_trans.
  - intros a b. rewrite !bool_decide_eq_true. apply Qcle_antisym.
  - intros a b. destruct (bool_decide (b ≤ a)%Qc) eqn:Hle; cbn.
    + apply bool_decide_eq_false. apply bool_decide_eq_true in Hle.
      by apply Qcle_not_lt.
    + apply bool_decide_eq_true. apply bool_decide_eq_false in Hle.
      by apply Qcnot_le_lt.
  - intros a k Hk. destruct (Z.eqb_spec k 0); [done | by eexists].
Qed.



(** On Python's floats the hypothesis is needed: for the latencies
    [[0.1, 0.2, 0.3]] and [k = 2] the running sum of the deque-based
    function has picked up a rounding error by the second window, and its
    average there is not the one the naive function computes. *)
Lemma sliding_window_stats_float_rounding :
  SlidingWindow.sliding_window_stats float_latencies 2
    = Some [(0.1, 0.15000000000000002, 0.2);
            (0.2, 0.25000000000000006, 0.3)]%float ∧
  SlidingWindow.sliding_window_stats_simple float_latencies 2
    = Some [(0.1, 0.15000000000000002, 0.2); (0.2, 0.25, 0.3)]%float ∧
  SlidingWindow.sliding_window_stats float_latencies 2
    ≠ SlidingWindow.sliding_window_stats_simple float_latencies 2.
Proof.
  assert (SlidingWindow.sliding_window_stats float_latencies 2
          = Some [(0.1, 0.15000000000000002, 0.2);
                  (0.2, 0.25000000000000006, 0.3)]%float) as Hdeque
    by (vm_compute; reflexivity).
  assert (SlidingWindow.sliding_window_stats_simple float_latencies 2
          = Some [(0.1, 0.15000000000000002, 0.2); (0.2, 0.25, 0.3)]%float)
    as Hsimple by (vm_compute; reflexivity).
  split; [done|]. split; [done|]. rewrite Hdeque, Hsimple.
  intros Heq.
  apply (f_equal (λ r : option (list (SlidingWindow.stats float)),
                    match r with
                    | Some [_; (_, avg, _)] => PrimFloat.eqb avg 0.25
                    | _ => false
                    end)) in Heq.
  vm_compute in Heq. discriminate.
Qed.

(** ** Running reverse-list.py *)

Section ScriptProofs.
Import ReverseListScript.

(** C2.  Run as a program, [reverse-list.py] stops in its first loop
    iteration with an uncaught [NameError] for [n]: it does not run to
    completion. *)
Theorem reverse_list_script_raises :
  run_script = NameError "n" ∧ ∀ globals, run_script ≠ Done globals.
Proof. split; [reflexivity|]. intros globals. by vm_compute. Qed.

End ScriptProofs.

(** ** Bit reversal *)

Section ReverseBitsProofs.
Import ReverseBits.

(** After [iters] iterations the low [iters] bits of the result are the low
    [iters] bits of [n] in reverse order, and the bits that were in
    [result] have moved up by [iters]. *)
Lemma reverse_bits_loop_testbit (iters : nat) :
  ∀ n result i, 0 ≤ i →
    Z.testbit (reverse_bits_loop iters n result) i =
      if i <? Z.of_nat iters
      then Z.testbit n (Z.of_nat iters - 1 - i)
      else Z.testbit result (i - Z.of_nat iters).
Proof.
  induction iters as [|iters IH]; intros n result i Hi.
  - change (Z.of_nat 0) with 0. cbn [reverse_bits_loop].
    destruct (Z.ltb_spec i 0); [lia | by rewrite Z.sub_0_r].
  - cbn [reverse_bits_loop]. rewrite IH by done.
    rewrite Nat2Z.inj_succ.
    destruct (Z.ltb_spec i (Z.of_nat iters)) as [Hlt|Hge].
    + destruct (Z.ltb_spec i (Z.succ (Z.of_nat iters))); [|lia].
      rewrite Z.shiftr_spec by lia. f_equal. lia.
    + rewrite Z.lor_spec, Z.land_spec.
      destruct (Z.eq_dec i (Z.of_nat iters)) as [->|Hne].
      * destruct (Z.ltb_spec (Z.of_nat iters) (Z.succ (Z.of_nat iters))); [|lia].
        rewrite Z.sub_diag, Z.shiftl_spec_low by lia.
        replace (Z.succ (Z.of_nat iters) - 1 - Z.of_nat iters) with 0 by lia.
        simpl. by rewrite andb_true_r.
      * destruct (Z.ltb_spec i (Z.succ (Z.of_nat iters))); [lia|].
        rewrite Z.shiftl_spec by lia.
        replace (Z.testbit 1 (i - Z.of_nat iters)) with false.
        2:{ symmetry. apply (Z.bits_above_log2 1); simpl; lia. }
        rewrite andb_false_r, orb_false_r. f_equal. lia.
Qed.

Lemma reverse_bits_testbit n i :
  0 ≤ i →
  Z.testbit (reverse_bits n) i = if i <? 32 then Z.testbit n (31 - i) else false.
Proof.
  intros Hi. unfold reverse_bits.
  rewrite reverse_bits_loop_testbit by done.
  change (Z.of_nat 32) with 32.
  destruct (i <? 32); [f_equal; lia | apply Z.bits_0].
Qed.

(** A number all of whose bits from position 32 on are clear lies in
    [[0, 2^32)]. *)
Lemma bits_above_32_range m :
  (∀ i, 32 ≤ i → Z.testbit m i = false) → 0 ≤ m < 2 ^ 32.
Proof.
  intros Hhigh.
  assert (m = m mod 2 ^ 32) as ->; [|apply Z.mod_pos_bound; lia].
  apply Z.bits_inj'. intros i Hi.
  destruct (Z.lt_ge_cases i 32).
  - by rewrite Z.mod_pow2_bits_low.
  - rewrite Z.mod_pow2_bits_high by lia. by apply Hhigh.
Qed.

Lemma range_bits_above_32 m i :
  0 ≤ m < 2 ^ 32 → 32 ≤ i → Z.testbit m i = false.
Proof.
  intros Hm Hi. rewrite <- (Z.mod_small m (2 ^ 32)) by done.
  apply Z.mod_pow2_bits_high. lia.
Qed.

Lemma reverse_bits_range n : 0 ≤ reverse_bits n < 2 ^ 32.
Proof.
  apply bits_above_32_range. intros i Hi.
  rewrite reverse_bits_testbit by lia.
  destruct (Z.ltb_spec i 32); [lia | done].
Qed.

(** C3.  For every [n] with [0 <= n < 2^32], [reverse_bits n] lies in
    [[0, 2^32)], its bit [i] is bit [31 - i] of [n] for every position
    [i] of the 32-bit word, it is the only number of that range with
    these bits, and [reverse_bits 13 = 2952790016]. *)
Theorem reverse_bits_correct (n : Z) :
  0 ≤ n < 2 ^ 32 →
  0 ≤ reverse_bits n < 2 ^ 32 ∧
  (∀ i, 0 ≤ i < 32 → Z.testbit (reverse_bits n) i = Z.testbit n (31 - i)) ∧
  (∀ m, 0 ≤ m < 2 ^ 32 →
        (∀ i, 0 ≤ i < 32 → Z.testbit m i = Z.testbit n (31 - i)) →
        m = reverse_bits n) ∧
  reverse_bits 13 = 2952790016.
Proof.
  intros _. split; [apply reverse_bits_range|]. split; [|split].
  - intros i [Hi0 Hi]. rewrite reverse_bits_testbit by done.
    destruct (Z.ltb_spec i 32); [done | lia].
  - intros m Hm Hbits. apply Z.bits_inj'. intros i Hi.
    rewrite reverse_bits_testbit by done.
    destruct (Z.ltb_spec i 32).
    + apply Hbits. lia.
    + by apply range_bits_above_32.
  - reflexivity.
Qed.

Lemma reverse_bits_correct_witness :
  0 ≤ 13 < 2 ^ 32 ∧ reverse_bits 13 = 2952790016.
Proof.
  split; [lia|]. apply (reverse_bits_correct 13). lia.
Defined.

End ReverseBitsProofs.

(** ** Powers of two *)

Section PowerOfTwoProofs.
Import PowerOfTwo.

Lemma power_of_two_pos n : power_of_two n → 0 < n.
Proof. intros (k & Hk & ->). by apply Z.pow_pos_nonneg. Qed.

Lemma power_of_two_odd n : n mod 2 ≠ 0 → (power_of_two n ↔ n = 1).
Proof.
  intros Hodd. split.
  - intros (k & Hk & ->).
    destruct (Z.eq_dec k 0) as [->|Hne]; [done|].
    exfalso. apply Hodd.
    replace k with (1 + (k - 1)) by lia.
    rewrite Z.pow_add_r by lia. change (2 ^ 1) with 2.
    by rewrite Z.mul_comm, Z.mod_mul.
  - intros ->. by exists 0.
Qed.

Lemma power_of_two_even n :
  0 < n → n mod 2 = 0 → (power_of_two n ↔ power_of_two (n / 2)).
Proof.
  intros Hpos Heven.
  assert (n = 2 * (n / 2)) as Hn by (apply Z.div_exact; lia).
  split.
  - intros (k & Hk & Hnk).
    destruct (Z.eq_dec k 0) as [->|Hne].
    { rewrite Hnk in Heven. done. }
    exists (k - 1). split; [lia|].
    replace k with (1 + (k - 1)) in Hnk by lia.
    rewrite Z.pow_add_r in Hnk by lia. change (2 ^ 1) with 2 in Hnk. lia.
  - intros (k & Hk & Hnk). exists (k + 1). split; [lia|].
    rewrite Z.pow_add_r by lia. change (2 ^ 1) with 2. lia.
Qed.

(** The division loop returns, and returns the right answer, as soon as
    the fuel is at least [n]. *)
Lemma is_power_of_two_basic_loop_correct (fuel : nat) :
  ∀ n, 0 < n → n ≤ Z.of_nat fuel →
    ∃ b, is_power_of_two_basic_loop fuel n = Some b ∧
         (b = true ↔ power_of_two n).
Proof.
  induction fuel as [|fuel IH]; intros n Hpos Hfuel; [lia|].
  cbn [is_power_of_two_basic_loop].
  destruct (Z.eqb_spec (n mod 2) 0) as [Heven|Hodd].
  - assert (n = 2 * (n / 2)) as Hn by (apply Z.div_exact; lia).
    destruct (IH (n / 2)) as (b & Hb & Hspec); [lia..|].
    exists b. split; [done|].
    rewrite Hspec. symmetry. by apply power_of_two_even.
  - eexists. split; [done|].
    rewrite (power_of_two_odd n Hodd). apply Z.eqb_eq.
Qed.

Lemma is_power_of_two_basic_correct n :
  ∃ b, is_power_of_two_basic n = Some b ∧ (b = true ↔ power_of_two n).
Proof.
  unfold is_power_of_two_basic.
  destruct (Z.leb_spec n 0) as [Hle|Hpos].
  - exists false. split; [done|]. split; [done|].
    intros H%power_of_two_pos. lia.
  - apply is_power_of_two_basic_loop_correct; lia.
Qed.

Lemma land_pred_power_of_two n :
  0 < n → (Z.land n (n - 1) = 0 ↔ power_of_two n).
Proof.
  intros Hpos. split.
  - intros Hland.
    destruct (Z.log2_spec n Hpos) as [Hlo Hhi].
    pose proof (Z.log2_nonneg n) as Hk.
    exists (Z.log2 n). split; [done|].
    destruct (Z.eq_dec n (2 ^ Z.log2 n)) as [|Hne]; [done|].
    exfalso.
    assert (Z.log2 (n - 1) = Z.log2 n) as Hlog
      by (apply Z.log2_unique; lia).
    assert (Z.testbit (Z.land n (n - 1)) (Z.log2 n) = true) as Hbit.
    { rewrite Z.land_spec, Z.bit_log2 by done.
      rewrite <- Hlog. rewrite Z.bit_log2 by lia. done. }
    rewrite Hland, Z.bits_0 in Hbit. done.
  - intros (k & Hk & ->).
    replace (2 ^ k - 1) with (Z.ones k) by (rewrite Z.ones_equiv; lia).
    rewrite Z.land_ones by done. apply Z.mod_same.
    apply Z.pow_nonzero; lia.
Qed.

Lemma is_power_of_two_bit_manipulation_correct n :
  is_power_of_two_bit_manipulation n = true ↔ power_of_two n.
Proof.
  unfold is_power_of_two_bit_manipulation.
  rewrite andb_true_iff, Z.ltb_lt, Z.eqb_eq. split.
  - intros [Hpos Hland]. by apply land_pred_power_of_two.
  - intros Hpow. pose proof (power_of_two_pos n Hpow).
    split; [done|]. by apply land_pred_power_of_two.
Qed.

(** C4.  For every integer [n], zero and negatives included, the division
    loop returns a boolean and both checks answer [True] exactly when [n]
    is a power of two; both answer [True] on 8. *)
Theorem is_power_of_two_correct (n : Z) :
  (is_power_of_two_basic n = Some true ∨ is_power_of_two_basic n = Some false) ∧
  (is_power_of_two_basic n = Some true ↔ ∃ k, 0 ≤ k ∧ n = 2 ^ k) ∧
  (is_power_of_two_bit_manipulation n = true ↔ ∃ k, 0 ≤ k ∧ n = 2 ^ k) ∧
  is_power_of_two_basic 8 = Some true ∧
  is_power_of_two_bit_manipulation 8 = true.
Proof.
  destruct (is_power_of_two_basic_correct n) as (b & Hb & Hspec).
  rewrite Hb. split; [destruct b; auto|]. split; [|split].
  - rewrite <- Hspec. split; [by intros [= ->] | by intros ->].
  - apply is_power_of_two_bit_manipulation_correct.
  - split; reflexivity.
Qed.

End PowerOfTwoProofs.

(** ** Two-sum with a hash table *)

Section TwoSumProofs.
Import TwoSum.

Lemma map_of_seen_empty : map_of_seen [] ∅.
Proof. split; intros ??; [by rewrite lookup_empty | done]. Qed.

Lemma map_of_seen_snoc seen num_map num :
  map_of_seen seen num_map →
  map_of_seen (seen ++ [num]) (<[num := length seen]> num_map).
Proof.
  intros [Hback Hall]. split.
  - intros v j. rewrite lookup_insert. case_decide as Hv.
    + intros [= <-]. subst v. by rewrite lookup_app_r, Nat.sub_diag.
    + intros Hj%Hback. by apply lookup_app_l_Some.
  - intros j v Hj. rewrite lookup_insert. case_decide; [done|].
    apply lookup_app_Some in Hj as [Hj|[_ Hj]]; [by eapply Hall|].
    apply list_lookup_singleton_Some in Hj as [_ ->]. done.
Qed.

Lemma two_sum_hash_table_loop_spec target (nums : list Z) :
  ∀ (seen : list Z) (num_map : gmap Z nat),
    map_of_seen seen num_map →
    (∀ a b, ¬ sums_to seen target a b) →
    let r := two_sum_hash_table_loop nums (length seen) target num_map in
    (r = [] ∧ ∀ a b, ¬ sums_to (seen ++ nums) target a b) ∨
    (∃ i j, r = [i; j] ∧ sums_to (seen ++ nums) target i j).
Proof.
  induction nums as [|num nums IH]; intros seen num_map Hmap Hnone; cbn.
  - left. by rewrite app_nil_r.
  - destruct (num_map !! (target - num)) as [j|] eqn:Hlook.
    + right. exists j, (length seen). split; [done|].
      destruct Hmap as [Hback _]. apply Hback in Hlook.
      pose proof (lookup_lt_Some _ _ _ Hlook).
      split; [done|]. exists (target - num), num.
      split; [by apply lookup_app_l_Some|].
      split; [|lia]. by rewrite lookup_app_r, Nat.sub_diag.
    + specialize (IH (seen ++ [num]) (<[num := length seen]> num_map)).
      rewrite length_app, Nat.add_1_r, <- app_assoc in IH. apply IH.
      * by apply map_of_seen_snoc.
      * intros a b (Hab & x & y & Ha & Hb & Hsum).
        pose proof (lookup_lt_Some _ _ _ Hb) as Hlt.
        rewrite length_app in Hlt. cbn in Hlt.
        destruct (decide (b = length seen)) as [->|Hne].
        -- rewrite lookup_app_r, Nat.sub_diag in Hb by done.
           injection Hb as <-.
           rewrite lookup_app_l in Ha by done.
           destruct Hmap as [_ Hall]. apply Hall in Ha as [j' Hj'].
           replace x with (target - num) in Hj' by lia. congruence.
        -- apply (Hnone a b). split; [done|]. exists x, y.
           rewrite lookup_app_l in Ha by lia.
           rewrite lookup_app_l in Hb by lia. done.
Qed.

Lemma optimized_two_sum_loop_eq target (nums : list Z) :
  ∀ i (hash_map : gmap Z nat),
    optimized_two_sum_loop nums i target hash_map =
    two_sum_hash_table_loop nums i target hash_map.
Proof.
  induction nums as [|num nums IH]; intros i hash_map; cbn; [done|].
  destruct (hash_map !! (target - num)) as [j|] eqn:Hlook.
  - rewrite decide_True by done. done.
  - rewrite decide_False by (by intros [??]). apply IH.
Qed.

Lemma two_sum_hash_table_spec nums target :
  (two_sum_hash_table nums target = [] ∧ ∀ a b, ¬ sums_to nums target a b) ∨
  (∃ i j, two_sum_hash_table nums target = [i; j] ∧ sums_to nums target i j).
Proof.
  apply (two_sum_hash_table_loop_spec target nums [] ∅ map_of_seen_empty).
  intros a b (_ & x & _ & Ha & _). done.
Qed.

(** C5.  When two distinct indices of [nums] hold items that sum to
    [target], the hash-table two-sum returns [[i, j]] with [i < j] and
    [nums[i] + nums[j] == target]; when no two distinct indices do, it
    returns [[]].  [optimized_two_sum] returns the same list as
    [two_sum_hash_table], and on [[2,7,11,15]] with target 9 the answer
    is [[0,1]]. *)
Theorem two_sum_correct (nums : list Z) (target : Z) :
  ((∃ a b x y, a ≠ b ∧ nums !! a = Some x ∧ nums !! b = Some y ∧
               x + y = target) →
   ∃ i j x y, two_sum_hash_table nums target = [i; j] ∧ (i < j)%nat ∧
              nums !! i = Some x ∧ nums !! j = Some y ∧ x + y = target) ∧
  ((¬ ∃ a b x y, a ≠ b ∧ nums !! a = Some x ∧ nums !! b = Some y ∧
                 x + y = target) →
   two_sum_hash_table nums target = []) ∧
  optimized_two_sum nums target = two_sum_hash_table nums target ∧
  two_sum_hash_table [2; 7; 11; 15] 9 = [0%nat; 1%nat].
Proof.
  split; [|split; [|split]].
  - intros (a & b & x & y & Hab & Ha & Hb & Hsum).
    destruct (two_sum_hash_table_spec nums target)
      as [[_ Hnone]|(i & j & Hr & Hij & x' & y' & Hi & Hj & Hs)].
    + exfalso. destruct (decide (a < b)%nat).
      * apply (Hnone a b). split; [done|]. by exists x, y.
      * apply (Hnone b a). split; [lia|]. exists y, x.
        split; [done|]. split; [done|]. lia.
    + by exists i, j, x', y'.
  - intros Hnone.
    destruct (two_sum_hash_table_spec nums target)
      as [[Hr _]|(i & j & _ & Hij & x & y & Hi & Hj & Hs)]; [done|].
    exfalso. apply Hnone. exists i, j, x, y.
    split; [lia|]. done.
  - apply optimized_two_sum_loop_eq.
  - reflexivity.
Qed.

Lemma two_sum_correct_witness :
  ∃ i j, two_sum_hash_table [2; 7; 11; 15] 9 = [i; j] ∧ (i < j)%nat.
Proof.
  destruct (two_sum_correct [2; 7; 11; 15] 9) as [Hfound _].
  destruct Hfound as (i & j & x & y & Hr & Hij & _).
  - exists 0%nat, 1%nat, 2, 7. repeat split; reflexivity || lia.
  - by exists i, j.
Defined.

End TwoSumProofs.

(** ** Binary search *)

Section BinarySearchProofs.
Import BinarySearch.

Lemma sorted_lookup_le (arr : list Z) :
  Sorted Z.le arr →
  ∀ i j x y, (i ≤ j)%nat → arr !! i = Some x → arr !! j = Some y → x ≤ y.
Proof.
  intros Hs%(Sorted_StronglySorted Z.le _).
  induction Hs as [|a arr Hs IH Hall]; intros i j x y Hij Hi Hj; [done|].
  destruct i as [|i], j as [|j]; cbn in Hi, Hj.
  - injection Hi as <-. injection Hj as <-. lia.
  - injection Hi as <-. rewrite Forall_forall in Hall.
    apply Hall. by eapply list_elem_of_lookup_2.
  - lia.
  - apply (IH i j); [lia | done..].
Qed.

Variable arr : list Z.
Variable target : Z.
Hypothesis arr_sorted : Sorted Z.le arr.

(** The loop started on [[left, right]], outside of which [target] does
    not occur, with more fuel than the width of the interval. *)
Lemma safe_binary_search_loop_correct (fuel : nat) :
  ∀ left right,
    0 ≤ left → right < Z.of_nat (length arr) → left ≤ right + 1 →
    right - left + 1 < Z.of_nat fuel →
    (∀ j : nat, arr !! j = Some target → left ≤ Z.of_nat j ≤ right) →
    (safe_binary_search_loop fuel arr target left right = Some (-1) ∧
     target ∉ arr) ∨
    (∃ i : nat, safe_binary_search_loop fuel arr target left right
                = Some (Z.of_nat i) ∧ arr !! i = Some target).
Proof.
  induction fuel as [|fuel IH]; intros left right Hleft Hright Hlr Hfuel Hout;
    [lia|].
  cbn [safe_binary_search_loop].
  destruct (Z.leb_spec left right) as [Hle|Hgt].
  - set (mid := left + (right - left) / 2).
    assert (left ≤ mid ≤ right) as Hmid.
    { unfold mid. Z.to_euclidean_division_equations. lia. }
    destruct (lookup_lt_is_Some_2 arr (Z.to_nat mid)) as [x Hx]; [lia|].
    rewrite getitem_in_range by lia. rewrite Hx. cbn.
    destruct (Z.eqb_spec x target) as [->|Hne].
    { right. exists (Z.to_nat mid). by rewrite Z2Nat.id by lia. }
    destruct (Z.ltb_spec x target) as [Hlt|Hge].
    + apply IH; [lia..|]. intros j Hj. specialize (Hout j Hj).
      split; [|lia].
      destruct (Z.lt_ge_cases mid (Z.of_nat j)); [lia|].
      assert (target ≤ x); [|lia].
      apply (sorted_lookup_le arr arr_sorted j (Z.to_nat mid)); [lia|done..].
    + apply IH; [lia..|]. intros j Hj. specialize (Hout j Hj).
      split; [lia|].
      destruct (Z.lt_ge_cases (Z.of_nat j) mid); [lia|].
      assert (x ≤ target); [|lia].
      apply (sorted_lookup_le arr arr_sorted (Z.to_nat mid) j); [lia|done..].
  - left. split; [done|].
    intros [j Hj]%list_elem_of_lookup_1. specialize (Hout j Hj). lia.
Qed.

End BinarySearchProofs.

Lemma safe_binary_search_spec (arr : list Z) (target : Z) :
  Sorted Z.le arr →
  (BinarySearch.safe_binary_search arr target = Some (-1) ∧ target ∉ arr) ∨
  (∃ i : nat, BinarySearch.safe_binary_search arr target = Some (Z.of_nat i) ∧
              arr !! i = Some target).
Proof.
  intros Hsorted. unfold BinarySearch.safe_binary_search.
  destruct arr as [|a arr'] eqn:Harr.
  - left. split; [done|]. apply not_elem_of_nil.
  - rewrite <- Harr in *.
    apply safe_binary_search_loop_correct; [done | lia..|].
    intros j Hj. pose proof (lookup_lt_Some _ _ _ Hj). lia.
Qed.

(** C6.  On a list sorted in non-decreasing order, [safe_binary_search]
    returns an index holding [target] when [target] occurs in the list, and
    [-1] when it does not (in particular on the empty list). *)
Theorem safe_binary_search_correct (arr : list Z) (target : Z) :
  Sorted Z.le arr →
  (target ∈ arr →
   ∃ i : nat, BinarySearch.safe_binary_search arr target = Some (Z.of_nat i) ∧
              arr !! i = Some target) ∧
  (target ∉ arr → BinarySearch.safe_binary_search arr target = Some (-1)) ∧
  BinarySearch.safe_binary_search [] target = Some (-1).
Proof.
  intros Hsorted.
  destruct (safe_binary_search_spec arr target Hsorted)
    as [[Hr Hnot]|(i & Hr & Hi)].
  - split; [done|]. done.
  - split; [by exists i|]. split; [|done].
    intros Hnot. exfalso. apply Hnot. by eapply list_elem_of_lookup_2.
Qed.

Lemma safe_binary_search_correct_witness :
  Sorted Z.le [1; 3; 5; 7] ∧
  ∃ i : nat, BinarySearch.safe_binary_search [1; 3; 5; 7] 5 = Some (Z.of_nat i) ∧
             [1; 3; 5; 7] !! i = Some 5.
Proof.
  assert (Sorted Z.le [1; 3; 5; 7]) as Hs
    by (repeat constructor; lia).
  split; [exact Hs|].
  apply (safe_binary_search_correct [1; 3; 5; 7] 5 Hs).
  apply list_elem_of_In. simpl. tauto.
Defined.

(** ** LTSSM trace summary *)

Section LTSSMProofs.
Import LTSSM.

Lemma trace_body_first_l0 (l : locals) (event : LTSSMEvent) :
  l_first_l0_time (trace_body l event) =
    match l_first_l0_time l with
    | Some t => Some t
    | None => if String.eqb (state event) "L0"
              then Some (timestamp event) else None
    end.
Proof.
  unfold trace_body.
  destruct (String.eqb (state (l_prev_event l)) "Recovery");
    destruct (l_current_recovery_start l);
    destruct (negb (String.eqb (data event) "") &&
              LogGrep.contains "Gen" (data event));
    destruct (negb (String.eqb (data event) (l_current_speed l)));
    cbn; destruct (l_first_l0_time l), (String.eqb (state event) "L0"); done.
Qed.

(** What the loop computes: the earliest [L0] among the events it
    visits, unless one was recorded before. *)
Lemma fold_trace_body_first_l0 (events : list LTSSMEvent) :
  ∀ l, l_first_l0_time (fold_left trace_body events l) =
         match l_first_l0_time l with
         | Some t => Some t
         | None => earliest_l0 events
         end.
Proof.
  induction events as [|event events IH]; intros l; cbn.
  - by destruct (l_first_l0_time l).
  - rewrite IH, trace_body_first_l0. unfold earliest_l0. cbn.
    destruct (l_first_l0_time l); [done|].
    by destruct (String.eqb (state event) "L0").
Qed.

(** The loop starts at the second row: the first row is never looked at
    for [L0]. *)
Lemma parse_ltssm_trace_first_l0 (first : LTSSMEvent) (rest : list LTSSMEvent) :
  first_l0_time (parse_ltssm_trace (Some (first :: rest))) = earliest_l0 rest.
Proof. unfold parse_ltssm_trace. cbn. by rewrite fold_trace_body_first_l0. Qed.

(** When the first row is in another state, the result is the earliest
    [L0] of the whole trace. *)
Lemma parse_ltssm_trace_first_l0_later (first : LTSSMEvent)
    (rest : list LTSSMEvent) :
  String.eqb (state first) "L0" = false →
  first_l0_time (parse_ltssm_trace (Some (first :: rest)))
  = earliest_l0 (first :: rest).
Proof.
  intros Hfirst. rewrite parse_ltssm_trace_first_l0.
  unfold earliest_l0. cbn. by rewrite Hfirst.
Qed.

(** C7.  On a trace whose very first row is in state [L0],
    [parse_ltssm_trace] reports no first [L0] time although the earliest
    [L0] event is that first row. *)
Theorem parse_ltssm_trace_misses_first_row :
  earliest_l0 trace_l0_first = Some 0%Qc ∧
  first_l0_time (parse_ltssm_trace (Some trace_l0_first)) = None.
Proof.
  split; [reflexivity|]. unfold trace_l0_first.
  by rewrite parse_ltssm_trace_first_l0.
Qed.

End LTSSMProofs.

(** ** Log grep with context *)

Section LogGrepProofs.
Import LogGrep.

(** C8.  On a file of two lines whose first line matches, the list-based
    grep reports the match (with no previous line) and the streaming one
    reports nothing. *)
Theorem grep_streaming_misses_first_line :
  grep_with_context (Some log_error_first) "ERROR"
    = [(None, "ERROR boot", Some "ok")] ∧
  grep_with_context_streaming (Some log_error_first) "ERROR" = [].
Proof. split; reflexivity. Qed.

(** The two agree on a file that cannot be opened, on an empty file and
    on a file of one line. *)
Lemma grep_streaming_short_files (pattern raw : string) :
  grep_with_context None pattern = grep_with_context_streaming None pattern ∧
  grep_with_context (Some []) pattern
    = grep_with_context_streaming (Some []) pattern ∧
  grep_with_context (Some [raw]) pattern
    = grep_with_context_streaming (Some [raw]) pattern.
Proof.
  split; [done|]. split; [done|].
  cbv -[contains rstrip].
  by destruct (contains pattern (rstrip raw)).
Qed.

End LogGrepProofs.

Section LogGrepGeneral.
Import LogGrep.

Variable pattern : string.

(** One iteration of the list-based loop, at the line that follows
    [seen]. *)
Lemma grep_body_matches (seen rest : list string) (line : string)
    (results : list triple) :
  grep_body (seen ++ line :: rest) pattern results
            (Z.of_nat (length seen)) line
  = Some (results ++ if contains pattern line
                     then [(list.last seen, line, head rest)] else []).
Proof.
  unfold grep_body.
  destruct (contains pattern line); [|by rewrite app_nil_r].
  assert ((if 0 <? Z.of_nat (length seen)
           then Some <$> Py.getitem (seen ++ line :: rest)
                           (Z.of_nat (length seen) - 1)
           else Some None) = Some (list.last seen)) as ->.
  { destruct seen as [|x seen _] using rev_ind; [done|].
    rewrite length_app, last_snoc. cbn [length].
    destruct (Z.ltb_spec 0 (Z.of_nat (length seen + 1))); [|lia].
    replace (Z.of_nat (length seen + 1) - 1) with (Z.of_nat (length seen))
      by lia.
    rewrite (getitem_of_nat _ _ x); [done|].
    rewrite <- app_assoc. by rewrite lookup_app_r, Nat.sub_diag. }
  assert ((if Z.of_nat (length seen)
              <? Z.of_nat (length (seen ++ line :: rest)) - 1
           then Some <$> Py.getitem (seen ++ line :: rest)
                           (Z.of_nat (length seen) + 1)
           else Some None) = Some (head rest)) as ->.
  { rewrite length_app. cbn [length]. destruct rest as [|next rest].
    - cbn [length].
      destruct (Z.ltb_spec (Z.of_nat (length seen))
                  (Z.of_nat (length seen + 1) - 1)); [lia|done].
    - cbn [length].
      destruct (Z.ltb_spec (Z.of_nat (length seen))
                  (Z.of_nat (length seen + S (S (length rest))) - 1)); [|lia].
      replace (Z.of_nat (length seen) + 1) with (Z.of_nat (S (length seen)))
        by lia.
      rewrite (getitem_of_nat _ _ next); [done|].
      rewrite lookup_app_r by lia.
      by replace (S (length seen) - length seen)%nat with 1%nat by lia. }
  done.
Qed.

Lemma grep_loop_matches (rest : list string) :
  ∀ seen results,
    grep_loop (seen ++ rest) pattern (Z.of_nat (length seen)) rest results
    = Some (results ++ matches pattern (list.last seen) rest).
Proof.
  induction rest as [|line rest IH]; intros seen results;
    cbn [grep_loop matches].
  { by rewrite app_nil_r. }
  rewrite grep_body_matches. cbn [mbind option_bind].
  specialize (IH (seen ++ [line])).
  rewrite <- app_assoc, length_app, last_snoc in IH. cbn [app length] in IH.
  replace (Z.of_nat (length seen) + 1) with (Z.of_nat (length seen + 1)) by lia.
  rewrite IH. by rewrite <- app_assoc.
Qed.

(** [grep_with_context] reports the matches of all the lines. *)
Lemma grep_with_context_matches (raw_lines : list string) :
  grep_with_context (Some raw_lines) pattern
  = matches pattern None (rstrip <$> raw_lines).
Proof.
  unfold grep_with_context.
  pose proof (grep_loop_matches (rstrip <$> raw_lines) [] []) as Hloop.
  cbn [app length] in Hloop. change (Z.of_nat 0) with 0 in Hloop.
  by rewrite Hloop.
Qed.

(** One iteration of the streaming loop on a window that ends with the
    lines [a] and [b]. *)
Lemma streaming_body_matches (window : list string) (a b raw : string)
    (results : list triple) :
  window = [a; b] ∨ (∃ x, window = [x; a; b]) →
  streaming_body pattern window results raw
  = Some ([a; b; rstrip raw],
          results ++ if contains pattern b
                     then [(Some a, b, Some (rstrip raw))] else []).
Proof.
  intros Hwindow. unfold streaming_body.
  assert (window_append window (rstrip raw) = [a; b; rstrip raw]) as ->
    by (by destruct Hwindow as [->|[x ->]]).
  cbv -[contains rstrip app].
  by destruct (contains pattern b); rewrite ?app_nil_r.
Qed.

(** The streaming loop and the final check, started on such a window,
    report the matches from [b] on. *)
Lemma streaming_loop_matches (f : list string) :
  ∀ window a b results,
    window = [a; b] ∨ (∃ x, window = [x; a; b]) →
    ('(window, results) ← streaming_loop pattern f window results;
     check_last_line pattern window results)
    = Some (results ++ matches pattern (Some a) (b :: (rstrip <$> f))).
Proof.
  induction f as [|raw f IH]; intros window a b results Hwindow.
  - destruct Hwindow as [->|[x ->]]; cbv -[contains app];
      by destruct (contains pattern b); rewrite ?app_nil_r.
  - cbn [streaming_loop].
    rewrite (streaming_body_matches window a b) by done.
    cbn [mbind option_bind].
    rewrite (IH [a; b; rstrip raw] b (rstrip raw)) by (right; by exists a).
    cbn [matches fmap list_fmap head]. by rewrite <- app_assoc.
Qed.

(** On a file of two lines or more, [grep_with_context_streaming] reports
    the matches of all the lines but the first. *)
Lemma grep_streaming_matches (raw0 raw1 : string) (f : list string) :
  grep_with_context_streaming (Some (raw0 :: raw1 :: f)) pattern
  = matches pattern (Some (rstrip raw0)) (rstrip <$> (raw1 :: f)).
Proof.
  unfold grep_with_context_streaming. cbn [init_window].
  change (window_append (window_append [] (rstrip raw0)) (rstrip raw1))
    with [rstrip raw0; rstrip raw1].
  by rewrite (streaming_loop_matches f _ (rstrip raw0) (rstrip raw1) [])
    by (by left).
Qed.

(** The two functions differ by the match of the first line. *)
Lemma grep_with_context_vs_streaming (raw0 raw1 : string) (f : list string) :
  grep_with_context (Some (raw0 :: raw1 :: f)) pattern
  = (if contains pattern (rstrip raw0)
     then [(None, rstrip raw0, Some (rstrip raw1))] else [])
    ++ grep_with_context_streaming (Some (raw0 :: raw1 :: f)) pattern.
Proof. by rewrite grep_with_context_matches, grep_streaming_matches. Qed.

End LogGrepGeneral.

(** ** Register simulator *)

Section RegisterProofs.
Import RegisterSimulator.

(** A number all of whose bits from position [w] on are clear lies in
    [[0, 2^w)], and conversely. *)
Lemma bits_above_range (w m : Z) :
  0 ≤ w → (∀ i, w ≤ i → Z.testbit m i = false) → 0 ≤ m < 2 ^ w.
Proof.
  intros Hw Hhigh.
  assert (m = m mod 2 ^ w) as ->; [|apply Z.mod_pos_bound; lia].
  apply Z.bits_inj'. intros i Hi.
  destruct (Z.lt_ge_cases i w).
  - by rewrite Z.mod_pow2_bits_low.
  - rewrite Z.mod_pow2_bits_high by lia. by apply Hhigh.
Qed.

Lemma range_bits_above (w m i : Z) :
  0 ≤ m < 2 ^ w → 0 ≤ w ≤ i → Z.testbit m i = false.
Proof.
  intros Hm Hi. rewrite <- (Z.mod_small m (2 ^ w)) by done.
  apply Z.mod_pow2_bits_high. lia.
Qed.

Lemma shiftl_1_testbit (p i : Z) :
  0 ≤ p → 0 ≤ i → Z.testbit (Z.shiftl 1 p) i = bool_decide (i = p).
Proof.
  intros Hp Hi. rewrite Z.shiftl_1_l.
  case_bool_decide as Heq.
  - subst. by apply Z.pow2_bits_true.
  - apply Z.pow2_bits_false. congruence.
Qed.

Lemma in_width_intro (self self' : AdvancedRegisterSimulator) :
  in_width self →
  width self' = width self → max_value self' = max_value self →
  (∀ i, width self ≤ i → Z.testbit (value self') i = false) →
  in_width self'.
Proof.
  intros [Hw Hmax Hval] Hw' Hmax' Hbits.
  pose proof (bits_above_range (width self) (value self') Hw Hbits).
  split; rewrite ?Hw', ?Hmax'; [done..|lia].
Qed.

Lemma in_width_testbit (self : AdvancedRegisterSimulator) (i : Z) :
  in_width self → width self ≤ i → Z.testbit (value self) i = false.
Proof.
  intros [Hw Hmax Hval] Hi.
  apply (range_bits_above (width self)); lia.
Qed.

Lemma init_in_width (w : Z) (name : string) (self : AdvancedRegisterSimulator) :
  init w name = Some self → in_width self.
Proof.
  unfold init, Py.shiftl. destruct (Z.ltb_spec w 0); [done|].
  cbn. intros [= <-]. split; cbn; [done| by rewrite Z.shiftl_1_l |].
  rewrite Z.shiftl_1_l. pose proof (Z.pow_pos_nonneg 2 w). lia.
Qed.

Lemma set_bit_in_width self position self' b :
  in_width self → set_bit self position = Some (self', b) → in_width self'.
Proof.
  intros Hin. unfold set_bit, _validate_position, Py.shiftl.
  destruct (Z.leb_spec 0 position), (Z.ltb_spec position (width self));
    cbn; try by intros [= <- <-].
  destruct (Z.ltb_spec position 0); [lia|]. cbn. intros [= <- <-].
  apply (in_width_intro self); [done..|]. cbn. intros i Hi.
  rewrite Z.lor_spec, in_width_testbit, shiftl_1_testbit by (done || lia).
  cbn. apply bool_decide_eq_false. lia.
Qed.

Lemma clear_bit_in_width self position self' b :
  in_width self → clear_bit self position = Some (self', b) → in_width self'.
Proof.
  intros Hin. unfold clear_bit, _validate_position, Py.shiftl.
  destruct (Z.leb_spec 0 position), (Z.ltb_spec position (width self));
    cbn; try by intros [= <- <-].
  destruct (Z.ltb_spec position 0); [lia|]. cbn. intros [= <- <-].
  apply (in_width_intro self); [done..|]. cbn. intros i Hi.
  by rewrite Z.land_spec, in_width_testbit.
Qed.

Lemma toggle_bit_in_width self position self' b :
  in_width self → toggle_bit self position = Some (self', b) → in_width self'.
Proof.
  intros Hin. unfold toggle_bit, _validate_position, Py.shiftl.
  destruct (Z.leb_spec 0 position), (Z.ltb_spec position (width self));
    cbn; try by intros [= <- <-].
  destruct (Z.ltb_spec position 0); [lia|]. cbn. intros [= <- <-].
  apply (in_width_intro self); [done..|]. cbn. intros i Hi.
  rewrite Z.lxor_spec, in_width_testbit, shiftl_1_testbit by (done || lia).
  cbn. apply bool_decide_eq_false. lia.
Qed.

Lemma rotate_left_in_width self count self' :
  in_width self → rotate_left self count = Some self' → in_width self'.
Proof.
  intros Hin. unfold rotate_left.
  destruct (Py.mod_ count (width self)) as [count'|]; [cbn|done].
  destruct (Py.shiftl (value self) count') as [hi|]; [cbn|done].
  destruct (Py.shiftr (value self) (width self - count')) as [lo|]; [cbn|done].
  intros [= <-]. destruct Hin as [Hw Hmax Hval].
  split; cbn; [done..|].
  rewrite Hmax, Z.sub_1_r, <- Z.ones_equiv, Z.land_ones by done.
  pose proof (Z.mod_pos_bound (Z.lor hi lo) (2 ^ width self)).
  pose proof (Z.pow_pos_nonneg 2 (width self)). rewrite Z.ones_equiv. lia.
Qed.

Lemma rotate_right_in_width self count self' :
  in_width self → rotate_right self count = Some self' → in_width self'.
Proof.
  intros Hin. unfold rotate_right.
  destruct (Py.mod_ count (width self)) as [count'|]; [cbn|done].
  destruct (Py.shiftr (value self) count') as [lo|]; [cbn|done].
  destruct (Py.shiftl (value self) (width self - count')) as [hi|]; [cbn|done].
  intros [= <-]. destruct Hin as [Hw Hmax Hval].
  split; cbn; [done..|].
  rewrite Hmax, Z.sub_1_r, <- Z.ones_equiv, Z.land_ones by done.
  pose proof (Z.mod_pos_bound (Z.lor lo hi) (2 ^ width self)).
  pose proof (Z.pow_pos_nonneg 2 (width self)). rewrite Z.ones_equiv. lia.
Qed.

(** [insert_field] keeps the value in range when the inserted value is
    not negative. *)
Lemma insert_field_in_width self start_bit width_ value_ self' b :
  in_width self → 0 ≤ value_ →
  insert_field self start_bit width_ value_ = Some (self', b) →
  in_width self'.
Proof.
  intros Hin Hv. unfold insert_field, Py.shiftl.
  destruct (Z.ltb_spec (width self) (start_bit + width_));
    [by intros [= <- <-]|].
  destruct (Z.ltb_spec width_ 0); [done|]. cbn.
  destruct (Z.leb_spec (Z.shiftl 1 width_) value_) as [|Hlt];
    [by intros [= <- <-]|].
  destruct (Z.ltb_spec start_bit 0); [done|]. cbn. intros [= <- <-].
  apply (in_width_intro self); [done..|]. cbn. intros i Hi.
  rewrite Z.lor_spec, Z.land_spec, in_width_testbit by done. cbn.
  rewrite Z.shiftl_spec by lia. rewrite Z.shiftl_1_l in Hlt.
  apply (range_bits_above width_); lia.
Qed.

(** Every sequence of calls that inserts no negative value keeps the
    register value within [[0, 2^width - 1]]. *)
Lemma calls_in_width (cs : list method_call) :
  ∀ self self', in_width self → Forall inserts_nonneg cs →
                calls self cs = Some self' → in_width self'.
Proof.
  induction cs as [|c cs IH]; intros self self' Hin Hcs; cbn.
  { by intros [= <-]. }
  apply Forall_cons in Hcs as [Hc Hcs].
  destruct (call self c) as [self1|] eqn:Hcall; [cbn|done].
  apply IH; [|done]. clear IH Hcs.
  destruct c as [p|p|p|s w v|n|n]; cbn in Hcall, Hc.
  - destruct (set_bit self p) as [[? b]|] eqn:Hop; [|done].
    injection Hcall as <-. by eapply set_bit_in_width.
  - destruct (clear_bit self p) as [[? b]|] eqn:Hop; [|done].
    injection Hcall as <-. by eapply clear_bit_in_width.
  - destruct (toggle_bit self p) as [[? b]|] eqn:Hop; [|done].
    injection Hcall as <-. by eapply toggle_bit_in_width.
  - destruct (insert_field self s w v) as [[? b]|] eqn:Hop; [|done].
    injection Hcall as <-. by eapply insert_field_in_width.
  - by eapply rotate_left_in_width.
  - by eapply rotate_right_in_width.
Qed.

(** C9.  On a fresh 8-bit register, [insert_field(0, 4, -1)] is accepted
    and leaves the register value at [-1], outside [[0, 2^8 - 1]]. *)
Theorem insert_field_negative_value_escapes :
  ∃ self self',
    init 8 "REG" = Some self ∧
    insert_field self 0 4 (-1) = Some (self', true) ∧
    calls self [InsertField 0 4 (-1)] = Some self' ∧
    width self' = 8 ∧ value self' = -1 ∧
    ¬ (0 ≤ value self' ≤ 2 ^ width self' - 1).
Proof.
  do 2 eexists. split; [reflexivity|].
  split; [reflexivity|]. split; [reflexivity|].
  split; [reflexivity|]. split; [reflexivity|].
  intros [Hneg _]. vm_compute in Hneg. by apply Hneg.
Qed.

Lemma insert_extract_testbit (old v start_bit width_ i : Z) :
  0 ≤ start_bit → 0 ≤ width_ → 0 ≤ v < 2 ^ width_ → 0 ≤ i →
  Z.testbit
    (Z.land
       (Z.shiftr
          (Z.lor (Z.land old (Z.lnot (Z.shiftl (Z.shiftl 1 width_ - 1) start_bit)))
                 (Z.shiftl v start_bit))
          start_bit)
       (Z.shiftl 1 width_ - 1)) i = Z.testbit v i.
Proof.
  intros Hs Hw Hv Hi.
  rewrite Z.shiftl_1_l, Z.sub_1_r, <- Z.ones_equiv.
  rewrite Z.land_spec, Z.shiftr_spec, Z.lor_spec, Z.land_spec by done.
  rewrite Z.lnot_spec, !Z.shiftl_spec by lia.
  replace (i + start_bit - start_bit) with i by lia.
  destruct (Z.lt_ge_cases i width_).
  - rewrite Z.ones_spec_low by lia. cbn.
    by rewrite andb_false_r, andb_true_r.
  - rewrite Z.ones_spec_high by lia. rewrite andb_false_r.
    symmetry. apply (range_bits_above width_); lia.
Qed.

(** C10, for values that are not negative.  For a field that starts at a
    non-negative bit, has a non-negative width and fits the register, and
    for a value [v] with [0 <= v < 2^width], [insert_field] accepts [v]
    and [extract_field] of the same field then returns [v]. *)
Theorem insert_extract_roundtrip
    (self : AdvancedRegisterSimulator) (start_bit width_ v : Z) :
  0 ≤ start_bit → 0 ≤ width_ → start_bit + width_ ≤ width self →
  0 ≤ v < 2 ^ width_ →
  insert_then_extract self start_bit width_ v = Some (true, Some v).
Proof.
  intros Hs Hw Hfit Hv.
  unfold insert_then_extract, insert_field, extract_field, Py.shiftl, Py.shiftr.
  destruct (Z.ltb_spec (width self) (start_bit + width_)); [lia|].
  destruct (Z.ltb_spec width_ 0); [lia|]. cbn.
  destruct (Z.leb_spec (Z.shiftl 1 width_) v) as [Hbig|_].
  { rewrite Z.shiftl_1_l in Hbig. lia. }
  destruct (Z.ltb_spec start_bit 0); [lia|]. cbn.
  destruct (Z.ltb_spec (width self) (start_bit + width_)); [lia|].
  destruct (Z.ltb_spec width_ 0); [lia|]. cbn.
  destruct (Z.ltb_spec start_bit 0); [lia|]. cbn.
  do 3 f_equal. apply Z.bits_inj'. intros i Hi.
  by apply insert_extract_testbit.
Qed.

Lemma insert_extract_roundtrip_witness :
  ∃ self, init 8 "REG" = Some self ∧
          insert_then_extract self 2 4 9 = Some (true, Some 9).
Proof.
  eexists. split; [reflexivity|].
  apply insert_extract_roundtrip; [lia | lia | by vm_compute | lia].
Defined.

(** For every [v < 2^width] the round trip fails: at [v = -1] the field
    reads back as 15.  A field that starts at a negative bit makes the
    shifts raise. *)
Lemma insert_extract_roundtrip_counterexample :
  ∃ self, init 8 "REG" = Some self ∧
          0 + 4 ≤ width self ∧ -1 < 2 ^ 4 ∧
          insert_then_extract self 0 4 (-1) = Some (true, Some 15) ∧
          insert_then_extract self 0 4 (-1) ≠ Some (true, Some (-1)) ∧
          -1 + 2 ≤ width self ∧ 1 < 2 ^ 2 ∧
          insert_then_extract self (-1) 2 1 = None.
Proof.
  eexists. split; [reflexivity|].
  split; [by vm_compute|]. split; [lia|]. split; [reflexivity|].
  split; [by vm_compute|]. split; [by vm_compute|]. split; [lia|].
  reflexivity.
Qed.

End RegisterProofs.

(* ===================================================================== *)
(** * Part III: further properties of the code                            *)
(* ===================================================================== *)

(** The functions next to the ones of Part II: the other implementations
    of the same problems and the remaining methods of the classes. *)

(** ** Bit reversal: the other implementations *)

Section ReverseBitsMore.
Import ReverseBits.

(** X1.  [reverse_bits] applied twice gives back the low 32 bits of its
    argument: on [[0, 2^32)] it is its own inverse. *)
Theorem reverse_bits_involutive (n : Z) :
  reverse_bits (reverse_bits n) = n mod 2 ^ 32.
Proof.
  apply Z.bits_inj'. intros i Hi.
  rewrite reverse_bits_testbit by done.
  destruct (Z.ltb_spec i 32).
  - rewrite reverse_bits_testbit by lia.
    destruct (Z.ltb_spec (31 - i) 32); [|lia].
    rewrite Z.mod_pow2_bits_low by lia. f_equal. lia.
  - by rewrite Z.mod_pow2_bits_high by lia.
Qed.

(** A property of the positions of a 32-bit word holds as soon as it holds
    at each of the 32 positions. *)
Lemma below_32_ind (P : Z → Prop) :
  Forall P (seqZ 0 32) → ∀ i, 0 ≤ i < 32 → P i.
Proof. intros HP i Hi. rewrite Forall_seqZ in HP. apply HP. lia. Qed.

Lemma swap_step_testbit (n hi lo s i : Z) :
  0 ≤ i →
  Z.testbit (swap_step n hi lo s) i =
    (Z.testbit n (i + s) && Z.testbit hi (i + s))
    || (Z.testbit n (i - s) && Z.testbit lo (i - s)).
Proof.
  intros Hi. unfold swap_step.
  by rewrite Z.lor_spec, Z.shiftr_spec, Z.shiftl_spec, !Z.land_spec by done.
Qed.

(** A swap step with 32-bit masks exchanges the bits at [i] and
    [i xor s] and clears everything above the word. *)
Lemma swap_step_spec (n hi lo s i : Z) :
  0 ≤ hi < 2 ^ 32 → 1 ≤ s ≤ 8 → 0 ≤ lo < 2 ^ (32 - s) →
  Forall (λ j, (Z.testbit hi (j + s), Z.testbit lo (j - s))
               = (bool_decide (Z.lxor j s = j + s),
                  bool_decide (Z.lxor j s = j - s))
               ∧ (Z.lxor j s = j + s ∨ Z.lxor j s = j - s))
         (seqZ 0 32) →
  0 ≤ i →
  Z.testbit (swap_step n hi lo s) i =
    if i <? 32 then Z.testbit n (Z.lxor i s) else false.
Proof.
  intros Hhi Hs Hlo Hmasks Hi. rewrite swap_step_testbit by done.
  destruct (Z.ltb_spec i 32) as [Hlt|Hge].
  - destruct (below_32_ind _ Hmasks i) as [[= -> ->] Hxor]; [lia|].
    destruct Hxor as [Hx|Hx]; rewrite Hx.
    + rewrite (bool_decide_true (i + s = i + s)),
        (bool_decide_false (i + s = i - s)) by lia.
      by rewrite andb_true_r, andb_false_r, orb_false_r.
    + rewrite (bool_decide_true (i - s = i - s)),
        (bool_decide_false (i - s = i + s)) by lia.
      by rewrite andb_true_r, andb_false_r, orb_false_l.
  - rewrite (range_bits_above 32 hi), (range_bits_above (32 - s) lo) by lia.
    by rewrite !andb_false_r.
Qed.

Local Ltac check_masks :=
  apply (bool_decide_unpack _); vm_compute; reflexivity.

Lemma lxor_below_32 (i s : Z) :
  0 ≤ i < 32 → 0 ≤ s < 32 → 0 ≤ Z.lxor i s < 32.
Proof.
  intros Hi Hs. change 32 with (2 ^ 5).
  apply Z.bounded_iff_bits_nonneg'; [lia | apply Z.lxor_nonneg; lia |].
  intros l Hl. rewrite Z.lxor_spec.
  rewrite (range_bits_above 5 i), (range_bits_above 5 s) by (simpl; lia).
  done.
Qed.

Lemma lxor_chain_31 (i : Z) :
  0 ≤ i < 32 →
  Z.lxor (Z.lxor (Z.lxor (Z.lxor (Z.lxor i 16) 8) 4) 2) 1 = 31 - i.
Proof.
  revert i. apply below_32_ind. check_masks.
Qed.

Lemma lxor_16_low (i : Z) : 0 ≤ i < 16 → Z.lxor i 16 = i + 16.
Proof.
  intros Hi. assert (0 ≤ i < 32) as Hi' by lia. revert i Hi' Hi.
  apply (below_32_ind (λ i, 0 ≤ i < 16 → Z.lxor i 16 = i + 16)). check_masks.
Qed.

Lemma lxor_16_high (i : Z) : 16 ≤ i < 32 → Z.lxor i 16 = i - 16.
Proof.
  intros Hi. assert (0 ≤ i < 32) as Hi' by lia. revert i Hi' Hi.
  apply (below_32_ind (λ i, 16 ≤ i < 32 → Z.lxor i 16 = i - 16)). check_masks.
Qed.

(** X2.  The mask-and-shift [reverse_bits_optimized] returns what the
    loop of [reverse_bits] returns, on every integer. *)
Theorem reverse_bits_optimized_eq (n : Z) :
  reverse_bits_optimized n = reverse_bits n.
Proof.
  set (n1 := swap_step n 0xAAAAAAAA 0x55555555 1).
  set (n2 := swap_step n1 0xCCCCCCCC 0x33333333 2).
  set (n3 := swap_step n2 0xF0F0F0F0 0x0F0F0F0F 4).
  set (n4 := swap_step n3 0xFF00FF00 0x00FF00FF 8).
  change (reverse_bits_optimized n)
    with (Z.land (Z.lor (Z.shiftr n4 16) (Z.shiftl n4 16)) 0xFFFFFFFF).
  assert (∀ i, 0 ≤ i → Z.testbit n1 i
            = if i <? 32 then Z.testbit n (Z.lxor i 1) else false) as H1.
  { intros i Hi. apply swap_step_spec; [lia | lia | lia | check_masks | done]. }
  assert (∀ i, 0 ≤ i → Z.testbit n2 i
            = if i <? 32 then Z.testbit n1 (Z.lxor i 2) else false) as H2.
  { intros i Hi. apply swap_step_spec; [lia | lia | lia | check_masks | done]. }
  assert (∀ i, 0 ≤ i → Z.testbit n3 i
            = if i <? 32 then Z.testbit n2 (Z.lxor i 4) else false) as H3.
  { intros i Hi. apply swap_step_spec; [lia | lia | lia | check_masks | done]. }
  assert (∀ i, 0 ≤ i → Z.testbit n4 i
            = if i <? 32 then Z.testbit n3 (Z.lxor i 8) else false) as H4.
  { intros i Hi. apply swap_step_spec; [lia | lia | lia | check_masks | done]. }
  assert (∀ i, 0 ≤ i < 32 → Z.testbit n4 i
            = Z.testbit n (Z.lxor (Z.lxor (Z.lxor (Z.lxor i 8) 4) 2) 1)) as Hn4.
  { intros i Hi.
    pose proof (lxor_below_32 i 8 Hi ltac:(lia)) as Hi8.
    pose proof (lxor_below_32 _ 4 Hi8 ltac:(lia)) as Hi4.
    pose proof (lxor_below_32 _ 2 Hi4 ltac:(lia)) as Hi2.
    rewrite H4, H3, H2, H1 by lia.
    repeat match goal with
           | |- context [?a <? 32] =>
               destruct (Z.ltb_spec a 32); [|lia]
           end.
    done. }
  apply Z.bits_inj'. intros i Hi.
  rewrite reverse_bits_testbit by done.
  rewrite Z.land_spec, Z.lor_spec, Z.shiftr_spec, Z.shiftl_spec by done.
  destruct (Z.ltb_spec i 32) as [Hlt|Hge].
  - change 0xFFFFFFFF with (Z.ones 32).
    rewrite Z.ones_spec_low, andb_true_r by lia.
    rewrite <- (lxor_chain_31 i) by lia.
    destruct (Z.lt_ge_cases i 16).
    + rewrite (Z.testbit_neg_r n4 (i - 16)), orb_false_r by lia.
      rewrite (lxor_16_low i) by lia. apply Hn4. lia.
    + rewrite (H4 (i + 16)) by lia.
      destruct (Z.ltb_spec (i + 16) 32); [lia|]. rewrite orb_false_l.
      rewrite (lxor_16_high i) by lia. apply Hn4. lia.
  - change 0xFFFFFFFF with (Z.ones 32).
    by rewrite Z.ones_spec_high, andb_false_r by lia.
Qed.

End ReverseBitsMore.

(** ** Binary search: the variants *)

Section BinarySearchMore.
Import BinarySearch.

Lemma mid_overflow_safe (left right : Z) :
  left + (right - left) / 2 = (left + right) / 2.
Proof.
  replace (left + right) with (left * 2 + (right - left)) by lia.
  rewrite Z.div_add_l by lia. done.
Qed.

Lemma binary_search_verbose_loop_eq (arr : list Z) (target : Z) (fuel : nat) :
  ∀ left right,
    binary_search_verbose_loop fuel arr target left right
    = safe_binary_search_loop fuel arr target left right.
Proof.
  induction fuel as [|fuel IH]; intros left right; [done|].
  cbn [binary_search_verbose_loop safe_binary_search_loop].
  rewrite mid_overflow_safe.
  destruct (left <=? right); [|done].
  destruct (Py.getitem arr ((left + right) / 2)) as [x|]; [cbn|done].
  destruct (x =? target); [done|]. destruct (x <? target); apply IH.
Qed.

(** X3.  [binary_search_verbose] and [safe_binary_search] return the same
    result on every list, sorted or not: the two ways of computing the
    middle index agree, and the empty-list guard of the second returns
    what the loop of the first returns on an empty list. *)
Theorem binary_search_verbose_eq_safe (arr : list Z) (target : Z) :
  binary_search_verbose arr target = safe_binary_search arr target.
Proof.
  unfold binary_search_verbose, safe_binary_search.
  rewrite binary_search_verbose_loop_eq. by destruct arr.
Qed.

Variable arr : list Z.
Hypothesis arr_sorted : Sorted Z.le arr.

Lemma find_first_occurrence_loop_spec (target : Z) (fuel : nat) :
  ∀ left right result,
    0 ≤ left → right < Z.of_nat (length arr) → left ≤ right + 1 →
    right - left + 1 < Z.of_nat fuel →
    (∀ j x, arr !! j = Some x → Z.of_nat j < left → x < target) →
    (result = -1 ∧ ∀ j x, arr !! j = Some x → right < Z.of_nat j → target < x)
    ∨ (result = right + 1 ∧ arr !! Z.to_nat result = Some target) →
    ∃ r, find_first_occurrence_loop fuel arr target left right result = Some r ∧
         ((r = -1 ∧ target ∉ arr) ∨
          (0 ≤ r ∧ arr !! Z.to_nat r = Some target ∧
           ∀ j, arr !! j = Some target → r ≤ Z.of_nat j)).
Proof using arr_sorted.
  induction fuel as [|fuel IH];
    intros left right result Hleft Hright Hlr Hfuel Hbelow Hres; [lia|].
  cbn [find_first_occurrence_loop].
  destruct (Z.leb_spec left right) as [Hle|Hgt].
  - set (mid := (left + right) / 2).
    assert (left ≤ mid ≤ right) as Hmid
      by (unfold mid; Z.to_euclidean_division_equations; lia).
    destruct (lookup_lt_is_Some_2 arr (Z.to_nat mid)) as [x Hx]; [lia|].
    rewrite getitem_in_range by lia. rewrite Hx. cbn.
    destruct (Z.eqb_spec x target) as [->|Hne].
    { apply IH; [lia..|done|]. right. split; [lia|].
      by replace (mid - 1 + 1) with mid by lia. }
    destruct (Z.ltb_spec x target) as [Hlt|Hge].
    + apply IH; [lia..| |done]. intros j y Hj Hjm.
      assert (y ≤ x); [|lia].
      apply (sorted_lookup_le arr arr_sorted j (Z.to_nat mid)); [lia|done..].
    + apply IH; [lia..|done|]. left.
      destruct Hres as [[-> Habove]|[-> Hfound]].
      * split; [done|]. intros j y Hj Hjm.
        assert (x ≤ y); [|lia].
        apply (sorted_lookup_le arr arr_sorted (Z.to_nat mid) j); [lia|done..].
      * exfalso. assert (x ≤ target); [|lia].
        apply (sorted_lookup_le arr arr_sorted (Z.to_nat mid)
                 (Z.to_nat (right + 1))); [lia|done..].
  - exists result. split; [done|].
    destruct Hres as [[-> Habove]|[-> Hfound]].
    + left. split; [done|].
      intros [j Hj]%list_elem_of_lookup_1.
      destruct (Z.lt_ge_cases (Z.of_nat j) left) as [Hjl|Hjl].
      * pose proof (Hbelow j target Hj Hjl). lia.
      * pose proof (Habove j target Hj ltac:(lia)). lia.
    + right. split; [lia|]. split; [done|]. intros j Hj.
      destruct (Z.lt_ge_cases (Z.of_nat j) left) as [Hjl|Hjl]; [|lia].
      pose proof (Hbelow j target Hj Hjl). lia.
Qed.

Lemma find_peak_element_loop_spec (fuel : nat) :
  ∀ left right,
    0 ≤ left ≤ right → right < Z.of_nat (length arr) →
    right - left < Z.of_nat fuel →
    (∀ x y, 0 < left → arr !! Z.to_nat (left - 1) = Some x →
            arr !! Z.to_nat left = Some y → x ≤ y) →
    (∀ x y, arr !! Z.to_nat right = Some x →
            arr !! Z.to_nat (right + 1) = Some y → y < x) →
    ∃ p : nat,
      find_peak_element_loop fuel arr left right = Some (Z.of_nat p) ∧
      (p < length arr)%nat ∧
      (∀ x y, arr !! p = Some x → arr !! S p = Some y → y < x) ∧
      (∀ q x y, S q = p → arr !! q = Some x → arr !! p = Some y → x ≤ y).
Proof using Type.
  induction fuel as [|fuel IH];
    intros left right Hlr Hright Hfuel Hup Hdown; [lia|].
  cbn [find_peak_element_loop].
  destruct (Z.ltb_spec left right) as [Hlt|Hge].
  - set (mid := (left + right) / 2).
    assert (left ≤ mid < right) as Hmid
      by (unfold mid; Z.to_euclidean_division_equations; lia).
    destruct (lookup_lt_is_Some_2 arr (Z.to_nat mid)) as [x Hx]; [lia|].
    destruct (lookup_lt_is_Some_2 arr (Z.to_nat (mid + 1))) as [y Hy]; [lia|].
    rewrite !getitem_in_range by lia. rewrite Hx. cbn. rewrite Hy. cbn.
    destruct (Z.ltb_spec y x) as [Hyx|Hxy].
    + apply IH; [lia..|done|]. intros x' y' Hx' Hy'. congruence.
    + apply IH; [lia..| |done]. intros x' y' _ Hx' Hy'.
      replace (mid + 1 - 1) with mid in Hx' by lia. congruence.
  - assert (left = right) as -> by lia.
    exists (Z.to_nat right). rewrite Z2Nat.id by lia.
    split; [done|]. split; [lia|].
    assert (∀ x y, arr !! Z.to_nat right = Some x →
                   arr !! S (Z.to_nat right) = Some y → y < x) as Hd.
    { intros x y Hx Hy. apply (Hdown x y Hx).
      by replace (Z.to_nat (right + 1)) with (S (Z.to_nat right)) by lia. }
    split; [done|].
    intros q x y Hq Hx Hy. apply (Hup x y); [lia| |done].
    by replace (Z.to_nat (right - 1)) with q by lia.
Qed.

End BinarySearchMore.

(** X4.  On a list sorted in non-decreasing order, [find_first_occurrence]
    returns the smallest index that holds [target], and [-1] when [target]
    does not occur. *)
Theorem find_first_occurrence_correct (arr : list Z) (target : Z) :
  Sorted Z.le arr →
  ∃ r, BinarySearch.find_first_occurrence arr target = Some r ∧
       ((r = -1 ∧ target ∉ arr) ∨
        (0 ≤ r ∧ arr !! Z.to_nat r = Some target ∧
         ∀ j, arr !! j = Some target → r ≤ Z.of_nat j)).
Proof.
  intros Hsorted. unfold BinarySearch.find_first_occurrence.
  apply find_first_occurrence_loop_spec; [done|lia..| |].
  - intros j x _ Hj. lia.
  - left. split; [done|]. intros j x Hj Hlen.
    pose proof (lookup_lt_Some _ _ _ Hj). lia.
Qed.

Lemma find_first_occurrence_correct_witness :
  BinarySearch.find_first_occurrence [0; 0; 0; 1; 1; 1; 1] 1 = Some 3.
Proof.
  assert (Sorted Z.le [0; 0; 0; 1; 1; 1; 1]) as Hs by (repeat constructor; lia).
  destruct (find_first_occurrence_correct [0; 0; 0; 1; 1; 1; 1] 1 Hs)
    as (r & Hr & _).
  rewrite Hr. f_equal. vm_compute in Hr. by injection Hr as <-.
Defined.



Section SearchByTest.
Import BinarySearch.

Variable stability_test : Z → bool.
Hypothesis stable_downward :
  ∀ f g, f ≤ g → stability_test g = true → stability_test f = true.

Lemma find_max_frequency_loop_spec (low0 high0 : Z) (fuel : nat) :
  ∀ low high,
    low0 ≤ low ≤ high → high ≤ high0 → high - low < Z.of_nat fuel →
    stability_test low = true →
    (∀ f, low0 ≤ f ≤ high0 → stability_test f = true → f ≤ high) →
    ∃ r, find_max_frequency_loop fuel stability_test low high = Some r ∧
         low0 ≤ r ≤ high0 ∧ stability_test r = true ∧
         ∀ f, low0 ≤ f ≤ high0 → stability_test f = true → f ≤ r + 1.
Proof using stable_downward.
  induction fuel as [|fuel IH];
    intros low high Hlow Hhigh Hfuel Hstable Hall; [lia|].
  cbn [find_max_frequency_loop].
  destruct (Z.ltb_spec 1 (high - low)) as [Hwide|Hnarrow].
  - set (mid := (low + high) / 2).
    assert (low < mid < high) as Hmid
      by (unfold mid; Z.to_euclidean_division_equations; lia).
    destruct (stability_test mid) eqn:Hmidtest.
    + apply IH; [lia..|done|done].
    + apply IH; [lia..|done|]. intros f Hf Hfs.
      destruct (Z.lt_ge_cases f mid); [lia|].
      rewrite (stable_downward mid f) in Hmidtest by done. done.
  - exists low. split; [done|]. split; [lia|]. split; [done|].
    intros f Hf Hfs. pose proof (Hall f Hf Hfs). lia.
Qed.

End SearchByTest.

(** X6.  For a range [low <= high], a stability test that holds at [low] and
    is downward closed (a frequency below a stable one is stable),
    [find_max_frequency] returns a stable frequency of the range, and no
    stable frequency of the range exceeds it by more than 1. *)
Theorem find_max_frequency_correct
    (low high : Z) (stability_test : Z → bool) :
  low ≤ high →
  (∀ f g, f ≤ g → stability_test g = true → stability_test f = true) →
  stability_test low = true →
  ∃ r, BinarySearch.find_max_frequency (low, high) stability_test = Some r ∧
       low ≤ r ≤ high ∧ stability_test r = true ∧
       ∀ f, low ≤ f ≤ high → stability_test f = true → f ≤ r + 1.
Proof.
  intros Hrange Hdown Hlow. unfold BinarySearch.find_max_frequency.
  apply find_max_frequency_loop_spec; [done|lia..|done|].
  intros f Hf _. lia.
Qed.

Lemma find_max_frequency_correct_witness :
  ∃ r, BinarySearch.find_max_frequency (2000, 3200) (λ f, f <=? 2800) = Some r ∧
       2000 ≤ r ≤ 3200.
Proof.
  destruct (find_max_frequency_correct 2000 3200 (λ f, f <=? 2800))
    as (r & Hr & Hrange & _); [lia| |done|by exists r].
  intros f g Hfg Hg. apply Z.leb_le. apply Z.leb_le in Hg. lia.
Defined.

Section MemoryError.
Import BinarySearch.

Variable error_test : Z → Z → bool.
Variable error_location : Z.
Hypothesis error_test_spec :
  ∀ start_addr end_addr,
    error_test start_addr end_addr
    = (start_addr <=? error_location) && (error_location <=? end_addr).

Lemma find_memory_error_loop_spec (fuel : nat) :
  ∀ low high iterations,
    0 ≤ iterations ≤ 20 → Z.of_nat fuel = 21 - iterations →
    low ≤ error_location ≤ high →
    high - low + 1 ≤ 2 ^ (20 - iterations) →
    find_memory_error_loop fuel error_test 20 low high iterations
    = Some error_location.
Proof using error_test_spec.
  induction fuel as [|fuel IH];
    intros low high iterations Hit Hfuel Hloc Hsize; [lia|].
  cbn [find_memory_error_loop].
  destruct (Z.ltb_spec low high) as [Hlt|Hge]; cbn [andb].
  - destruct (Z.ltb_spec iterations 20) as [Hmore|Hcap].
    + set (mid := (low + high) / 2).
      assert (low ≤ mid < high) as Hmid
        by (unfold mid; Z.to_euclidean_division_equations; lia).
      assert (2 ^ (20 - iterations) = 2 * 2 ^ (20 - (iterations + 1))) as Hpow.
      { replace (20 - iterations) with (Z.succ (20 - (iterations + 1))) by lia.
        rewrite Z.pow_succ_r by lia. done. }
      rewrite error_test_spec.
      destruct (Z.leb_spec low error_location) as [_|]; [|lia]. cbn [andb].
      destruct (Z.leb_spec error_location mid) as [Hlower|Hupper].
      * apply IH; [lia..|].
        unfold mid in *. Z.to_euclidean_division_equations. lia.
      * apply IH; [lia..|].
        unfold mid in *. Z.to_euclidean_division_equations. lia.
    + assert (iterations = 20) as -> by lia.
      change (2 ^ (20 - 20)) with 1 in Hsize. lia.
  - f_equal. lia.
Qed.

End MemoryError.

(** X7.  When the memory has at most [2^20] bytes and the test answers
    whether the (single) faulty address lies in the tested range,
    [find_memory_error] returns the faulty address; the cap of 20
    iterations is never what stops the search. *)
Theorem find_memory_error_correct
    (memory_size error_location : Z) (error_test : Z → Z → bool) :
  0 ≤ error_location < memory_size → memory_size ≤ 2 ^ 20 →
  (∀ start_addr end_addr,
     error_test start_addr end_addr
     = (start_addr <=? error_location) && (error_location <=? end_addr)) →
  BinarySearch.find_memory_error memory_size error_test = Some error_location.
Proof.
  intros Hloc Hsize Htest. unfold BinarySearch.find_memory_error.
  apply (find_memory_error_loop_spec error_test error_location Htest);
    [lia | done | lia |].
  change (2 ^ (20 - 0)) with (2 ^ 20). lia.
Qed.

Lemma find_memory_error_correct_witness :
  BinarySearch.find_memory_error 0x10000
    (λ start_addr end_addr, (start_addr <=? 0x1A3F) && (0x1A3F <=? end_addr))
  = Some 0x1A3F.
Proof.
  apply (find_memory_error_correct 0x10000 0x1A3F); [lia | by vm_compute | done].
Defined.

(** *** Search in a rotated list *)

Section RotatedSearch.
Import BinarySearch.

Lemma strongly_sorted_lookup_lt (l : list Z) :
  StronglySorted Z.lt l →
  ∀ i j x y, (i < j)%nat → l !! i = Some x → l !! j = Some y → x < y.
Proof.
  induction 1 as [|a l Hs IH Hall]; intros i j x y Hij Hi Hj; [done|].
  destruct i as [|i], j as [|j]; cbn in Hi, Hj; try lia.
  - injection Hi as <-. rewrite Forall_forall in Hall.
    apply Hall. by eapply list_elem_of_lookup_2.
  - apply (IH i j); [lia | done..].
Qed.

Variable arr : list Z.

(** [arr] is two strictly increasing runs, the first of length [p], and
    the items of the second run lie below those of the first. *)
Variable p : nat.
Hypothesis first_run : ∀ i j x y,
  (i < j)%nat → (j < p)%nat → arr !! i = Some x → arr !! j = Some y → x < y.
Hypothesis second_run : ∀ i j x y,
  (p ≤ i)%nat → (i < j)%nat → arr !! i = Some x → arr !! j = Some y → x < y.
Hypothesis runs : ∀ i j x y,
  (i < p)%nat → (p ≤ j)%nat → arr !! i = Some x → arr !! j = Some y → y < x.

(** The items compare as their positions do once the first run is moved
    behind the second. *)
Lemma rotated_order (i j : nat) (x y : Z) :
  arr !! i = Some x → arr !! j = Some y →
  x < y ↔
  (if (i <? p)%nat then Z.of_nat i + Z.of_nat (length arr) else Z.of_nat i)
  < (if (j <? p)%nat then Z.of_nat j + Z.of_nat (length arr) else Z.of_nat j).
Proof using first_run second_run runs.
  intros Hi Hj.
  pose proof (lookup_lt_Some _ _ _ Hi). pose proof (lookup_lt_Some _ _ _ Hj).
  destruct (Nat.ltb_spec i p), (Nat.ltb_spec j p).
  - destruct (lt_eq_lt_dec i j) as [[Hlt| ->]|Hgt].
    + pose proof (first_run i j x y Hlt ltac:(done) Hi Hj). lia.
    + assert (x = y) by congruence. lia.
    + pose proof (first_run j i y x Hgt ltac:(done) Hj Hi). lia.
  - pose proof (runs i j x y ltac:(done) ltac:(done) Hi Hj). lia.
  - pose proof (runs j i y x ltac:(done) ltac:(done) Hj Hi). lia.
  - destruct (lt_eq_lt_dec i j) as [[Hlt| ->]|Hgt].
    + pose proof (second_run i j x y ltac:(done) Hlt Hi Hj). lia.
    + assert (x = y) by congruence. lia.
    + pose proof (second_run j i y x ltac:(done) Hgt Hj Hi). lia.
Qed.

Lemma search_rotated_array_loop_spec (target : Z) (fuel : nat) :
  ∀ left right,
    0 ≤ left → right < Z.of_nat (length arr) → left ≤ right + 1 →
    right - left + 1 < Z.of_nat fuel →
    (∀ j, arr !! j = Some target → left ≤ Z.of_nat j ≤ right) →
    ∃ r, search_rotated_array_loop fuel arr target left right = Some r ∧
         ((r = -1 ∧ target ∉ arr) ∨
          (0 ≤ r ∧ arr !! Z.to_nat r = Some target)).
Proof using first_run second_run runs.
  induction fuel as [|fuel IH];
    intros left right Hleft Hright Hlr Hfuel Hin; [lia|].
  cbn [search_rotated_array_loop].
  destruct (Z.leb_spec left right) as [Hle|Hgt].
  - set (mid := (left + right) / 2).
    assert (left ≤ mid ≤ right) as Hmid
      by (unfold mid; Z.to_euclidean_division_equations; lia).
    destruct (lookup_lt_is_Some_2 arr (Z.to_nat mid)) as [xm Hxm]; [lia|].
    destruct (lookup_lt_is_Some_2 arr (Z.to_nat left)) as [xl Hxl]; [lia|].
    destruct (lookup_lt_is_Some_2 arr (Z.to_nat right)) as [xr Hxr]; [lia|].
    rewrite !getitem_in_range by lia. rewrite Hxm. cbn [mbind option_bind].
    destruct (Z.eqb_spec xm target) as [->|Hne].
    { exists mid. split; [done|]. right. split; [lia | done]. }
    rewrite Hxl. cbn [mbind option_bind].
    destruct (xl <=? xm) eqn:Hlm.
    + apply Z.leb_le in Hlm.
      assert (∀ j, arr !! j = Some target →
                if (xl <=? target) && (target <? xm)
                then Z.of_nat j < mid else mid < Z.of_nat j) as Hside.
      { intros j Hj. specialize (Hin j Hj).
        pose proof (rotated_order _ _ _ _ Hxl Hxm).
        pose proof (rotated_order _ _ _ _ Hxm Hxl).
        pose proof (rotated_order _ _ _ _ Hxl Hj).
        pose proof (rotated_order _ _ _ _ Hj Hxl).
        pose proof (rotated_order _ _ _ _ Hxm Hj).
        pose proof (rotated_order _ _ _ _ Hj Hxm).
        destruct (Z.leb_spec xl target), (Z.ltb_spec target xm); cbn [andb];
          destruct (Nat.ltb_spec (Z.to_nat left) p),
            (Nat.ltb_spec (Z.to_nat mid) p), (Nat.ltb_spec j p); lia. }
      destruct ((xl <=? target) && (target <? xm));
        (apply IH; [lia..|]; intros j Hj; specialize (Hin j Hj);
         specialize (Hside j Hj); lia).
    + apply Z.leb_gt in Hlm.
      assert (∀ j, arr !! j = Some target →
                if (xm <? target) && (target <=? xr)
                then mid < Z.of_nat j else Z.of_nat j < mid) as Hside.
      { intros j Hj. specialize (Hin j Hj).
        pose proof (rotated_order _ _ _ _ Hxl Hxm).
        pose proof (rotated_order _ _ _ _ Hxm Hxl).
        pose proof (rotated_order _ _ _ _ Hxm Hxr).
        pose proof (rotated_order _ _ _ _ Hxr Hxm).
        pose proof (rotated_order _ _ _ _ Hxm Hj).
        pose proof (rotated_order _ _ _ _ Hj Hxm).
        pose proof (rotated_order _ _ _ _ Hxr Hj).
        pose proof (rotated_order _ _ _ _ Hj Hxr).
        destruct (Z.ltb_spec xm target), (Z.leb_spec target xr); cbn [andb];
          destruct (Nat.ltb_spec (Z.to_nat left) p),
            (Nat.ltb_spec (Z.to_nat mid) p),
            (Nat.ltb_spec (Z.to_nat right) p), (Nat.ltb_spec j p); lia. }
      destruct (xm <? target).
      * rewrite Hxr. cbn [mbind option_bind]. cbn [andb] in Hside.
        destruct (target <=? xr);
          (apply IH; [lia..|]; intros j Hj; specialize (Hin j Hj);
           specialize (Hside j Hj); lia).
      * cbn [mbind option_bind]. cbn [andb] in Hside.
        apply IH; [lia..|]. intros j Hj. specialize (Hin j Hj).
        specialize (Hside j Hj). lia.
  - exists (-1). split; [done|]. left. split; [done|].
    intros [j Hj]%list_elem_of_lookup_1. specialize (Hin j Hj). lia.
Qed.

End RotatedSearch.

(** X8.  On a list that is a rotation of a strictly increasing list,
    [search_rotated_array] returns an index that holds [target] when
    [target] occurs in the list, and [-1] when it does not. *)
Theorem search_rotated_array_correct (arr : list Z) (target : Z) :
  rotated_sorted arr →
  ∃ r, BinarySearch.search_rotated_array arr target = Some r ∧
       ((r = -1 ∧ target ∉ arr) ∨
        (0 ≤ r ∧ arr !! Z.to_nat r = Some target)).
Proof.
  intros (sorted & r & Hsorted & ->).
  rewrite <- (take_drop r sorted) in Hsorted.
  apply StronglySorted_app in Hsorted as (Hruns & Hback & Hfront).
  set (front := drop r sorted) in *. set (back := take r sorted) in *.
  unfold BinarySearch.search_rotated_array.
  apply (search_rotated_array_loop_spec (front ++ back) (length front)).
  - intros i j x y Hij Hj Hx Hy.
    rewrite lookup_app_l in Hx, Hy by lia.
    by apply (strongly_sorted_lookup_lt front Hfront i j).
  - intros i j x y Hi Hij Hx Hy.
    rewrite lookup_app_r in Hx, Hy by lia.
    apply (strongly_sorted_lookup_lt back Hback (i - length front)
             (j - length front)); [lia | done..].
  - intros i j x y Hi Hj Hx Hy.
    rewrite lookup_app_l in Hx by lia. rewrite lookup_app_r in Hy by lia.
    apply Hruns; by eapply list_elem_of_lookup_2.
  - lia.
  - lia.
  - lia.
  - lia.
  - intros j Hj. apply lookup_lt_Some in Hj. lia.
Qed.

Lemma search_rotated_array_correct_witness :
  ∃ r, BinarySearch.search_rotated_array [4; 5; 6; 7; 0; 1; 2] 0 = Some r ∧
       ((r = -1 ∧ 0 ∉ [4; 5; 6; 7; 0; 1; 2]) ∨
        (0 ≤ r ∧ [4; 5; 6; 7; 0; 1; 2] !! Z.to_nat r = Some 0)).
Proof.
  apply search_rotated_array_correct.
  exists [0; 1; 2; 4; 5; 6; 7], 3%nat. split; [|reflexivity].
  repeat (constructor; [|repeat constructor; lia]). constructor.
Defined.

(** ** Two-sum: the other implementations *)

Section TwoSumMore.
Import TwoSum.

(** The inner loop returns the first [j] that completes [num_i], if
    any. *)
Lemma two_sum_brute_force_inner_spec (num_i target : Z) (i : nat)
    (rest : list Z) :
  ∀ j,
    match two_sum_brute_force_inner num_i i j rest target with
    | Some found =>
        ∃ k y, found = [i; (j + k)%nat] ∧ rest !! k = Some y ∧
               num_i + y = target ∧
               ∀ k' y', (k' < k)%nat → rest !! k' = Some y' →
                        num_i + y' ≠ target
    | None => ∀ k y, rest !! k = Some y → num_i + y ≠ target
    end.
Proof.
  induction rest as [|num_j rest IH]; intros j; cbn; [done|].
  destruct (Z.eqb_spec (num_i + num_j) target) as [Heq|Hne].
  - exists 0%nat, num_j. rewrite Nat.add_0_r.
    repeat split; [done..|]. intros k' y' Hk'. lia.
  - specialize (IH (S j)).
    destruct (two_sum_brute_force_inner num_i i (S j) rest target).
    + destruct IH as (k & y & -> & Hk & Hsum & Hfirst).
      exists (S k), y. replace (j + S k)%nat with (S j + k)%nat by lia.
      repeat split; [done..|]. intros [|k'] y' Hlt Hy'; cbn in Hy'.
      * by injection Hy' as <-.
      * apply (Hfirst k' y'); [lia|done].
    + intros [|k] y Hy; cbn in Hy; [by injection Hy as <-|by eapply IH].
Qed.

Lemma two_sum_brute_force_outer_spec (target : Z) (rest : list Z) :
  ∀ seen,
    (∀ a b, sums_to (seen ++ rest) target a b → (length seen ≤ a)%nat) →
    let r := two_sum_brute_force_outer (length seen) rest target in
    (r = [] ∧ ∀ a b, ¬ sums_to (seen ++ rest) target a b) ∨
    (∃ i j, r = [i; j] ∧ sums_to (seen ++ rest) target i j ∧
            ∀ a b, sums_to (seen ++ rest) target a b →
                   (i < a)%nat ∨ (i = a ∧ (j ≤ b)%nat)).
Proof.
  induction rest as [|num_i rest IH]; intros seen Hseen; cbn.
  - left. split; [done|]. intros a b Hab.
    pose proof (Hseen a b Hab) as Hlen. destruct Hab as (Hlt & x & y & Ha & _).
    apply lookup_lt_Some in Ha. rewrite app_nil_r in Ha. lia.
  - pose proof (two_sum_brute_force_inner_spec num_i target (length seen)
                  rest (S (length seen))) as Hinner.
    assert ((seen ++ num_i :: rest) !! length seen = Some num_i) as Hi
      by (by rewrite lookup_app_r, Nat.sub_diag).
    assert (∀ k, (seen ++ num_i :: rest) !! (S (length seen) + k)%nat
                 = rest !! k) as Hrest.
    { intros k. rewrite lookup_app_r by lia.
      by replace (S (length seen) + k - length seen)%nat with (S k) by lia. }
    destruct (two_sum_brute_force_inner num_i (length seen)
                (S (length seen)) rest target) as [found|].
    + destruct Hinner as (k & y & -> & Hk & Hsum & Hfirst).
      right. exists (length seen), (S (length seen) + k)%nat.
      split; [done|]. split.
      { split; [lia|]. exists num_i, y. by rewrite Hrest. }
      intros a b Hab. pose proof (Hseen a b Hab) as Hlen.
      destruct (decide (a = length seen)) as [->|Hne]; [|lia].
      right. split; [done|].
      destruct Hab as (Hlt & x & y' & Ha & Hb & Hxy).
      rewrite Hi in Ha. injection Ha as <-.
      destruct (decide (S (length seen) + k ≤ b)%nat) as [|Hbk]; [done|].
      exfalso.
      replace b with (S (length seen) + (b - S (length seen)))%nat in Hb by lia.
      rewrite Hrest in Hb.
      apply (Hfirst (b - S (length seen))%nat y'); [lia|done..].
    + specialize (IH (seen ++ [num_i])).
      rewrite length_app, Nat.add_1_r, <- app_assoc in IH. cbn in IH.
      apply IH. intros a b Hab. pose proof (Hseen a b Hab) as Hlen.
      destruct (decide (a = length seen)) as [->|Hne]; [|lia].
      exfalso. destruct Hab as (Hlt & x & y' & Ha & Hb & Hxy).
      rewrite Hi in Ha. injection Ha as <-.
      replace b with (S (length seen) + (b - S (length seen)))%nat in Hb by lia.
      rewrite Hrest in Hb. by apply (Hinner _ _ Hb).
Qed.

(** X9.  [two_sum_brute_force] returns [[]] when no two indices [a < b]
    hold items that sum to [target]; otherwise it returns such a pair
    [[i, j]], and the first one in lexicographic order. *)
Theorem two_sum_brute_force_correct (nums : list Z) (target : Z) :
  (two_sum_brute_force nums target = [] ∧
   ∀ a b, ¬ sums_to nums target a b) ∨
  (∃ i j, two_sum_brute_force nums target = [i; j] ∧
          sums_to nums target i j ∧
          ∀ a b, sums_to nums target a b →
                 (i < a)%nat ∨ (i = a ∧ (j ≤ b)%nat)).
Proof.
  apply (two_sum_brute_force_outer_spec target nums []).
  intros a b _. cbn. lia.
Qed.

(** The hash-table loop returns the pair whose second index is the
    smallest possible. *)
Lemma two_sum_hash_table_loop_least target (nums : list Z) :
  ∀ (seen : list Z) (num_map : gmap Z nat) i j,
    map_of_seen seen num_map →
    (∀ a b, ¬ sums_to seen target a b) →
    two_sum_hash_table_loop nums (length seen) target num_map = [i; j] →
    ∀ a b, sums_to (seen ++ nums) target a b → (j ≤ b)%nat.
Proof.
  induction nums as [|num nums IH]; intros seen num_map i j Hmap Hnone;
    cbn; [done|].
  destruct (num_map !! (target - num)) as [j'|] eqn:Hlook.
  - intros [= <- <-] a b Hab.
    destruct (decide (length seen ≤ b)%nat) as [|Hb]; [done|].
    exfalso. apply (Hnone a b).
    destruct Hab as (Hlt & x & y & Ha & Hb' & Hxy).
    split; [done|]. exists x, y.
    rewrite lookup_app_l in Ha by lia. rewrite lookup_app_l in Hb' by lia.
    done.
  - intros Hloop a b Hab.
    specialize (IH (seen ++ [num]) (<[num := length seen]> num_map) i j).
    rewrite length_app, Nat.add_1_r, <- app_assoc in IH.
    apply (IH (map_of_seen_snoc _ _ _ Hmap)) with (a := a); [|done..].
    intros a' b' (Hlt' & x & y & Ha' & Hb' & Hxy).
    pose proof (lookup_lt_Some _ _ _ Hb') as Hlen.
    rewrite length_app in Hlen. cbn in Hlen.
    destruct (decide (b' = length seen)) as [->|Hne].
    + rewrite lookup_app_r, Nat.sub_diag in Hb' by done.
      injection Hb' as <-.
      rewrite lookup_app_l in Ha' by done.
      destruct Hmap as [_ Hall]. apply Hall in Ha' as [j' Hj'].
      replace x with (target - num) in Hj' by lia. congruence.
    + apply (Hnone a' b'). split; [done|]. exists x, y.
      rewrite lookup_app_l in Ha' by lia.
      rewrite lookup_app_l in Hb' by lia. done.
Qed.

(** X10.  When [two_sum_hash_table] returns [[i, j]], no pair of indices
    that sums to [target] has a second index smaller than [j]. *)
Theorem two_sum_hash_table_least_second (nums : list Z) (target : Z)
    (i j : nat) :
  two_sum_hash_table nums target = [i; j] →
  ∀ a b x y, (a < b)%nat → nums !! a = Some x → nums !! b = Some y →
             x + y = target → (j ≤ b)%nat.
Proof.
  intros Hr a b x y Hab Ha Hb Hxy.
  apply (two_sum_hash_table_loop_least target nums [] ∅ i j
           map_of_seen_empty) with (a := a); [|done|].
  - intros a' b' (_ & x' & _ & Ha' & _). done.
  - split; [done|]. by exists x, y.
Qed.

Lemma two_sum_hash_table_least_second_witness :
  two_sum_hash_table [3; 6; 2; 7] 9 = [0; 1]%nat ∧ (1 ≤ 3)%nat.
Proof.
  split; [reflexivity|].
  apply (two_sum_hash_table_least_second [3; 6; 2; 7] 9 0%nat 1%nat eq_refl
           2%nat 3%nat 2 7); [lia | reflexivity | reflexivity | reflexivity].
Defined.

End TwoSumMore.

Section RobustTwoSum.
Import TwoSum.

Lemma fold_min_Z_spec (nums : list Z) :
  ∀ x, let m := fold_left (λ m y, if y <? m then y else m) nums x in
       m ≤ x ∧ ∀ y, y ∈ nums → m ≤ y.
Proof.
  induction nums as [|z nums IH]; intros x; cbn.
  - split; [lia|]. by intros y ?%elem_of_nil.
  - destruct (IH (if z <? x then z else x)) as [Hx Hall].
    destruct (Z.ltb_spec z x); (split; [lia|]);
      intros y [->|Hy]%elem_of_cons; try lia; by apply Hall.
Qed.

Lemma fold_max_Z_spec (nums : list Z) :
  ∀ x, let m := fold_left (λ m y, if m <? y then y else m) nums x in
       x ≤ m ∧ ∀ y, y ∈ nums → y ≤ m.
Proof.
  induction nums as [|z nums IH]; intros x; cbn.
  - split; [lia|]. by intros y ?%elem_of_nil.
  - destruct (IH (if x <? z then z else x)) as [Hx Hall].
    destruct (Z.ltb_spec x z); (split; [lia|]);
      intros y [->|Hy]%elem_of_cons; try lia; by apply Hall.
Qed.

Lemma py_min_lower_bound (nums : list Z) (m : Z) :
  py_min nums = Some m → ∀ y, y ∈ nums → m ≤ y.
Proof.
  destruct nums as [|x nums]; [done|]. intros [= <-] y.
  destruct (fold_min_Z_spec nums x) as [Hx Hall].
  intros [->|Hy]%elem_of_cons; [done | by apply Hall].
Qed.

Lemma py_max_upper_bound (nums : list Z) (m : Z) :
  py_max nums = Some m → ∀ y, y ∈ nums → y ≤ m.
Proof.
  destruct nums as [|x nums]; [done|]. intros [= <-] y.
  destruct (fold_max_Z_spec nums x) as [Hx Hall].
  intros [->|Hy]%elem_of_cons; [done | by apply Hall].
Qed.

Lemma optimized_two_sum_no_pair (nums : list Z) (target : Z) :
  (∀ a b, ¬ sums_to nums target a b) → optimized_two_sum nums target = [].
Proof.
  intros Hnone. unfold optimized_two_sum. rewrite optimized_two_sum_loop_eq.
  destruct (two_sum_hash_table_spec nums target)
    as [[Hr _]|(i & j & _ & Hij)]; [done|].
  by destruct (Hnone i j).
Qed.

(** X11.  [robust_two_sum] never raises and returns exactly what
    [optimized_two_sum] returns: its early exits (short list, target
    below twice the minimum or above twice the maximum) only fire when
    there is no pair to find. *)
Theorem robust_two_sum_eq_optimized (nums : list Z) (target : Z) :
  robust_two_sum nums target = Some (optimized_two_sum nums target).
Proof.
  unfold robust_two_sum.
  destruct (bool_decide (nums = []) || (length nums <? 2)%nat) eqn:Hshort.
  { rewrite optimized_two_sum_no_pair; [done|].
    intros a b (Hlt & x & y & Ha & Hb & _).
    apply lookup_lt_Some in Hb.
    apply orb_true_iff in Hshort as [Hnil|Hlen].
    - apply bool_decide_eq_true in Hnil. subst. cbn in Hb. lia.
    - apply Nat.ltb_lt in Hlen. lia. }
  destruct nums as [|x nums]; [done|].
  destruct (py_min (x :: nums)) as [m|] eqn:Hmin; [|done].
  destruct (py_max (x :: nums)) as [M|] eqn:Hmax; [|done].
  cbn [mbind option_bind].
  destruct ((target <? m + m) || (M + M <? target)) eqn:Hquick; [|done].
  rewrite optimized_two_sum_no_pair; [done|].
  intros a b (Hlt & y & z & Ha & Hb & Hsum).
  apply list_elem_of_lookup_2 in Ha, Hb.
  pose proof (py_min_lower_bound _ _ Hmin y Ha).
  pose proof (py_min_lower_bound _ _ Hmin z Hb).
  pose proof (py_max_upper_bound _ _ Hmax y Ha).
  pose proof (py_max_upper_bound _ _ Hmax z Hb).
  apply orb_true_iff in Hquick as [Hq|Hq]; apply Z.ltb_lt in Hq; lia.
Qed.

End RobustTwoSum.

Section AllPairs.
Import TwoSum.

Variable target : Z.

Lemma two_sum_all_pairs_loop_inv (nums : list Z) :
  ∀ done_ pairs seen,
    all_pairs_inv target done_ pairs seen →
    ∃ seen', all_pairs_inv target (done_ ++ nums)
               (two_sum_all_pairs_loop nums target pairs seen) seen'.
Proof.
  induction nums as [|num nums IH]; intros done_ pairs seen Hinv; cbn.
  { exists seen. by rewrite app_nil_r. }
  set (pairs' := if bool_decide (target - num ∈ seen) then
                   if bool_decide ((Z.min num (target - num),
                                    Z.max num (target - num)) ∈ pairs)
                   then pairs
                   else pairs ++ [(Z.min num (target - num),
                                   Z.max num (target - num))]
                 else pairs).
  assert (all_pairs_inv target (done_ ++ [num]) pairs' ({[num]} ∪ seen))
    as Hstep.
  { destruct Hinv as [Hseen Hnodup Hsound Hcomplete].
    assert (∀ a b, (a, b) ∈ pairs →
              a ≤ b ∧ a + b = target ∧
              ∃ i j, i ≠ j ∧ (done_ ++ [num]) !! i = Some a ∧
                     (done_ ++ [num]) !! j = Some b) as Hold.
    { intros a b Hab. destruct (Hsound a b Hab) as (? & ? & i & j & ? & Hi & Hj).
      split; [done|]. split; [done|]. exists i, j.
      split; [done|]. split; by apply lookup_app_l_Some. }
    assert (target - num ∈ seen →
            Z.min num (target - num) ≤ Z.max num (target - num) ∧
            Z.min num (target - num) + Z.max num (target - num) = target ∧
            ∃ i j, i ≠ j ∧
                   (done_ ++ [num]) !! i = Some (Z.min num (target - num)) ∧
                   (done_ ++ [num]) !! j = Some (Z.max num (target - num)))
      as Hnew.
    { intros Hin. split; [lia|]. split; [lia|].
      apply Hseen in Hin. apply list_elem_of_lookup_1 in Hin as [i Hi].
      pose proof (lookup_lt_Some _ _ _ Hi) as Hlt.
      assert ((done_ ++ [num]) !! length done_ = Some num) as Hlast
        by (by rewrite lookup_app_r, Nat.sub_diag).
      apply (lookup_app_l_Some _ [num]) in Hi.
      destruct (Z.le_ge_cases num (target - num)).
      - rewrite Z.min_l, Z.max_r by lia. exists (length done_), i.
        split; [lia|done].
      - rewrite Z.min_r, Z.max_l by lia. exists i, (length done_).
        split; [lia|done]. }
    split.
    - intros v. rewrite elem_of_union, elem_of_singleton, elem_of_app,
        list_elem_of_singleton, Hseen. tauto.
    - unfold pairs'. repeat case_bool_decide; try done.
      apply NoDup_app. split; [done|]. split; [|apply NoDup_singleton].
      intros p Hp ->%list_elem_of_singleton. done.
    - intros a b. unfold pairs'. repeat case_bool_decide; try apply Hold.
      intros [Hab|[= -> ->]%list_elem_of_singleton]%elem_of_app;
        [by apply Hold | by apply Hnew].
    - intros i j x y Hij Hi Hj Hxy.
      pose proof (lookup_lt_Some _ _ _ Hj) as Hlen.
      rewrite length_app in Hlen. cbn in Hlen.
      assert ((Z.min x y, Z.max x y) ∈ pairs →
              (Z.min x y, Z.max x y) ∈ pairs') as Hkeep.
      { intros Hp. unfold pairs'. repeat case_bool_decide; try done.
        apply elem_of_app. by left. }
      destruct (decide (j = length done_)) as [->|Hne].
      + rewrite lookup_app_r, Nat.sub_diag in Hj by done. injection Hj as <-.
        rewrite lookup_app_l in Hi by done.
        assert (target - num ∈ seen) as Hin.
        { apply Hseen. replace (target - num) with x by lia.
          by eapply list_elem_of_lookup_2. }
        replace x with (target - num) by lia.
        rewrite Z.min_comm, Z.max_comm.
        unfold pairs'. rewrite bool_decide_true by done.
        case_bool_decide; [done|].
        apply elem_of_app. right. by apply list_elem_of_singleton.
      + rewrite lookup_app_l in Hi by lia. rewrite lookup_app_l in Hj by lia.
        apply Hkeep. exact (Hcomplete i j x y Hij Hi Hj Hxy). }
  destruct (IH _ _ _ Hstep) as [seen' Hend].
  rewrite <- app_assoc in Hend. by exists seen'.
Qed.

End AllPairs.

(** X12.  [two_sum_all_pairs] returns a list without duplicates of pairs
    [(a, b)] with [a <= b] and [a + b == target] whose two values stand at
    two different indices of [nums]; and for any two different indices whose
    items sum to [target], the pair of the two items, smaller one first, is
    in the list. *)
Theorem two_sum_all_pairs_correct (nums : list Z) (target : Z) :
  let pairs := TwoSum.two_sum_all_pairs nums target in
  NoDup pairs ∧
  (∀ a b, (a, b) ∈ pairs →
          a ≤ b ∧ a + b = target ∧
          ∃ i j, i ≠ j ∧ nums !! i = Some a ∧ nums !! j = Some b) ∧
  (∀ i j x y, i ≠ j → nums !! i = Some x → nums !! j = Some y →
              x + y = target → (Z.min x y, Z.max x y) ∈ pairs).
Proof.
  unfold TwoSum.two_sum_all_pairs.
  assert (all_pairs_inv target [] [] ∅) as Hinit.
  { split; [|apply NoDup_nil_2|..].
    - intros v. split; [by intros ?%elem_of_empty | by intros ?%elem_of_nil].
    - by intros a b ?%elem_of_nil.
    - by intros i j x y _ ?. }
  assert (∃ seen, all_pairs_inv target nums
                    (TwoSum.two_sum_all_pairs_loop nums target [] ∅) seen)
    as [seen [_ Hnodup Hsound Hcomplete]].
  { apply (two_sum_all_pairs_loop_inv target nums [] [] ∅ Hinit). }
  split; [done|]. split; [done|].
  intros i j x y Hij Hi Hj Hxy.
  destruct (decide (i < j)%nat).
  - by eapply Hcomplete.
  - rewrite Z.min_comm, Z.max_comm.
    eapply (Hcomplete j i y x); [lia|done..|lia].
Qed.

Section WithDuplicates.
Import TwoSum.

Lemma occurrences_from_app (v : Z) (l1 l2 : list Z) :
  ∀ i, occurrences_from v i (l1 ++ l2)
       = occurrences_from v i l1 ++ occurrences_from v (i + length l1) l2.
Proof.
  induction l1 as [|x l1 IH]; intros i; cbn.
  - by rewrite Nat.add_0_r.
  - rewrite IH, <- app_assoc. do 3 f_equal. lia.
Qed.

Lemma elem_of_occurrences_from (v : Z) (nums : list Z) :
  ∀ i j, j ∈ occurrences_from v i nums
         ↔ ∃ k, j = (i + k)%nat ∧ nums !! k = Some v.
Proof.
  induction nums as [|x nums IH]; intros i j; cbn.
  - split; [by intros ?%elem_of_nil | by intros (k & _ & ?)].
  - rewrite elem_of_app, IH. split.
    + intros [Hj|(k & -> & Hk)].
      * case_bool_decide; [|by apply elem_of_nil in Hj].
        apply list_elem_of_singleton in Hj. subst.
        exists 0%nat. split; [lia|done].
      * exists (S k). split; [lia|done].
    + intros ([|k] & -> & Hk); cbn in Hk.
      * left. injection Hk as ->. rewrite bool_decide_true by done.
        apply list_elem_of_singleton. lia.
      * right. exists k. split; [lia|done].
Qed.

Lemma occurrences_from_sorted (v : Z) (nums : list Z) :
  ∀ i, StronglySorted lt (occurrences_from v i nums).
Proof.
  induction nums as [|x nums IH]; intros i; cbn; [constructor|].
  case_bool_decide; cbn; [|apply IH].
  constructor; [apply IH|]. apply Forall_forall.
  intros j (k & -> & _)%elem_of_occurrences_from. lia.
Qed.

Lemma index_map_of_empty : index_map_of [] ∅.
Proof. intros v. by rewrite lookup_empty. Qed.

Lemma index_map_of_snoc (done_ : list Z) (num : Z)
    (index_map : gmap Z (list nat)) :
  index_map_of done_ index_map →
  index_map_of (done_ ++ [num])
    (<[num := default []
                ((match index_map !! num with
                  | None => <[num := []]> index_map
                  | Some _ => index_map
                  end) !! num) ++ [length done_]]>
       (match index_map !! num with
        | None => <[num := []]> index_map
        | Some _ => index_map
        end)).
Proof.
  intros Hmap v. rewrite occurrences_from_app. cbn.
  pose proof (Hmap v) as Hv. pose proof (Hmap num) as Hnum.
  destruct (decide (v = num)) as [->|Hne].
  - rewrite lookup_insert_eq, bool_decide_true by done. cbn.
    destruct (index_map !! num) as [indices|] eqn:Hlook.
    + rewrite Hlook. cbn.
      destruct (occurrences_from num 0 done_); [done|].
      by injection Hnum as ->.
    + rewrite lookup_insert_eq. cbn.
      by destruct (occurrences_from num 0 done_).
  - rewrite lookup_insert_ne by done.
    rewrite bool_decide_false by congruence. cbn. rewrite ?app_nil_r.
    destruct (index_map !! num); [done|]. by rewrite lookup_insert_ne.
Qed.

Lemma build_index_map_spec (nums : list Z) :
  ∀ done_ index_map,
    index_map_of done_ index_map →
    index_map_of (done_ ++ nums)
      (build_index_map nums (length done_) index_map).
Proof.
  induction nums as [|num nums IH]; intros done_ index_map Hmap; cbn.
  - by rewrite app_nil_r.
  - pose proof (IH _ _ (index_map_of_snoc _ num _ Hmap)) as Hnext.
    rewrite length_app, Nat.add_1_r, <- app_assoc in Hnext. exact Hnext.
Qed.

Variable nums : list Z.
Variable target : Z.
Variable index_map : gmap Z (list nat).
Hypothesis index_map_full : index_map_of nums index_map.

Lemma index_map_lookup_Some (v : Z) (indices : list nat) :
  index_map !! v = Some indices →
  indices = occurrences_from v 0 nums ∧ indices ≠ [].
Proof using index_map_full.
  rewrite index_map_full. destruct (occurrences_from v 0 nums); [done|].
  by intros [= <-].
Qed.

Lemma index_map_lookup_None (v : Z) (j : nat) :
  index_map !! v = None → nums !! j ≠ Some v.
Proof using index_map_full.
  rewrite index_map_full. intros Hnone Hj.
  assert (j ∈ occurrences_from v 0 nums) as Hin
    by (apply elem_of_occurrences_from; by exists j).
  destruct (occurrences_from v 0 nums); [by apply elem_of_nil in Hin|done].
Qed.

Lemma two_sum_with_duplicates_loop_spec (rest : list Z) :
  ∀ done_,
    nums = done_ ++ rest →
    (∀ a b x y, (a < length done_)%nat → a ≠ b → nums !! a = Some x →
                nums !! b = Some y → x + y ≠ target) →
    ∃ r, two_sum_with_duplicates_loop rest (length done_) target index_map
         = Some r ∧
         ((r = [] ∧ ∀ a b, ¬ sums_to nums target a b) ∨
          (∃ i j, r = [i; j] ∧ sums_to nums target i j)).
Proof using index_map_full.
  induction rest as [|num rest IH]; intros done_ Hnums Hdone; cbn.
  { exists []. split; [done|]. left. split; [done|].
    intros a b (Hlt & x & y & Ha & Hb & Hxy).
    apply (Hdone a b x y); [|lia|done..].
    apply lookup_lt_Some in Hb. rewrite Hnums, app_nil_r in Hb. lia. }
  assert (nums !! length done_ = Some num) as Hi
    by (by rewrite Hnums, lookup_app_r, Nat.sub_diag).
  assert ((∀ b y, b ≠ length done_ → nums !! b = Some y → num + y ≠ target) →
          ∃ r, two_sum_with_duplicates_loop rest (S (length done_)) target
                 index_map = Some r ∧
               ((r = [] ∧ ∀ a b, ¬ sums_to nums target a b) ∨
                (∃ i j, r = [i; j] ∧ sums_to nums target i j)))
    as Hcontinue.
  { intros Hnext. specialize (IH (done_ ++ [num])).
    rewrite length_app, Nat.add_1_r, <- app_assoc in IH.
    apply IH; [done|]. intros a b x y Ha Hab Hx Hy.
    destruct (decide (a = length done_)) as [->|Hne].
    - rewrite Hi in Hx. injection Hx as <-. by apply (Hnext b y).
    - apply (Hdone a b x y); [lia|done..]. }
  destruct (index_map !! (target - num)) as [complement_indices|] eqn:Hlook.
  - apply index_map_lookup_Some in Hlook as [-> Hne].
    destruct (Z.eqb_spec (target - num) num) as [Heq|Hneq].
    + rewrite Heq in *. rewrite index_map_full.
      destruct (occurrences_from num 0 nums) as [|first [|second more]]
        eqn:Hocc; [done| |].
      * cbn. apply Hcontinue. intros b y Hb Hy Hsum.
        assert (b ∈ occurrences_from num 0 nums) as Hin.
        { apply elem_of_occurrences_from. exists b. split; [done|].
          rewrite Hy. f_equal. lia. }
        assert (length done_ ∈ occurrences_from num 0 nums) as Hin'
          by (apply elem_of_occurrences_from; by exists (length done_)).
        rewrite Hocc in Hin, Hin'.
        apply list_elem_of_singleton in Hin, Hin'. lia.
      * cbn. exists [first; second]. split; [done|]. right.
        exists first, second. split; [done|].
        pose proof (occurrences_from_sorted num nums 0%nat) as Hsorted.
        rewrite Hocc in Hsorted.
        apply StronglySorted_inv in Hsorted as [_ Hfirst].
        apply Forall_cons in Hfirst as [Hlt _].
        assert (first ∈ occurrences_from num 0 nums) as Hin1
          by (rewrite Hocc; apply list_elem_of_here).
        assert (second ∈ occurrences_from num 0 nums) as Hin2
          by (rewrite Hocc; apply list_elem_of_further, list_elem_of_here).
        apply elem_of_occurrences_from in Hin1 as (k1 & -> & Hk1).
        apply elem_of_occurrences_from in Hin2 as (k2 & -> & Hk2).
        split; [done|]. exists num, num. split; [done|]. split; [done|]. lia.
    + destruct (occurrences_from (target - num) 0 nums) as [|first more]
        eqn:Hocc; [done|].
      cbn. exists [length done_; first]. split; [done|]. right.
      exists (length done_), first. split; [done|].
      assert (first ∈ occurrences_from (target - num) 0 nums) as Hin
        by (rewrite Hocc; apply list_elem_of_here).
      apply elem_of_occurrences_from in Hin as (k & -> & Hk). cbn.
      split.
      * destruct (decide (length done_ < k)%nat) as [|Hge]; [done|].
        exfalso.
        destruct (decide (k = length done_)) as [->|Hnek].
        { rewrite Hi in Hk. injection Hk as Hk. lia. }
        apply (Hdone k (length done_) (target - num) num); [lia|done..|lia].
      * exists num, (target - num). split; [done|]. split; [done|]. lia.
  - apply Hcontinue. intros b y Hb Hy Hsum.
    apply (index_map_lookup_None (target - num) b Hlook).
    rewrite Hy. f_equal. lia.
Qed.

End WithDuplicates.

(** X13.  [two_sum_with_duplicates] never raises; it returns [[]] when no
    two indices [a < b] hold items that sum to [target], and otherwise a
    pair [[i, j]] with [i < j] and [nums[i] + nums[j] == target] (two
    different indices also when both items are equal). *)
Theorem two_sum_with_duplicates_correct (nums : list Z) (target : Z) :
  ∃ r, TwoSum.two_sum_with_duplicates nums target = Some r ∧
       ((r = [] ∧ ∀ a b, ¬ sums_to nums target a b) ∨
        (∃ i j, r = [i; j] ∧ sums_to nums target i j)).
Proof.
  unfold TwoSum.two_sum_with_duplicates.
  apply (two_sum_with_duplicates_loop_spec nums target _
           (build_index_map_spec nums [] ∅ index_map_of_empty) nums []);
    [done|]. intros a b x y Ha. cbn in Ha. lia.
Qed.

(** *** Two pointers over the sorted tuples *)

Section TwoPointers.
Import TwoSum.

Lemma tuple_le_trans : Transitive tuple_le.
Proof. intros [x i] [y j] [z k]. unfold tuple_le. cbn. lia. Qed.

Lemma tuple_le_total : Total tuple_le.
Proof. intros [x i] [y j]. unfold tuple_le. cbn. lia. Qed.

(** [py_sort] returns the tuples in increasing order, and it is the only
    such arrangement of them. *)
Lemma py_sort_spec (indexed_nums : list (Z * nat)) :
  StronglySorted tuple_le (py_sort indexed_nums) ∧
  py_sort indexed_nums ≡ₚ indexed_nums ∧
  ∀ sorted, StronglySorted tuple_le sorted → sorted ≡ₚ indexed_nums →
            sorted = py_sort indexed_nums.
Proof.
  pose proof tuple_le_trans. pose proof tuple_le_total.
  split; [by apply StronglySorted_merge_sort|].
  split; [apply merge_sort_Permutation|].
  intros sorted Hsorted Hperm.
  apply (StronglySorted_unique_strong tuple_le); [|done| |].
  - intros [x i] [y j] _ _. unfold tuple_le. cbn. intros ? ?.
    f_equal; lia.
  - by apply StronglySorted_merge_sort.
  - rewrite Hperm. symmetry. apply merge_sort_Permutation.
Qed.

Lemma strongly_sorted_lookup_tuple (l : list (Z * nat)) :
  StronglySorted tuple_le l →
  ∀ a b x y, (a < b)%nat → l !! a = Some x → l !! b = Some y → x.1 ≤ y.1.
Proof.
  induction 1 as [|z l Hs IH Hall]; intros a b x y Hab Ha Hb; [done|].
  destruct a as [|a], b as [|b]; cbn in Ha, Hb; try lia.
  - injection Ha as <-. rewrite Forall_forall in Hall.
    assert (tuple_le z y) as Hle by (by eapply Hall, list_elem_of_lookup_2).
    unfold tuple_le in Hle. lia.
  - apply (IH a b); [lia | done..].
Qed.

Variable indexed_nums : list (Z * nat).
Variable target : Z.
Hypothesis by_value : ∀ a b x y,
  (a < b)%nat → indexed_nums !! a = Some x → indexed_nums !! b = Some y →
  x.1 ≤ y.1.

Lemma two_sum_two_pointers_loop_spec (fuel : nat) :
  ∀ left right,
    0 ≤ left → right < Z.of_nat (length indexed_nums) →
    Z.max 0 (right - left) < Z.of_nat fuel →
    (∀ a b x y, (a < b)%nat → indexed_nums !! a = Some x →
                indexed_nums !! b = Some y → x.1 + y.1 = target →
                left ≤ Z.of_nat a ∧ Z.of_nat b ≤ right) →
    ∃ r, two_sum_two_pointers_loop fuel indexed_nums target left right = Some r ∧
         ((r = [] ∧
           ∀ a b x y, (a < b)%nat → indexed_nums !! a = Some x →
                      indexed_nums !! b = Some y → x.1 + y.1 ≠ target) ∨
          (∃ a b x y, (a < b)%nat ∧ indexed_nums !! a = Some x ∧
                      indexed_nums !! b = Some y ∧ x.1 + y.1 = target ∧
                      r = py_sorted2 x.2 y.2)).
Proof using by_value.
  induction fuel as [|fuel IH]; intros left right Hleft Hright Hfuel Hin; [lia|].
  cbn [two_sum_two_pointers_loop].
  destruct (Z.ltb_spec left right) as [Hlt|Hge].
  - destruct (lookup_lt_is_Some_2 indexed_nums (Z.to_nat left))
      as [[lv li] Hl]; [lia|].
    destruct (lookup_lt_is_Some_2 indexed_nums (Z.to_nat right))
      as [[rv ri] Hr]; [lia|].
    rewrite !getitem_in_range by lia. rewrite Hl, Hr. cbn [mbind option_bind].
    destruct (Z.eqb_spec (lv + rv) target) as [Hsum|Hne].
    { eexists. split; [done|]. right.
      exists (Z.to_nat left), (Z.to_nat right), (lv, li), (rv, ri).
      repeat split; try done. lia. }
    destruct (Z.ltb_spec (lv + rv) target) as [Hless|Hmore].
    + apply IH; [lia..|]. intros a b x y Hab Ha Hb Hxy.
      destruct (Hin a b x y Hab Ha Hb Hxy) as [Hla Hbr]. split; [|done].
      destruct (decide (Z.of_nat a = left)) as [Heq|]; [|lia].
      replace (Z.to_nat left) with a in Hl by lia.
      assert (x = (lv, li)) as -> by congruence. cbn in Hxy.
      destruct (decide (b = Z.to_nat right)) as [->|].
      * assert (y = (rv, ri)) as -> by congruence. cbn in Hxy. lia.
      * pose proof (by_value b (Z.to_nat right) y (rv, ri) ltac:(lia) Hb Hr)
          as Hle. cbn in Hle. lia.
    + apply IH; [lia..|]. intros a b x y Hab Ha Hb Hxy.
      destruct (Hin a b x y Hab Ha Hb Hxy) as [Hla Hbr]. split; [done|].
      destruct (decide (Z.of_nat b = right)) as [Heq|]; [|lia].
      replace (Z.to_nat right) with b in Hr by lia.
      assert (y = (rv, ri)) as -> by congruence. cbn in Hxy.
      destruct (decide (a = Z.to_nat left)) as [->|].
      * assert (x = (lv, li)) as -> by congruence. cbn in Hxy. lia.
      * pose proof (by_value (Z.to_nat left) a (lv, li) x ltac:(lia) Hl Ha)
          as Hle. cbn in Hle. lia.
  - exists []. split; [done|]. left. split; [done|].
    intros a b x y Hab Ha Hb Hxy.
    destruct (Hin a b x y Hab Ha Hb Hxy). lia.
Qed.

End TwoPointers.

(** X14.  [two_sum_two_pointers] never raises; it returns [[]] when no two
    indices [a < b] of [nums] hold items that sum to [target], and
    otherwise a pair [[i, j]] with [i < j] and
    [nums[i] + nums[j] == target]. *)
Theorem two_sum_two_pointers_correct (nums : list Z) (target : Z) :
  ∃ r, TwoSum.two_sum_two_pointers nums target = Some r ∧
       ((r = [] ∧ ∀ a b, ¬ sums_to nums target a b) ∨
        (∃ i j, r = [i; j] ∧ sums_to nums target i j)).
Proof.
  unfold TwoSum.two_sum_two_pointers.
  set (tuples := imap (λ i num, (num, i)) nums).
  destruct (py_sort_spec tuples) as (Hsorted & Hperm & _).
  set (sorted := TwoSum.py_sort tuples) in *.
  assert (∀ a x, sorted !! a = Some x → nums !! x.2 = Some x.1) as Hback.
  { intros a x Ha. apply list_elem_of_lookup_2 in Ha. rewrite Hperm in Ha.
    apply elem_of_lookup_imap_1 in Ha as (i & v & -> & Hi). done. }
  assert (∀ i v, nums !! i = Some v → ∃ a, sorted !! a = Some (v, i)) as Hforth.
  { intros i v Hi. apply list_elem_of_lookup_1. rewrite Hperm.
    by apply (elem_of_lookup_imap_2 (λ i num, (num, i))). }
  assert (NoDup sorted) as Hnodup.
  { rewrite Hperm. apply NoDup_alt. intros a b x Ha Hb.
    apply list_lookup_imap_Some in Ha as (v & _ & ->).
    apply list_lookup_imap_Some in Hb as (v' & _ & Heq). congruence. }
  assert (∀ a b x y, a ≠ b → sorted !! a = Some x → sorted !! b = Some y →
                     x.2 ≠ y.2) as Hdiff.
  { intros a b [xv xi] [yv yi] Hab Ha Hb Heq. cbn in Heq. subst yi.
    pose proof (Hback a _ Ha) as Hx. pose proof (Hback b _ Hb) as Hy.
    cbn in Hx, Hy. assert (xv = yv) as -> by congruence.
    apply Hab. by eapply NoDup_lookup. }
  destruct (two_sum_two_pointers_loop_spec sorted target
              (strongly_sorted_lookup_tuple sorted Hsorted)
              (S (length sorted)) 0 (Z.of_nat (length sorted) - 1))
    as (r & Hloop & Hr); [lia..| |].
  { intros a b x y Hab Ha Hb _. apply lookup_lt_Some in Hb. lia. }
  exists r. split; [done|]. destruct Hr as [[-> Hnone]|Hfound].
  - left. split; [done|]. intros i j (Hij & x & y & Hi & Hj & Hxy).
    destruct (Hforth i x Hi) as [a Ha]. destruct (Hforth j y Hj) as [b Hb].
    destruct (lt_eq_lt_dec a b) as [[Hlt|Heq]|Hgt].
    + by apply (Hnone a b _ _ Hlt Ha Hb).
    + subst b. assert (i = j) by congruence. lia.
    + apply (Hnone b a _ _ Hgt Hb Ha). cbn. lia.
  - right. destruct Hfound as (a & b & [xv xi] & [yv yi] & Hab & Ha & Hb & Hxy & ->).
    pose proof (Hback a _ Ha) as Hx. pose proof (Hback b _ Hb) as Hy.
    pose proof (Hdiff a b _ _ ltac:(lia) Ha Hb) as Hne. cbn in Hx, Hy, Hxy, Hne |- *.
    unfold TwoSum.py_sorted2. destruct (Nat.ltb_spec yi xi).
    + exists yi, xi. split; [done|]. split; [done|].
      exists yv, xv. repeat split; try done. lia.
    + exists xi, yi. split; [done|]. split; [lia|].
      by exists xv, yv.
Qed.

(** ** Register simulator: reading bits and fields back *)

Section RegisterMore.
Import RegisterSimulator.

Lemma land_pow2_eq_0 (v q : Z) :
  0 ≤ q → (Z.land v (2 ^ q) =? 0) = negb (Z.testbit v q).
Proof.
  intros Hq. destruct (Z.testbit v q) eqn:Hbit; cbn.
  - apply Z.eqb_neq. intros Hzero.
    assert (Z.testbit (Z.land v (2 ^ q)) q = true) as Hq'
      by (by rewrite Z.land_spec, Hbit, Z.pow2_bits_true).
    by rewrite Hzero, Z.bits_0 in Hq'.
  - apply Z.eqb_eq. apply Z.bits_inj'. intros i Hi.
    rewrite Z.land_spec, Z.bits_0.
    destruct (decide (i = q)) as [->|Hne]; [by rewrite Hbit|].
    rewrite Z.pow2_bits_false by congruence. apply andb_false_r.
Qed.

(** At a valid position [test_bit] reads the bit of the value. *)
Lemma test_bit_valid (self : AdvancedRegisterSimulator) (q : Z) :
  0 ≤ q < width self →
  test_bit self q = Some (Z.testbit (value self) q).
Proof.
  intros Hq. unfold test_bit, _validate_position, Py.shiftl.
  destruct (Z.leb_spec 0 q); [|lia].
  destruct (Z.ltb_spec q (width self)); [|lia]. cbn.
  destruct (Z.ltb_spec q 0); [lia|]. cbn.
  rewrite Z.shiftl_1_l, land_pow2_eq_0 by lia. by rewrite negb_involutive.
Qed.

Lemma bit_op_valid (self : AdvancedRegisterSimulator) (p : Z) :
  0 ≤ p < width self →
  _validate_position self p = true ∧ Py.shiftl 1 p = Some (2 ^ p).
Proof.
  intros Hp. unfold _validate_position, Py.shiftl.
  destruct (Z.leb_spec 0 p); [|lia].
  destruct (Z.ltb_spec p (width self)); [|lia].
  destruct (Z.ltb_spec p 0); [lia|]. by rewrite Z.shiftl_1_l.
Qed.

(** X15.  At a valid position [p], [set_bit], [clear_bit] and
    [toggle_bit] succeed, and [test_bit] afterwards reads [True], [False]
    and the opposite of what it read before; at every other valid
    position [test_bit] reads what it read before. *)
Theorem bit_operations_read_back (self : AdvancedRegisterSimulator) (p : Z) :
  0 ≤ p < width self →
  ∃ set cleared toggled,
    set_bit self p = Some (set, true) ∧
    clear_bit self p = Some (cleared, true) ∧
    toggle_bit self p = Some (toggled, true) ∧
    test_bit set p = Some true ∧
    test_bit cleared p = Some false ∧
    test_bit toggled p = negb <$> test_bit self p ∧
    ∀ q, 0 ≤ q < width self → q ≠ p →
         test_bit set q = test_bit self q ∧
         test_bit cleared q = test_bit self q ∧
         test_bit toggled q = test_bit self q.
Proof.
  intros Hp. destruct (bit_op_valid self p Hp) as [Hvalid Hshift].
  unfold set_bit, clear_bit, toggle_bit. rewrite Hvalid, Hshift. cbn.
  do 3 eexists. split; [done|]. split; [done|]. split; [done|].
  rewrite !test_bit_valid by done. cbn.
  rewrite Z.lor_spec, Z.land_spec, Z.lnot_spec, Z.lxor_spec by lia.
  rewrite Z.pow2_bits_true by lia.
  split; [by rewrite orb_true_r|]. split; [by rewrite andb_false_r|].
  split; [by rewrite xorb_true_r|].
  intros q Hq Hne. rewrite !test_bit_valid by done. cbn.
  rewrite Z.lor_spec, Z.land_spec, Z.lnot_spec, Z.lxor_spec by lia.
  rewrite Z.pow2_bits_false by congruence. cbn.
  by rewrite orb_false_r, andb_true_r, xorb_false_r.
Qed.

Lemma bit_operations_read_back_witness :
  ∃ self set, init 16 "CTRL_REG" = Some self ∧
              set_bit self 15 = Some (set, true) ∧
              test_bit set 15 = Some true.
Proof.
  eexists. 
  destruct (bit_operations_read_back
              (Register 16 "CTRL_REG" 0 65535 [] ∅) 15)
    as (set & cleared & toggled & Hset & _ & _ & Htest & _); [by vm_compute|].
  exists set. split; [reflexivity|]. split; [exact Hset | exact Htest].
Defined.

Lemma extract_field_valid (self : AdvancedRegisterSimulator) (s w : Z) :
  0 ≤ s → 0 ≤ w → s + w ≤ width self →
  extract_field self s w
  = Some (Some (Z.land (Z.shiftr (value self) s) (Z.ones w))).
Proof.
  intros Hs Hw Hfit. unfold extract_field, Py.shiftl, Py.shiftr.
  destruct (Z.ltb_spec (width self) (s + w)); [lia|].
  destruct (Z.ltb_spec w 0); [lia|]. cbn.
  destruct (Z.ltb_spec s 0); [lia|]. cbn.
  by rewrite Z.shiftl_1_l, Z.sub_1_r, <- Z.ones_equiv.
Qed.

Lemma insert_field_valid (self : AdvancedRegisterSimulator) (s w v : Z) :
  0 ≤ s → 0 ≤ w → s + w ≤ width self → v < 2 ^ w →
  ∃ self', insert_field self s w v = Some (self', true) ∧
           width self' = width self ∧
           value self' = Z.lor (Z.land (value self)
                                  (Z.lnot (Z.shiftl (Z.ones w) s)))
                               (Z.shiftl v s).
Proof.
  intros Hs Hw Hfit Hv. unfold insert_field, Py.shiftl.
  destruct (Z.ltb_spec (width self) (s + w)); [lia|].
  destruct (Z.ltb_spec w 0); [lia|]. cbn.
  rewrite Z.shiftl_1_l.
  destruct (Z.leb_spec (2 ^ w) v); [lia|].
  destruct (Z.ltb_spec s 0); [lia|]. cbn.
  eexists. split; [done|]. cbn. split; [done|].
  by rewrite Z.sub_1_r, <- Z.ones_equiv.
Qed.

(** X16.  Inserting a non-negative value into a field leaves every field
    that does not overlap it as it was: [extract_field] of the other
    field returns the same value before and after. *)
Theorem insert_field_isolated (self : AdvancedRegisterSimulator)
    (s w v s' w' : Z) :
  0 ≤ s → 0 ≤ w → s + w ≤ width self → 0 ≤ v < 2 ^ w →
  0 ≤ s' → 0 ≤ w' → s' + w' ≤ width self →
  s' + w' ≤ s ∨ s + w ≤ s' →
  ∃ self', insert_field self s w v = Some (self', true) ∧
           extract_field self' s' w' = extract_field self s' w'.
Proof.
  intros Hs Hw Hfit Hv Hs' Hw' Hfit' Hdisjoint.
  destruct (insert_field_valid self s w v) as (self' & Hins & Hwidth & Hval);
    [lia..|].
  exists self'. split; [done|].
  rewrite !extract_field_valid by lia. do 2 f_equal.
  apply Z.bits_inj'. intros i Hi.
  rewrite !Z.land_spec, !Z.shiftr_spec by done.
  destruct (Z.lt_ge_cases i w') as [Hlt|Hge].
  2:{ rewrite Z.ones_spec_high by lia. by rewrite !andb_false_r. }
  f_equal. rewrite Hval, Z.lor_spec, Z.land_spec, Z.lnot_spec by lia.
  destruct (Z.lt_ge_cases (i + s') s) as [Hbelow|Habove].
  - rewrite (Z.shiftl_spec_low (Z.ones w)), (Z.shiftl_spec_low v) by lia.
    cbn. by rewrite andb_true_r, orb_false_r.
  - rewrite !Z.shiftl_spec by lia.
    rewrite Z.ones_spec_high by lia.
    rewrite (range_bits_above w v) by lia.
    cbn. by rewrite andb_true_r, orb_false_r.
Qed.

Lemma insert_field_isolated_witness :
  ∃ self',
    insert_field (Register 16 "FIELD_REG" 0x0500 65535 [] ∅) 2 4 15
      = Some (self', true) ∧
    value self' = 0x053C ∧
    extract_field (Register 16 "FIELD_REG" 0x0500 65535 [] ∅) 8 3
      = Some (Some 5) ∧
    extract_field self' 8 3 = Some (Some 5).
Proof.
  destruct (insert_field_isolated (Register 16 "FIELD_REG" 0x0500 65535 [] ∅)
              2 4 15 8 3) as (self' & Hins & Hext);
    [lia | lia | by vm_compute | lia | lia | lia | by vm_compute | lia |].
  exists self'. split; [exact Hins|]. split.
  - vm_compute in Hins. by injection Hins as <-.
  - split; [reflexivity|]. rewrite Hext. reflexivity.
Defined.

End RegisterMore.

(** *** The value of a register under its methods *)

Section RegisterCalls.
Import RegisterSimulator.

(** No method changes the width of the register. *)
Lemma call_width (self self' : AdvancedRegisterSimulator) (c : method_call) :
  call self c = Some self' → width self' = width self.
Proof.
  destruct c as [p|p|p|s w v|n|n]; cbn.
  - unfold set_bit. destruct (negb (_validate_position self p));
      [by intros [= <-]|].
    destruct (Py.shiftl 1 p); [cbn|done]. by intros [= <-].
  - unfold clear_bit. destruct (negb (_validate_position self p));
      [by intros [= <-]|].
    destruct (Py.shiftl 1 p); [cbn|done]. by intros [= <-].
  - unfold toggle_bit. destruct (negb (_validate_position self p));
      [by intros [= <-]|].
    destruct (Py.shiftl 1 p); [cbn|done]. by intros [= <-].
  - unfold insert_field. destruct (width self <? s + w); [by intros [= <-]|].
    destruct (Py.shiftl 1 w) as [limit|]; [cbn|done].
    destruct (limit <=? v); [by intros [= <-]|].
    destruct (Py.shiftl (limit - 1) s); [cbn|done].
    destruct (Py.shiftl v s); [cbn|done]. by intros [= <-].
  - unfold rotate_left.
    destruct (Py.mod_ n (width self)) as [n'|]; [cbn|done].
    destruct (Py.shiftl (value self) n'); [cbn|done].
    destruct (Py.shiftr (value self) (width self - n')); [cbn|done].
    by intros [= <-].
  - unfold rotate_right.
    destruct (Py.mod_ n (width self)) as [n'|]; [cbn|done].
    destruct (Py.shiftr (value self) n'); [cbn|done].
    destruct (Py.shiftl (value self) (width self - n')); [cbn|done].
    by intros [= <-].
Qed.

End RegisterCalls.

(** X17.  A register built by [__init__] keeps its value within
    [[0, 2^width - 1]] under every sequence of [set_bit], [clear_bit],
    [toggle_bit], [insert_field], [rotate_left] and [rotate_right] calls
    that returns and inserts no negative value. *)
Theorem register_value_in_width (w : Z) (name : string)
    (cs : list method_call)
    (self self' : RegisterSimulator.AdvancedRegisterSimulator) :
  RegisterSimulator.init w name = Some self →
  Forall inserts_nonneg cs →
  calls self cs = Some self' →
  RegisterSimulator.width self' = w ∧
  0 ≤ RegisterSimulator.value self' ≤ 2 ^ w - 1.
Proof.
  intros Hinit Hcs Hcalls.
  pose proof (init_in_width w name self Hinit) as Hin.
  assert (RegisterSimulator.width self = w) as Hw.
  { unfold RegisterSimulator.init in Hinit.
    destruct (Py.shiftl 1 w); [cbn in Hinit|done]. by injection Hinit as <-. }
  pose proof (calls_in_width cs self self' Hin Hcs Hcalls) as [Hw' Hmax Hval].
  assert (RegisterSimulator.width self' = w) as Hkeep.
  { rewrite <- Hw. clear -Hcalls. revert self Hcalls.
    induction cs as [|c cs IH]; intros self; cbn.
    { by intros [= <-]. }
    destruct (call self c) as [self1|] eqn:Hcall; [cbn|done].
    intros Hcalls. rewrite (IH _ Hcalls). clear IH Hcalls.
    by eapply call_width. }
  split; [done|]. rewrite Hmax, Hkeep in Hval. done.
Qed.

Lemma register_value_in_width_witness :
  ∃ self self',
    RegisterSimulator.init 8 "REG" = Some self ∧
    calls self [SetBit 7; InsertField 0 4 9; RotateLeft 3; ToggleBit 0]
      = Some self' ∧
    RegisterSimulator.width self' = 8 ∧
    0 ≤ RegisterSimulator.value self' ≤ 2 ^ 8 - 1.
Proof.
  exists (RegisterSimulator.Register 8 "REG" 0 255 [] ∅).
  eexists. split; [reflexivity|]. split; [vm_compute; reflexivity|].
  apply (register_value_in_width 8 "REG"
           [SetBit 7; InsertField 0 4 9; RotateLeft 3; ToggleBit 0]
           (RegisterSimulator.Register 8 "REG" 0 255 [] ∅)).
  - reflexivity.
  - repeat constructor; cbn; lia.
  - vm_compute; reflexivity.
Defined.

(** *** The history of a register *)

Section RegisterHistory.
Import RegisterSimulator.

(** A call either leaves the register as it is or logs one entry, from
    the value before to the value after. *)
Lemma call_history (self self' : AdvancedRegisterSimulator) (c : method_call) :
  call self c = Some self' →
  self' = self ∨
  ∃ op pos, history self' =
              history self ++ [LogEntry op pos (value self) (value self')].
Proof.
  destruct c as [p|p|p|s w v|n|n]; cbn.
  - unfold set_bit. destruct (negb (_validate_position self p));
      [intros [= <-]; by left|].
    destruct (Py.shiftl 1 p); [cbn|done]. intros [= <-]. right. by eexists _, _.
  - unfold clear_bit. destruct (negb (_validate_position self p));
      [intros [= <-]; by left|].
    destruct (Py.shiftl 1 p); [cbn|done]. intros [= <-]. right. by eexists _, _.
  - unfold toggle_bit. destruct (negb (_validate_position self p));
      [intros [= <-]; by left|].
    destruct (Py.shiftl 1 p); [cbn|done]. intros [= <-]. right. by eexists _, _.
  - unfold insert_field.
    destruct (width self <? s + w); [intros [= <-]; by left|].
    destruct (Py.shiftl 1 w) as [limit|]; [cbn|done].
    destruct (limit <=? v); [intros [= <-]; by left|].
    destruct (Py.shiftl (limit - 1) s); [cbn|done].
    destruct (Py.shiftl v s); [cbn|done].
    intros [= <-]. right. by eexists _, _.
  - unfold rotate_left.
    destruct (Py.mod_ n (width self)) as [n'|]; [cbn|done].
    destruct (Py.shiftl (value self) n'); [cbn|done].
    destruct (Py.shiftr (value self) (width self - n')); [cbn|done].
    intros [= <-]. right. by eexists _, _.
  - unfold rotate_right.
    destruct (Py.mod_ n (width self)) as [n'|]; [cbn|done].
    destruct (Py.shiftr (value self) n'); [cbn|done].
    destruct (Py.shiftl (value self) (width self - n')); [cbn|done].
    intros [= <-]. right. by eexists _, _.
Qed.

Lemma history_chain_snoc (start : Z) (history : list log_entry)
    (entry : log_entry) :
  history_chain start history →
  old_value entry = history_end start history →
  history_chain start (history ++ [entry]).
Proof.
  revert start. induction history as [|entry0 history IH]; intros start; cbn.
  { by intros _ ->. }
  intros [-> Hchain] Hold. split; [done|]. apply IH; [done|].
  rewrite Hold. unfold history_end.
  destruct history as [|entry1 history _] using rev_ind; [done|].
  by rewrite app_comm_cons, !last_snoc.
Qed.

(** The calls keep the history a chain that ends at the value of the
    register, and log at most one entry each. *)
Lemma calls_history (start : Z) (cs : list method_call) :
  ∀ self self',
    calls self cs = Some self' →
    history_chain start (history self) →
    history_end start (history self) = value self →
    history_chain start (history self') ∧
    history_end start (history self') = value self' ∧
    (length (history self') ≤ length (history self) + length cs)%nat.
Proof.
  induction cs as [|c cs IH]; intros self self'; cbn.
  { intros [= <-] Hchain Hend. repeat split; try done. lia. }
  destruct (call self c) as [self1|] eqn:Hcall; [cbn|done].
  intros Hcalls Hchain Hend.
  destruct (call_history self self1 c Hcall) as [->|(op & pos & Hlog)].
  - destruct (IH self self' Hcalls Hchain Hend) as (? & ? & ?).
    repeat split; try done. lia.
  - destruct (IH self1 self' Hcalls) as (? & ? & Hlen).
    + rewrite Hlog. apply history_chain_snoc; [done|]. by rewrite Hend.
    + rewrite Hlog. unfold history_end. by rewrite last_snoc.
    + repeat split; try done. rewrite Hlog, length_app in Hlen. cbn in Hlen. lia.
Qed.

End RegisterHistory.

(** X18.  On a register built by [__init__], after any sequence of
    [set_bit], [clear_bit], [toggle_bit], [insert_field], [rotate_left] and
    [rotate_right] calls that returns, the history is a chain of values: the
    first entry starts from 0, the old value of every later entry is the new
    value of the entry before it, and the new value of the last entry is
    the value of the register.  There is at most one entry per call. *)
Theorem register_history_chain (w : Z) (name : string) (cs : list method_call)
    (self self' : RegisterSimulator.AdvancedRegisterSimulator) :
  RegisterSimulator.init w name = Some self →
  calls self cs = Some self' →
  history_chain 0 (RegisterSimulator.history self') ∧
  history_end 0 (RegisterSimulator.history self') = RegisterSimulator.value self' ∧
  (length (RegisterSimulator.history self') ≤ length cs)%nat.
Proof.
  intros Hinit Hcalls. unfold RegisterSimulator.init in Hinit.
  destruct (Py.shiftl 1 w); [cbn in Hinit|done]. injection Hinit as <-.
  destruct (calls_history 0 cs _ self' Hcalls I eq_refl) as (? & ? & ?).
  done.
Qed.

Lemma register_history_chain_witness :
  ∃ self',
    calls (RegisterSimulator.Register 8 "REG" 0 255 [] ∅)
      [SetBit 7; SetBit 9; InsertField 0 4 9; RotateLeft 3] = Some self' ∧
    history_chain 0 (RegisterSimulator.history self') ∧
    history_end 0 (RegisterSimulator.history self') = RegisterSimulator.value self' ∧
    (length (RegisterSimulator.history self') ≤ 4)%nat.
Proof.
  eexists. split; [vm_compute; reflexivity|].
  apply (register_history_chain 8 "REG"
           [SetBit 7; SetBit 9; InsertField 0 4 9; RotateLeft 3]
           (RegisterSimulator.Register 8 "REG" 0 255 [] ∅)).
  - reflexivity.
  - vm_compute; reflexivity.
Defined.

Section RegisterRotate.
Import RegisterSimulator.

(** The bits of a left rotation by [c] of a [w]-bit value. *)
Lemma rotate_left_testbit (x w c i : Z) :
  0 ≤ x < 2 ^ w → 0 ≤ c < w → 0 ≤ i →
  Z.testbit (Z.land (Z.lor (Z.shiftl x c) (Z.shiftr x (w - c))) (2 ^ w - 1)) i
  = if i <? w then Z.testbit x ((i - c) mod w) else false.
Proof.
  intros Hx Hc Hi.
  rewrite Z.sub_1_r, <- Z.ones_equiv, Z.land_spec, Z.lor_spec,
    Z.shiftl_spec, Z.shiftr_spec by lia.
  destruct (Z.ltb_spec i w) as [Hlt|Hge].
  - rewrite Z.ones_spec_low, andb_true_r by lia.
    destruct (Z.lt_ge_cases i c) as [Hic|Hic].
    + rewrite (Z.testbit_neg_r x (i - c)), orb_false_l by lia.
      f_equal. replace (i - c) with (i + (w - c) + (-1) * w) by lia.
      rewrite Z.mod_add by lia. symmetry. apply Z.mod_small. lia.
    + rewrite (range_bits_above w x (i + (w - c))), orb_false_r by lia.
      f_equal. symmetry. apply Z.mod_small. lia.
  - rewrite Z.ones_spec_high by lia. apply andb_false_r.
Qed.

(** The bits of a right rotation by [c] of a [w]-bit value. *)
Lemma rotate_right_testbit (x w c i : Z) :
  0 ≤ x < 2 ^ w → 0 ≤ c < w → 0 ≤ i →
  Z.testbit (Z.land (Z.lor (Z.shiftr x c) (Z.shiftl x (w - c))) (2 ^ w - 1)) i
  = if i <? w then Z.testbit x ((i + c) mod w) else false.
Proof.
  intros Hx Hc Hi.
  rewrite Z.sub_1_r, <- Z.ones_equiv, Z.land_spec, Z.lor_spec,
    Z.shiftl_spec, Z.shiftr_spec by lia.
  destruct (Z.ltb_spec i w) as [Hlt|Hge].
  - rewrite Z.ones_spec_low, andb_true_r by lia.
    destruct (Z.lt_ge_cases (i + c) w) as [Hic|Hic].
    + rewrite (Z.testbit_neg_r x (i - (w - c))), orb_false_r by lia.
      f_equal. symmetry. apply Z.mod_small. lia.
    + rewrite (range_bits_above w x (i + c)), orb_false_l by lia.
      f_equal. replace (i + c) with (i - (w - c) + 1 * w) by lia.
      rewrite Z.mod_add by lia. symmetry. apply Z.mod_small. lia.
  - rewrite Z.ones_spec_high by lia. apply andb_false_r.
Qed.

Lemma rotate_left_value (self : AdvancedRegisterSimulator) (count : Z) :
  0 < width self →
  ∃ self', rotate_left self count = Some self' ∧
           width self' = width self ∧ max_value self' = max_value self ∧
           value self'
           = Z.land (Z.lor (Z.shiftl (value self) (count mod width self))
                           (Z.shiftr (value self)
                              (width self - count mod width self)))
                    (max_value self).
Proof.
  intros Hw. unfold rotate_left, Py.mod_, Py.shiftl, Py.shiftr.
  pose proof (Z.mod_pos_bound count (width self) Hw) as Hc.
  destruct (Z.eqb_spec (width self) 0); [lia|]. cbn.
  destruct (Z.ltb_spec (count mod width self) 0); [lia|]. cbn.
  destruct (Z.ltb_spec (width self - count mod width self) 0); [lia|]. cbn.
  by eexists.
Qed.

Lemma rotate_right_value (self : AdvancedRegisterSimulator) (count : Z) :
  0 < width self →
  ∃ self', rotate_right self count = Some self' ∧
           width self' = width self ∧ max_value self' = max_value self ∧
           value self'
           = Z.land (Z.lor (Z.shiftr (value self) (count mod width self))
                           (Z.shiftl (value self)
                              (width self - count mod width self)))
                    (max_value self).
Proof.
  intros Hw. unfold rotate_right, Py.mod_, Py.shiftl, Py.shiftr.
  pose proof (Z.mod_pos_bound count (width self) Hw) as Hc.
  destruct (Z.eqb_spec (width self) 0); [lia|]. cbn.
  destruct (Z.ltb_spec (count mod width self) 0); [lia|]. cbn.
  destruct (Z.ltb_spec (width self - count mod width self) 0); [lia|]. cbn.
  by eexists.
Qed.

(** X19.  On a register of positive width whose value is in range,
    [rotate_left] by any count followed by [rotate_right] by the same
    count gives back the value, and so does [rotate_right] followed by
    [rotate_left]. *)
Theorem rotate_round_trip (self : AdvancedRegisterSimulator) (count : Z) :
  in_width self → 0 < width self →
  (∃ left back, rotate_left self count = Some left ∧
                rotate_right left count = Some back ∧
                value back = value self) ∧
  (∃ right back, rotate_right self count = Some right ∧
                 rotate_left right count = Some back ∧
                 value back = value self).
Proof.
  intros Hin Hw. pose proof Hin as [_ Hmax Hval].
  pose proof (Z.mod_pos_bound count (width self) Hw) as Hc.
  assert (0 ≤ value self < 2 ^ width self) as Hrange by lia.
  split.
  - destruct (rotate_left_value self count Hw) as (left & Hl & Hwl & Hml & Hvl).
    pose proof (rotate_left_in_width _ _ _ Hin Hl) as [_ Hmaxl Hvall].
    destruct (rotate_right_value left count) as (back & Hb & _ & _ & Hvb);
      [lia|].
    exists left, back. split; [done|]. split; [done|].
    rewrite Hvb, Hml, Hwl, Hmax. apply Z.bits_inj'. intros i Hi.
    rewrite rotate_right_testbit by lia.
    destruct (Z.ltb_spec i (width self)) as [Hlt|Hge].
    2:{ symmetry. apply (range_bits_above (width self)); lia. }
    pose proof (Z.mod_pos_bound (i + count mod width self) (width self) Hw).
    rewrite Hvl, Hmax, rotate_left_testbit by lia.
    destruct (Z.ltb_spec ((i + count mod width self) mod width self)
                (width self)); [|lia].
    f_equal. rewrite Zminus_mod_idemp_l.
    replace (i + count mod width self - count mod width self) with i by lia.
    apply Z.mod_small. lia.
  - destruct (rotate_right_value self count Hw)
      as (right & Hr & Hwr & Hmr & Hvr).
    pose proof (rotate_right_in_width _ _ _ Hin Hr) as [_ Hmaxr Hvalr].
    destruct (rotate_left_value right count) as (back & Hb & _ & _ & Hvb);
      [lia|].
    exists right, back. split; [done|]. split; [done|].
    rewrite Hvb, Hmr, Hwr, Hmax. apply Z.bits_inj'. intros i Hi.
    rewrite rotate_left_testbit by lia.
    destruct (Z.ltb_spec i (width self)) as [Hlt|Hge].
    2:{ symmetry. apply (range_bits_above (width self)); lia. }
    pose proof (Z.mod_pos_bound (i - count mod width self) (width self) Hw).
    rewrite Hvr, Hmax, rotate_right_testbit by lia.
    destruct (Z.ltb_spec ((i - count mod width self) mod width self)
                (width self)); [|lia].
    f_equal. rewrite Zplus_mod_idemp_l.
    replace (i - count mod width self + count mod width self) with i by lia.
    apply Z.mod_small. lia.
Qed.

Lemma rotate_round_trip_witness :
  ∃ left back,
    rotate_left (Register 16 "CTRL_REG" 0x8001 65535 [] ∅) 3 = Some left ∧
    value left = 0x000C ∧
    rotate_right left 3 = Some back ∧
    value back = 0x8001.
Proof.
  destruct (rotate_round_trip (Register 16 "CTRL_REG" 0x8001 65535 [] ∅) 3)
    as [(left & back & Hl & Hb & Hv) _].
  - split; by vm_compute.
  - by vm_compute.
  - exists left, back. split; [exact Hl|]. split.
    + vm_compute in Hl. by injection Hl as <-.
    + split; [exact Hb | exact Hv].
Defined.

End RegisterRotate.

Section RegisterCounting.
Import RegisterSimulator.

Lemma popcount_double (y : Z) : 0 ≤ y → popcount (2 * y) = popcount y.
Proof. intros Hy. by destruct y. Qed.

Lemma pos_popcount_pos (p : positive) : 0 < pos_popcount p.
Proof. induction p; cbn; lia. Qed.

Lemma popcount_nonneg (x : Z) : 0 ≤ popcount x.
Proof. destruct x; cbn; [lia| |lia]. pose proof (pos_popcount_pos p). lia. Qed.

Lemma land_odd_pred (a : Z) : Z.land (2 * a + 1) (2 * a) = 2 * a.
Proof.
  apply Z.bits_inj'. intros i Hi. rewrite Z.land_spec.
  destruct (Z.eq_dec i 0) as [->|Hne].
  - rewrite Z.testbit_even_0. apply andb_false_r.
  - replace i with (Z.succ (i - 1)) by lia.
    rewrite Z.testbit_odd_succ, Z.testbit_even_succ by lia.
    apply andb_diag.
Qed.

Lemma land_even_pred (a : Z) :
  Z.land (2 * a) (2 * a - 1) = 2 * Z.land a (a - 1).
Proof.
  replace (2 * a - 1) with (2 * (a - 1) + 1) by lia.
  apply Z.bits_inj'. intros i Hi. rewrite Z.land_spec.
  destruct (Z.eq_dec i 0) as [->|Hne].
  - by rewrite !Z.testbit_even_0.
  - replace i with (Z.succ (i - 1)) by lia.
    rewrite Z.testbit_odd_succ, !Z.testbit_even_succ by lia.
    by rewrite Z.land_spec.
Qed.

(** [temp & (temp - 1)] clears one set bit. *)
Lemma popcount_clear_lowest (p : positive) :
  0 ≤ Z.land (Z.pos p) (Z.pos p - 1) ∧
  popcount (Z.land (Z.pos p) (Z.pos p - 1)) = pos_popcount p - 1.
Proof.
  induction p as [q IH|q IH|].
  - change (Z.pos q~1) with (2 * Z.pos q + 1).
    replace (2 * Z.pos q + 1 - 1) with (2 * Z.pos q) by lia.
    rewrite land_odd_pred. split; [lia|].
    rewrite popcount_double by lia. cbn [popcount pos_popcount]. lia.
  - change (Z.pos q~0) with (2 * Z.pos q).
    rewrite land_even_pred. destruct IH as [Hnonneg IH].
    split; [lia|]. rewrite popcount_double by done. rewrite IH. done.
  - done.
Qed.

Lemma pos_popcount_size (p : positive) : pos_popcount p ≤ Z.pos (Pos.size p).
Proof. induction p; cbn [pos_popcount Pos.size]; lia. Qed.

Lemma popcount_log2 (x : Z) : 0 < x → popcount x ≤ Z.log2 x + 1.
Proof.
  destruct x as [|p|p]; [lia| |lia]. intros _.
  pose proof (pos_popcount_size p) as Hsize.
  destruct p as [q|q|]; cbn [popcount Z.log2 Pos.size] in *; lia.
Qed.

Lemma count_set_bits_loop_spec (fuel : nat) :
  ∀ count temp,
    0 ≤ temp → popcount temp < Z.of_nat fuel →
    count_set_bits_loop fuel count temp = Some (count + popcount temp).
Proof.
  induction fuel as [|fuel IH]; intros count temp Htemp Hfuel.
  { pose proof (popcount_nonneg temp). lia. }
  cbn [count_set_bits_loop].
  destruct temp as [|p|p]; [|clear Htemp|lia].
  - cbn. f_equal. lia.
  - destruct (popcount_clear_lowest p) as [Hnonneg Hpop].
    change (negb (Z.pos p =? 0)) with true. cbn [popcount] in *.
    rewrite IH by lia. f_equal. lia.
Qed.

(** X20.  For a register whose value is not negative, [count_set_bits]
    returns the number of 1 digits of the binary numeral of the value. *)
Theorem count_set_bits_correct (self : AdvancedRegisterSimulator) :
  0 ≤ value self → count_set_bits self = Some (popcount (value self)).
Proof.
  intros Hv. unfold count_set_bits.
  rewrite count_set_bits_loop_spec; [done|done|].
  destruct (Z.eq_dec (value self) 0) as [->|Hne]; [cbn; lia|].
  pose proof (popcount_log2 (value self)). pose proof (Z.log2_nonneg (value self)).
  lia.
Qed.

Lemma count_set_bits_correct_witness :
  count_set_bits (Register 16 "CTRL_REG" 0xA005 65535 [] ∅) = Some 4.
Proof.
  by rewrite (count_set_bits_correct (Register 16 "CTRL_REG" 0xA005 65535 [] ∅))
    by (by vm_compute).
Defined.

Lemma find_first_set_loop_spec (fuel : nat) :
  ∀ position temp,
    0 < temp → Z.log2 temp < Z.of_nat fuel →
    ∃ k, find_first_set_loop fuel position temp = Some (position + k) ∧
         0 ≤ k ≤ Z.log2 temp ∧ Z.testbit temp k = true ∧
         ∀ q, 0 ≤ q < k → Z.testbit temp q = false.
Proof.
  induction fuel as [|fuel IH]; intros position temp Htemp Hfuel.
  { pose proof (Z.log2_nonneg temp). lia. }
  cbn [find_first_set_loop].
  change 1 with (2 ^ 0) at 1. rewrite land_pow2_eq_0 by lia.
  destruct (Z.testbit temp 0) eqn:Hbit0; cbn.
  - exists 0. rewrite Z.add_0_r. split; [done|].
    pose proof (Z.log2_nonneg temp). split; [lia|]. split; [done|]. lia.
  - assert (2 ≤ temp) as Hge2.
    { destruct (Z.eq_dec temp 1) as [->|]; [done|]. lia. }
    assert (Z.log2 (Z.shiftr temp 1) = Z.log2 temp - 1) as Hlog
      by (rewrite Z.log2_shiftr by lia; pose proof (Z.log2_pos temp); lia).
    assert (0 < Z.shiftr temp 1) as Hpos.
    { rewrite Z.shiftr_div_pow2 by lia. change (2 ^ 1) with 2.
      Z.to_euclidean_division_equations. lia. }
    destruct (IH (position + 1) (Z.shiftr temp 1)) as (k & Hk & Hrange & Hset & Hlow);
      [done|lia|].
    exists (k + 1). split; [rewrite Hk; f_equal; lia|].
    split; [lia|]. split.
    + rewrite Z.shiftr_spec in Hset by lia. done.
    + intros q Hq. destruct (Z.eq_dec q 0) as [->|Hne]; [done|].
      specialize (Hlow (q - 1) ltac:(lia)).
      rewrite Z.shiftr_spec in Hlow by lia.
      by replace (q - 1 + 1) with q in Hlow by lia.
Qed.

(** X21.  For a positive value, [find_first_set] returns the position of
    the lowest set bit and [find_last_set] the position of the highest
    one; for the value 0 both return [-1]. *)
Theorem find_first_last_set_correct (self : AdvancedRegisterSimulator) :
  (0 < value self →
   ∃ lo, find_first_set self = Some lo ∧
         0 ≤ lo ≤ find_last_set self ∧
         Z.testbit (value self) lo = true ∧
         (∀ q, 0 ≤ q < lo → Z.testbit (value self) q = false) ∧
         Z.testbit (value self) (find_last_set self) = true ∧
         (∀ q, find_last_set self < q → Z.testbit (value self) q = false)) ∧
  (value self = 0 →
   find_first_set self = Some (-1) ∧ find_last_set self = -1).
Proof.
  split.
  - intros Hpos. unfold find_first_set, find_last_set, bit_length.
    destruct (Z.eqb_spec (value self) 0); [lia|].
    rewrite Z.abs_eq by lia.
    replace (Z.log2 (value self) + 1 - 1) with (Z.log2 (value self)) by lia.
    pose proof (Z.log2_nonneg (value self)).
    destruct (find_first_set_loop_spec
                (S (Z.to_nat (Z.log2 (value self) + 1))) 0 (value self))
      as (k & Hk & Hrange & Hset & Hlow); [done|lia|].
    exists k. rewrite Z.add_0_l in Hk.
    split; [done|]. split; [done|]. split; [done|]. split; [done|].
    split; [by apply Z.bit_log2|].
    intros q Hq. apply Z.bits_above_log2; lia.
  - intros Hzero. unfold find_first_set, find_last_set. by rewrite Hzero.
Qed.

Lemma find_first_last_set_correct_witness :
  ∃ lo, find_first_set (Register 16 "CTRL_REG" 0xA0 65535 [] ∅) = Some lo ∧
        0 ≤ lo.
Proof.
  destruct (find_first_last_set_correct
              (Register 16 "CTRL_REG" 0xA0 65535 [] ∅)) as [Hpos _].
  destruct Hpos as (lo & Hlo & Hrange & _); [by vm_compute|].
  exists lo. split; [exact Hlo | lia].
Defined.

End RegisterCounting.

(** ** The register classes *)

Section RegisterBankProofs.
Import RegisterBank.

Lemma init_bank_wf (num_banks reg_per_bank : Z) :
  0 < num_banks → 0 ≤ reg_per_bank → bank_wf (init num_banks reg_per_bank).
Proof.
  intros Hn Hr. split; cbn.
  - rewrite length_replicate. lia.
  - apply Forall_replicate. rewrite length_replicate. lia.
  - lia.
Qed.

Lemma switch_bank_wf (self : RegisterBank) (bank_id : Z) :
  bank_wf self → bank_wf (switch_bank self bank_id).
Proof.
  intros [Hn Hr Ha]. unfold switch_bank.
  destruct (Z.leb_spec 0 bank_id), (Z.ltb_spec bank_id (num_banks self));
    cbn; split; cbn; try done; lia.
Qed.

(** Reading register [reg_id] of the active bank of a well-formed bank
    file. *)
Lemma read_register_valid (self : RegisterBank) (reg_id : Z) :
  bank_wf self → 0 ≤ reg_id < reg_per_bank self →
  read_register self reg_id
  = banks self !! Z.to_nat (active_bank self)
      ≫= λ bank, bank !! Z.to_nat reg_id.
Proof.
  intros [Hn Hr Ha] Hreg. unfold read_register.
  destruct (Z.leb_spec 0 reg_id); [|lia].
  destruct (Z.ltb_spec reg_id (reg_per_bank self)); [|lia]. cbn.
  rewrite getitem_in_range by lia.
  destruct (banks self !! Z.to_nat (active_bank self)) as [bank|] eqn:Hbank;
    [cbn|done].
  rewrite Forall_forall in Hr.
  rewrite getitem_in_range; [done|].
  rewrite (Hr bank); [lia|]. by eapply list_elem_of_lookup_2.
Qed.

(** X22.  In a well-formed bank file, writing a valid register of the
    active bank succeeds; the register then reads back the value written,
    the other registers of the bank read as before, and every register
    of every other bank reads as before once that bank is switched
    in. *)
Theorem write_register_isolated (self : RegisterBank) (reg_id value : Z) :
  bank_wf self → 0 ≤ reg_id < reg_per_bank self →
  ∃ self',
    write_register self reg_id value = Some self' ∧ bank_wf self' ∧
    read_register self' reg_id = Some value ∧
    (∀ other, other ≠ reg_id →
              read_register self' other = read_register self other) ∧
    (∀ bank_id other, 0 ≤ bank_id < num_banks self →
                      bank_id ≠ active_bank self →
                      read_register (switch_bank self' bank_id) other
                      = read_register (switch_bank self bank_id) other).
Proof.
  intros Hwf Hreg. pose proof Hwf as [Hn Hr Ha].
  unfold write_register.
  destruct (Z.leb_spec 0 reg_id); [|lia].
  destruct (Z.ltb_spec reg_id (reg_per_bank self)); [|lia]. cbn.
  destruct (Z.leb_spec 0 (active_bank self)); [|lia].
  rewrite getitem_in_range by lia.
  destruct (lookup_lt_is_Some_2 (banks self) (Z.to_nat (active_bank self)))
    as [bank Hbank]; [lia|].
  rewrite Hbank. cbn.
  assert (Z.of_nat (length bank) = reg_per_bank self) as Hlen.
  { rewrite Forall_forall in Hr. apply Hr. by eapply list_elem_of_lookup_2. }
  rewrite getitem_in_range by lia.
  destruct (lookup_lt_is_Some_2 bank (Z.to_nat reg_id)) as [old Hold]; [lia|].
  rewrite Hold. cbn.
  set (self' := Bank _ _ _ _).
  assert (bank_wf self') as Hwf'.
  { split; cbn.
    - by rewrite length_insert.
    - apply Forall_insert; [done|]. by rewrite length_insert.
    - done. }
  exists self'. split; [done|]. split; [done|].
  split; [|split].
  - rewrite read_register_valid by done. cbn.
    rewrite list_lookup_insert_eq by lia. cbn.
    apply list_lookup_insert_eq. lia.
  - intros other Hother. unfold read_register. cbn.
    destruct ((0 <=? other) && (other <? reg_per_bank self)) eqn:Hvalid;
      [|done].
    apply andb_true_iff in Hvalid as [Hlo%Z.leb_le Hhi%Z.ltb_lt].
    rewrite !getitem_in_range by (rewrite ?length_insert; lia).
    rewrite list_lookup_insert_eq, Hbank by lia. cbn.
    rewrite !getitem_in_range by (rewrite ?length_insert; lia).
    apply list_lookup_insert_ne. lia.
  - intros bank_id other Hvalid Hbank_id. unfold switch_bank. cbn.
    destruct (Z.leb_spec 0 bank_id); [|lia].
    destruct (Z.ltb_spec bank_id (num_banks self)); [|lia]. cbn.
    unfold read_register. cbn.
    destruct ((0 <=? other) && (other <? reg_per_bank self)); [|done].
    rewrite !getitem_in_range by (rewrite ?length_insert; lia).
    rewrite list_lookup_insert_ne by lia. done.
Qed.

Lemma write_register_isolated_witness :
  ∃ self', write_register (init 4 16) 0 0xDEADBEEF = Some self' ∧
           read_register self' 0 = Some 0xDEADBEEF.
Proof.
  destruct (write_register_isolated (init 4 16) 0 0xDEADBEEF)
    as (self' & Hwrite & _ & Hread & _).
  - apply init_bank_wf; lia.
  - by vm_compute.
  - by exists self'.
Defined.

End RegisterBankProofs.

(** *** Memory-mapped and shadow registers *)

Section RegisterClasses.

Lemma mmio_write_spec (self : MemoryMappedRegister.MemoryMappedRegister)
    (address value_ : Z) :
  0 ≤ MemoryMappedRegister.size self →
  MemoryMappedRegister.write self address value_ =
    Some (if address =? MemoryMappedRegister.base_address self
          then MemoryMappedRegister.Register
                 (MemoryMappedRegister.base_address self)
                 (MemoryMappedRegister.size self)
                 (value_ mod 2 ^ MemoryMappedRegister.size self)
          else self).
Proof.
  intros Hsize. unfold MemoryMappedRegister.write, Py.shiftl.
  destruct (address =? MemoryMappedRegister.base_address self); [|done].
  destruct (Z.ltb_spec (MemoryMappedRegister.size self) 0); [lia|]. cbn.
  rewrite Z.shiftl_1_l, Z.sub_1_r, <- Z.ones_equiv. by rewrite Z.land_ones.
Qed.

Lemma last_write_to_cons (address : Z) (w : Z * Z) (ws : list (Z * Z)) :
  last_write_to address (w :: ws) =
    match last_write_to address ws with
    | Some v => Some v
    | None => if w.1 =? address then Some w.2 else None
    end.
Proof.
  unfold last_write_to. cbn [List.filter].
  destruct (w.1 =? address).
  - destruct (List.filter (λ w0 : Z * Z, w0.1 =? address) ws) as [|w' ws' _]
      using rev_ind; [done|].
    by rewrite app_comm_cons, !last_snoc.
  - by destruct (list.last (List.filter (λ w0 : Z * Z, w0.1 =? address) ws)).
Qed.

End RegisterClasses.

(** X23.  After any sequence of writes to a memory-mapped register of a
    non-negative size, a read at the base address returns the value of the
    last write that went to the base address, reduced modulo [2^size] (the
    value held before when there was none): writes to other addresses
    change nothing.  A read at any other address returns 0. *)
Theorem mmio_read_last_write (self : MemoryMappedRegister.MemoryMappedRegister)
    (ws : list (Z * Z)) :
  0 ≤ MemoryMappedRegister.size self →
  ∃ self',
    mmio_writes self ws = Some self' ∧
    MemoryMappedRegister.base_address self'
      = MemoryMappedRegister.base_address self ∧
    MemoryMappedRegister.read self' (MemoryMappedRegister.base_address self)
      = match last_write_to (MemoryMappedRegister.base_address self) ws with
        | Some value_ => value_ mod 2 ^ MemoryMappedRegister.size self
        | None => MemoryMappedRegister.value self
        end ∧
    ∀ address, address ≠ MemoryMappedRegister.base_address self →
               MemoryMappedRegister.read self' address = 0.
Proof.
  revert self. induction ws as [|[address value_] ws IH]; intros self Hsize.
  - exists self. split; [done|]. split; [done|].
    unfold MemoryMappedRegister.read. rewrite Z.eqb_refl. split; [done|].
    intros address Hne. by destruct (Z.eqb_spec address
      (MemoryMappedRegister.base_address self)).
  - cbn [mmio_writes]. rewrite mmio_write_spec by done. cbn [mbind option_bind].
    rewrite last_write_to_cons. cbn [fst snd].
    destruct (Z.eqb_spec address (MemoryMappedRegister.base_address self))
      as [->|Hne].
    + destruct (IH (MemoryMappedRegister.Register
                      (MemoryMappedRegister.base_address self)
                      (MemoryMappedRegister.size self)
                      (value_ mod 2 ^ MemoryMappedRegister.size self)))
        as (self' & Hws & Hbase & Hread & Hother); [done|].
      cbn in Hbase, Hread, Hother. exists self'. repeat split; try done.
      rewrite Hread.
      by destruct (last_write_to (MemoryMappedRegister.base_address self) ws).
    + destruct (IH self Hsize) as (self' & Hws & Hbase & Hread & Hother).
      exists self'. repeat split; try done. rewrite Hread.
      by destruct (last_write_to (MemoryMappedRegister.base_address self) ws).
Qed.

Lemma mmio_read_last_write_witness :
  ∃ self',
    mmio_writes (MemoryMappedRegister.init 0x40020000 32)
      [(0x40020000, 0x12345678); (0x40020004, 7)] = Some self' ∧
    MemoryMappedRegister.read self' 0x40020000 = 0x12345678.
Proof.
  destruct (mmio_read_last_write (MemoryMappedRegister.init 0x40020000 32)
              [(0x40020000, 0x12345678); (0x40020004, 7)])
    as (self' & Hws & _ & Hread & _).
  - cbn. lia.
  - exists self'. split; [exact Hws | exact Hread].
Defined.

(** X24.  On a shadow register of a non-negative width, writes to the
    shadow leave the main value as it was; the commit that follows them
    publishes the last value written, reduced modulo [2^width], and a
    second commit changes nothing. *)
Theorem shadow_commit_publishes_last (self : ShadowRegister.ShadowRegister)
    (values : list Z) (value_ : Z) :
  0 ≤ ShadowRegister.width self →
  ∃ self',
    shadow_writes self (values ++ [value_]) = Some self' ∧
    ShadowRegister.read_main self' = ShadowRegister.read_main self ∧
    ShadowRegister.read_main (ShadowRegister.commit_shadow self')
      = value_ mod 2 ^ ShadowRegister.width self ∧
    ShadowRegister.commit_shadow (ShadowRegister.commit_shadow self')
      = ShadowRegister.commit_shadow self'.
Proof.
  revert self. induction values as [|value0 values IH]; intros self Hwidth.
  - cbn. unfold ShadowRegister.write_shadow, Py.shiftl.
    destruct (Z.ltb_spec (ShadowRegister.width self) 0); [lia|]. cbn.
    eexists. split; [done|]. cbn.
    rewrite Z.shiftl_1_l, Z.sub_1_r, <- Z.ones_equiv. by rewrite Z.land_ones.
  - cbn [app shadow_writes].
    unfold ShadowRegister.write_shadow at 1. unfold Py.shiftl.
    destruct (Z.ltb_spec (ShadowRegister.width self) 0); [lia|].
    cbn [mbind option_bind].
    destruct (IH (ShadowRegister.Register (ShadowRegister.width self)
                    (ShadowRegister.main_value self)
                    (Z.land value0 (Z.shiftl 1 (ShadowRegister.width self) - 1))
                    true))
      as (self' & Hws & Hmain & Hcommit & Hidem); [done|].
    by exists self'.
Qed.

Lemma shadow_commit_publishes_last_witness :
  ∃ self',
    shadow_writes (ShadowRegister.init 32) ([0x1111] ++ [0x12345678])
      = Some self' ∧
    ShadowRegister.read_main self' = 0 ∧
    ShadowRegister.read_main (ShadowRegister.commit_shadow self') = 0x12345678.
Proof.
  destruct (shadow_commit_publishes_last (ShadowRegister.init 32)
              [0x1111] 0x12345678)
    as (self' & Hws & Hmain & Hcommit & _).
  - cbn. lia.
  - exists self'. split; [exact Hws|]. split; [exact Hmain | exact Hcommit].
Defined.

(** *** What the window statistics are *)

Section WindowStatistics.
Import SlidingWindow.

Context {num : Type} `{Number num}.
Variable latencies : list num.
Variable k : Z.

(** The naive loop appends one triple per window start: the minimum, the
    mean and the maximum of that window. *)
Lemma simple_loop_lookup (range : list Z) :
  ∀ results results',
    simple_loop latencies k range results = Some results' →
    length results' = (length results + length range)%nat ∧
    ∀ j i, range !! j = Some i →
      ∃ mn avg mx,
        results' !! (length results + j)%nat = Some (mn, avg, mx) ∧
        py_min (Py.slice latencies i (i + k)) = Some mn ∧
        py_max (Py.slice latencies i (i + k)) = Some mx ∧
        num_truediv (py_sum (Py.slice latencies i (i + k))) k = Some avg.
Proof.
  induction range as [|i0 range IH]; intros results results'; cbn.
  { intros [= <-]. split; [lia|]. intros j i Hj. by rewrite lookup_nil in Hj. }
  unfold simple_body.
  destruct (py_min _) as [mn|] eqn:Hmin; [cbn|done].
  destruct (py_max _) as [mx|] eqn:Hmax; [cbn|done].
  destruct (num_truediv _ _) as [avg|] eqn:Havg; [cbn|done].
  intros Hloop.
  assert (∀ j, (j < length (results ++ [(mn, avg, mx)]))%nat →
               results' !! j = (results ++ [(mn, avg, mx)]) !! j) as Hkeep.
  { clear IH Hmin Hmax Havg. revert Hloop.
    generalize (results ++ [(mn, avg, mx)]). clear results.
    induction range as [|i1 range IH]; intros results; cbn.
    { by intros [= <-]. }
    destruct (simple_body latencies k results i1) as [results1|] eqn:Hbody;
      [cbn|done].
    intros Hloop j Hj. rewrite (IH _ Hloop).
    - unfold simple_body in Hbody.
      destruct (py_min _); [cbn in Hbody|done].
      destruct (py_max _); [cbn in Hbody|done].
      destruct (num_truediv _ _); [cbn in Hbody|done].
      injection Hbody as <-. by rewrite lookup_app_l.
    - unfold simple_body in Hbody.
      destruct (py_min _); [cbn in Hbody|done].
      destruct (py_max _); [cbn in Hbody|done].
      destruct (num_truediv _ _); [cbn in Hbody|done].
      injection Hbody as <-. rewrite length_app. lia. }
  destruct (IH _ _ Hloop) as [Hlen Hrange].
  rewrite length_app in Hlen. cbn [length] in Hlen. split; [lia|].
  intros [|j] i Hj; cbn in Hj.
  - injection Hj as <-. exists mn, avg, mx. split; [|done].
    rewrite Nat.add_0_r, Hkeep by (rewrite length_app; cbn; lia).
    by rewrite lookup_app_r, Nat.sub_diag.
  - destruct (Hrange j i Hj) as (mn' & avg' & mx' & Hlook & Hrest).
    exists mn', avg', mx'. split; [|done].
    rewrite length_app in Hlook. cbn [length] in Hlook.
    by replace (length results + S j)%nat
      with (length results + 1 + j)%nat by lia.
Qed.

End WindowStatistics.



(** *** Retrains and speed changes of a trace *)

Section LTSSMSummary.
Import LTSSM.

Lemma trace_body_prev_event (l : locals) (event : LTSSMEvent) :
  l_prev_event (trace_body l event) = event.
Proof.
  unfold trace_body.
  destruct (String.eqb (state (l_prev_event l)) "Recovery");
    destruct (l_current_recovery_start l);
    destruct (negb (String.eqb (data event) "") &&
              LogGrep.contains "Gen" (data event));
    destruct (negb (String.eqb (data event) (l_current_speed l))); done.
Qed.

Lemma trace_body_retrain_count (l : locals) (event : LTSSMEvent) :
  l_retrain_count (trace_body l event) =
    l_retrain_count l + (if is_retrain (l_prev_event l, event) then 1 else 0).
Proof.
  unfold trace_body, is_retrain. cbn [fst snd].
  destruct (String.eqb (state (l_prev_event l)) "Recovery");
    destruct (l_current_recovery_start l);
    destruct (negb (String.eqb (data event) "") &&
              LogGrep.contains "Gen" (data event));
    destruct (negb (String.eqb (data event) (l_current_speed l)));
    cbn;
    destruct (String.eqb (state event) "Config" ||
              String.eqb (state event) "Polling"); cbn; lia.
Qed.

(** The loop counts the retrains among the transitions it visits. *)
Lemma fold_trace_body_retrain_count (events : list LTSSMEvent) :
  ∀ l, l_retrain_count (fold_left trace_body events l) =
         l_retrain_count l +
         Z.of_nat (length (List.filter is_retrain
                             (transitions (l_prev_event l :: events)))).
Proof.
  induction events as [|event events IH]; intros l.
  { cbn. lia. }
  cbn [fold_left]. rewrite IH, trace_body_retrain_count, trace_body_prev_event.
  unfold transitions. cbn [tail zip zip_with List.filter].
  destruct (is_retrain (l_prev_event l, event)); cbn [length]; lia.
Qed.

Lemma trace_body_speed (l : locals) (event : LTSSMEvent) :
  (l_speed_changes (trace_body l event), l_current_speed (trace_body l event)) =
    if negb (String.eqb (data event) "") && LogGrep.contains "Gen" (data event)
       && negb (String.eqb (data event) (l_current_speed l))
    then (l_speed_changes l ++ [(timestamp event, l_current_speed l, data event)],
          data event)
    else (l_speed_changes l, l_current_speed l).
Proof.
  unfold trace_body.
  destruct (String.eqb (state (l_prev_event l)) "Recovery");
    destruct (l_current_recovery_start l);
    destruct (negb (String.eqb (data event) "") &&
              LogGrep.contains "Gen" (data event));
    destruct (negb (String.eqb (data event) (l_current_speed l))); done.
Qed.

Lemma speed_chain_snoc (current : string) (changes : list (Qc * string * string))
    (t : Qc) (new_speed : string) :
  speed_chain current changes →
  new_speed ≠ final_speed current changes →
  speed_chain current (changes ++ [(t, final_speed current changes, new_speed)]).
Proof.
  revert current. induction changes as [|[[t0 old0] new0] changes IH];
    intros current; cbn.
  { by intros _ Hne. }
  intros (-> & Hne0 & Hchain) Hne. split; [done|]. split; [done|].
  assert (final_speed current ((t0, current, new0) :: changes)
          = final_speed new0 changes) as Heq.
  { unfold final_speed. destruct changes as [|c changes] using rev_ind; [done|].
    by rewrite app_comm_cons, !last_snoc. }
  rewrite Heq in Hne |- *. by apply IH.
Qed.

Lemma final_speed_snoc (current : string) (changes : list (Qc * string * string))
    (t : Qc) (old_speed new_speed : string) :
  final_speed current (changes ++ [(t, old_speed, new_speed)]) = new_speed.
Proof. unfold final_speed. by rewrite last_snoc. Qed.

(** The log the loop builds stays a chain that ends at the current
    speed, and every entry it adds comes from a visited row that names a
    speed. *)
Lemma fold_trace_body_speed (start : string) (events : list LTSSMEvent) :
  ∀ l, speed_chain start (l_speed_changes l) →
       l_current_speed l = final_speed start (l_speed_changes l) →
       let l' := fold_left trace_body events l in
       speed_chain start (l_speed_changes l') ∧
       l_current_speed l' = final_speed start (l_speed_changes l') ∧
       ∀ change, change ∈ l_speed_changes l' →
         change ∈ l_speed_changes l ∨
         ∃ event, event ∈ events ∧ change.1.1 = timestamp event ∧
                  change.2 = data event ∧
                  LogGrep.contains "Gen" (data event) = true.
Proof.
  induction events as [|event events IH]; intros l Hchain Hcur; cbn zeta.
  { cbn. repeat split; try done. by left. }
  cbn [fold_left].
  pose proof (trace_body_speed l event) as Hbody.
  destruct (negb (String.eqb (data event) "") &&
            LogGrep.contains "Gen" (data event) &&
            negb (String.eqb (data event) (l_current_speed l))) eqn:Hcond;
    injection Hbody as Hchanges Hspeed.
  - apply andb_true_iff in Hcond as [Hcond Hne].
    apply andb_true_iff in Hcond as [_ Hgen].
    apply negb_true_iff, String.eqb_neq in Hne.
    destruct (IH (trace_body l event)) as (Hchain' & Hcur' & Hfrom).
    { rewrite Hchanges, Hcur. apply speed_chain_snoc; [done|].
      by rewrite <- Hcur. }
    { by rewrite Hchanges, Hspeed, final_speed_snoc. }
    split; [done|]. split; [done|].
    intros change Hchange. destruct (Hfrom change Hchange) as [Hold|Hnew].
    + rewrite Hchanges in Hold. apply elem_of_app in Hold as [Hold|Hold].
      * by left.
      * apply list_elem_of_singleton in Hold as ->. right.
        exists event. split; [apply list_elem_of_here | done].
    + right. destruct Hnew as (event' & Hin & Hrest).
      exists event'. split; [by apply list_elem_of_further | done].
  - destruct (IH (trace_body l event)) as (Hchain' & Hcur' & Hfrom).
    { by rewrite Hchanges. }
    { by rewrite Hchanges, Hspeed. }
    split; [done|]. split; [done|].
    intros change Hchange. destruct (Hfrom change Hchange) as [Hold|Hnew].
    + left. by rewrite <- Hchanges.
    + right. destruct Hnew as (event' & Hin & Hrest).
      exists event'. split; [by apply list_elem_of_further | done].
Qed.

End LTSSMSummary.

(** X26.  The retrain count that [parse_ltssm_trace] reports is the number
    of pairs of consecutive rows of the trace that go from [Recovery] to
    [Config] or to [Polling]. *)
Theorem parse_ltssm_trace_retrain_count (events : list LTSSM.LTSSMEvent) :
  LTSSM.retrain_count (LTSSM.parse_ltssm_trace (Some events))
  = Z.of_nat (length (List.filter is_retrain (transitions events))).
Proof.
  destruct events as [|first rest]; [done|].
  unfold LTSSM.parse_ltssm_trace. cbn [LTSSM.retrain_count].
  by rewrite fold_trace_body_retrain_count.
Qed.

(** X27.  The speed changes that [parse_ltssm_trace] reports form a chain
    that starts at [Gen1]: the old speed of each entry is the new speed of
    the entry before it ([Gen1] for the first), and differs from its own new
    speed.  Every entry carries the timestamp and the data of a row after
    the first whose data contains [Gen]. *)
Theorem parse_ltssm_trace_speed_chain (csv_file : option (list LTSSM.LTSSMEvent)) :
  let changes := LTSSM.speed_changes (LTSSM.parse_ltssm_trace csv_file) in
  speed_chain "Gen1" changes ∧
  ∀ t old_speed new_speed, (t, old_speed, new_speed) ∈ changes →
    ∃ events event, csv_file = Some events ∧ event ∈ tail events ∧
      t = LTSSM.timestamp event ∧ new_speed = LTSSM.data event ∧
      LogGrep.contains "Gen" new_speed = true.
Proof.
  destruct csv_file as [[|first rest]|]; cbn zeta;
    [by split; [|intros ??? ?%elem_of_nil] | |
     by split; [|intros ??? ?%elem_of_nil]].
  unfold LTSSM.parse_ltssm_trace. cbn [LTSSM.speed_changes].
  destruct (fold_trace_body_speed "Gen1" rest
              (LTSSM.Locals None 0 0%Qc None ∅ [] first "Gen1"))
    as (Hchain & _ & Hfrom); [done..|].
  split; [done|]. intros t old_speed new_speed Hin.
  destruct (Hfrom _ Hin) as [Hnil|(event & Hevent & Ht & Hnew & Hgen)].
  { by apply elem_of_nil in Hnil. }
  cbn in Ht, Hnew. subst. by exists (first :: rest), event.
Qed.

(** X28.  The first [L0] time that [parse_ltssm_trace] reports is the
    timestamp of the earliest row in state [L0] among the rows after the
    first one, and nothing when there is none: the first row is never
    looked at. *)
Theorem parse_ltssm_trace_first_l0_after_first_row
    (events : list LTSSM.LTSSMEvent) :
  LTSSM.first_l0_time (LTSSM.parse_ltssm_trace (Some events))
  = earliest_l0 (tail events).
Proof.
  destruct events as [|first rest]; [done|].
  apply parse_ltssm_trace_first_l0.
Qed.

(** *** What the two greps report *)

Section LogGrepReports.
Import LogGrep.

Lemma matches_lines (pattern : string) (rest : list string) :
  ∀ prev, (λ t : triple, t.1.2) <$> matches pattern prev rest
          = List.filter (contains pattern) rest.
Proof.
  induction rest as [|line rest IH]; intros prev; [done|].
  cbn [matches List.filter]. rewrite fmap_app, IH.
  by destruct (contains pattern line).
Qed.

End LogGrepReports.

(** X29.  [grep_with_context] reports exactly the lines (stripped of their
    line end) that contain the pattern, in file order, each with the line
    before it and the line after it, [None] where the file begins or
    ends; a file that cannot be opened gives the empty list. *)
Theorem grep_with_context_reports_matches (raw_lines : list string)
    (pattern : string) :
  let lines := LogGrep.rstrip <$> raw_lines in
  LogGrep.grep_with_context (Some raw_lines) pattern
    = matches pattern None lines ∧
  (λ t : LogGrep.triple, t.1.2) <$> LogGrep.grep_with_context (Some raw_lines) pattern
    = List.filter (LogGrep.contains pattern) lines ∧
  LogGrep.grep_with_context None pattern = [].
Proof.
  cbn zeta. rewrite grep_with_context_matches.
  split; [done|]. split; [apply matches_lines | done].
Qed.

(** X30.  The streaming grep reports what the list-based grep reports,
    except a match on the first line of a file of two lines or more: that
    one it leaves out, and nothing else. *)
Theorem grep_streaming_misses_only_first_line (file : option (list string))
    (pattern : string) :
  LogGrep.grep_with_context file pattern
  = match file with
    | Some (raw0 :: raw1 :: _) =>
        if LogGrep.contains pattern (LogGrep.rstrip raw0)
        then [(None, LogGrep.rstrip raw0, Some (LogGrep.rstrip raw1))]
        else []
    | _ => []
    end ++ LogGrep.grep_with_context_streaming file pattern.
Proof.
  destruct file as [[|raw0 [|raw1 f]]|].
  - done.
  - apply grep_streaming_short_files.
  - apply grep_with_context_vs_streaming.
  - done.
Qed.
